(** * A mock git smart-HTTP server: packet lines, object walker, handlers

    Shallow embedding of [porch/repository/pkg/git/testing.go].

    Go [string] and [[]byte] values are byte strings and are modelled by
    [string] (one [ascii] per byte).  A [plumbing.Hash] is the [[20]byte]
    array, written here as the byte string of its twenty bytes. *)

From Stdlib Require Import Ascii NArith Lia.
From stdpp Require Import gmap strings list.

Local Open Scope N_scope.
Local Open Scope nat_scope.

(** ** Byte strings, as the Go [strings] package sees them *)

Module GoString.

Definition len (s : string) : nat := String.length s.

Fixpoint take (n : nat) (s : string) : string :=
  match n, s with
  | S n', String c s' => String c (take n' s')
  | _, _ => ""
  end.

Fixpoint drop (n : nat) (s : string) : string :=
  match n, s with
  | S n', String _ s' => drop n' s'
  | _, _ => s
  end.

Fixpoint contains (c : ascii) (s : string) : bool :=
  match s with
  | "" => false
  | String d s' => if decide (d = c) then true else contains c s'
  end.

Fixpoint count (c : ascii) (s : string) : nat :=
  match s with
  | "" => 0
  | String d s' => (if decide (d = c) then 1 else 0) + count c s'
  end.

(** [cut sep s] splits [s] around the first [sep], as [strings.Index]
    followed by slicing does. *)
Fixpoint cut (sep : ascii) (s : string) : option (string * string) :=
  match s with
  | "" => None
  | String d s' =>
      if decide (d = sep) then Some ("", s')
      else match cut sep s' with
           | Some (a, b) => Some (String d a, b)
           | None => None
           end
  end.

(** [strings.SplitN(s, sep, n)] for a one-byte separator and [n >= 0]:
    at most [n] pieces, the last one being the unsplit remainder. *)
Fixpoint SplitN (s : string) (sep : ascii) (n : nat) : list string :=
  match n with
  | 0 => []
  | 1 => [s]
  | S n' => match cut sep s with
            | None => [s]
            | Some (a, b) => a :: SplitN b sep n'
            end
  end.

(** [strings.Split(s, sep)] for a one-byte separator. *)
Fixpoint Split (s : string) (sep : ascii) : list string :=
  match s with
  | "" => [""]
  | String d s' =>
      if decide (d = sep) then "" :: Split s' sep
      else match Split s' sep with
           | w :: ws => String d w :: ws
           | [] => [String d ""]
           end
  end.

(** [strings.Join(elems, sep)]. *)
Fixpoint Join (elems : list string) (sep : string) : string :=
  match elems with
  | [] => ""
  | [e] => e
  | e :: es => e +:+ sep +:+ Join es sep
  end.

Fixpoint HasPrefix (s p : string) : bool :=
  match p, s with
  | "", _ => true
  | String c p', String d s' => if decide (c = d) then HasPrefix s' p' else false
  | String _ _, "" => false
  end.

End GoString.

Import GoString.

(** ** Hexadecimal: [encoding/hex] and the [%04x] verb *)

Definition nul : ascii := "000"%char.
Definition newline : ascii := "010"%char.
Definition space : ascii := " "%char.

(** [fromHexChar] of [encoding/hex]: both letter cases are digits. *)
Definition fromHexChar (c : ascii) : option N :=
  let n := N_of_ascii c in
  if (48 <=? n)%N && (n <=? 57)%N then Some (n - 48)%N
  else if (97 <=? n)%N && (n <=? 102)%N then Some (n - 87)%N
  else if (65 <=? n)%N && (n <=? 70)%N then Some (n - 55)%N
  else None.

(** One lower-case hexadecimal digit, for a value below sixteen. *)
Definition hexDigit (d : N) : ascii :=
  if (d <? 10)%N then ascii_of_N (48 + d) else ascii_of_N (87 + d).

(** [hex.DecodeString]: pairs of digits to bytes; an odd length or a byte
    that is no digit is an error. *)
Fixpoint hexDecodeString (s : string) : option string :=
  match s with
  | "" => Some ""
  | String _ "" => None
  | String p (String q s') =>
      match fromHexChar p, fromHexChar q, hexDecodeString s' with
      | Some a, Some b, Some r => Some (String (ascii_of_N (16 * a + b)) r)
      | _, _, _ => None
      end
  end.

(** [hex.EncodeToString], which [Hash.String] uses. *)
Fixpoint hexEncodeToString (s : string) : string :=
  match s with
  | "" => ""
  | String c s' =>
      let n := N_of_ascii c in
      String (hexDigit (n / 16)) (String (hexDigit (n mod 16)) (hexEncodeToString s'))
  end.

(** The digits of [n] in base sixteen, most significant first, in front of
    [acc]; [fuel] bounds the number of digits. *)
Fixpoint hexDigits (fuel : nat) (n : N) (acc : string) : string :=
  match fuel with
  | 0 => acc
  | S fuel' =>
      let acc' := String (hexDigit (n mod 16)) acc in
      if (n <? 16)%N then acc' else hexDigits fuel' (n / 16) acc'
  end.

Fixpoint zeros (k : nat) : string :=
  match k with
  | 0 => ""
  | S k' => String "0"%char (zeros k')
  end.

(** [fmt.Sprintf("%04x", n)]: lower-case hexadecimal, padded with zeros to
    a width of at least four; a wider number is not truncated. *)
Definition sprintf04x (n : N) : string :=
  let ds := hexDigits (S (N.size_nat n)) n "" in
  zeros (4 - len ds) +:+ ds.

(** Reading a four-digit hexadecimal number, most significant digit first. *)
Fixpoint parseHex (s : string) (acc : N) : option N :=
  match s with
  | "" => Some acc
  | String c s' =>
      match fromHexChar c with
      | Some d => parseHex s' (16 * acc + d)%N
      | None => None
      end
  end.

(** ** Errors

    The Go code builds its errors with [fmt.Errorf]; one constructor stands
    for each message format, with the formatted values as arguments. *)

Inductive error : Type :=
  | ErrIO (msg : string)                    (* an error of the underlying writer or store *)
  | ErrUnknownServiceName (name : string)   (* "unknown service-name %q" *)
  | ErrGzipNewReader                        (* "gzip.NewReader failed: %w" *)
  | ErrUnknownContentEncoding (enc : string)(* "unknown content-encoding %q" *)
  | ErrReadingRequestLine                   (* "error reading request line: ..." *)
  | ErrLineSpaces (line : string)           (* "unexpected line (spaces) %q" *)
  | ErrLineNulls (line : string)            (* "unexpected line (nulls) %q" *)
  | ErrLineHash1 (line : string)            (* "unexpected line (hash1) %q" *)
  | ErrLineHash2 (line : string)            (* "unexpected line (hash2) %q" *)
  | ErrHashNotHex (s : string)              (* "hash %q was not hex" *)
  | ErrHashWrongLength (s : string)         (* "hash %q was wrong length" *)
  | ErrGettingObject (hash : string)        (* "getting object %s failed: %v" *)
  | ErrUnknownObject (hash : string)        (* "unknown object %s %s %T" *)
  | ErrUnexpectedReference (name : string)  (* "unexpected reference encountered: %s" *)
  | ErrGetReferences (cause : error)        (* "failed to get git references: %w" *)
  | ErrIteratingReferences (cause : error). (* "error iterating through references: %w" *)

Global Instance error_eq_dec : EqDecision error.
Proof. solve_decision. Defined.

(** ** The packet-line writer *)

(** What [PacketLineWriter] needs of its [*bufio.Writer]: [Write] and
    [Flush], each of which may report an error. *)
Class Writer (W : Type) : Type := {
  Write : string -> W -> W * option error;
  FlushW : W -> W * option error
}.

(** A writer that never fails and keeps every byte, as [bytes.Buffer]. *)
Definition Buffer : Type := string.

Global Instance Buffer_Writer : Writer Buffer := {|
  Write p b := (b +:+ p, None);
  FlushW b := (b, None)
|}.

(** A connection that takes [room] more bytes and then fails every write,
    as a peer that went away. *)
Record Conn : Type := mkConn { sent : string; room : nat }.

Global Instance Conn_Writer : Writer Conn := {|
  Write p c :=
    if decide (len p <= room c)
    then (mkConn (sent c +:+ p) (room c - len p), None)
    else (c, Some (ErrIO "broken pipe"));
  FlushW c := (c, None)
|}.

Section PacketLineWriter.
Context {W : Type} `{Writer W}.

(** [type PacketLineWriter struct { err error; w *bufio.Writer }] *)
Record PacketLineWriter : Type := mkPLW { err : option error; w : W }.

Definition NewPacketLineWriter (bw : W) : PacketLineWriter :=
  {| err := None; w := bw |}.

(** [Flush] returns the accumulated error, or else flushes. *)
Definition Flush (p : PacketLineWriter) : PacketLineWriter * option error :=
  match err p with
  | Some e => (p, Some e)
  | None => let '(w', r) := FlushW (w p) in ({| err := None; w := w' |}, r)
  end.

(** One [w.w.Write] of the write methods: on an error, record it. *)
Definition writeOrRecord (data : string) (bw : W)
    (k : W -> PacketLineWriter) : PacketLineWriter :=
  match Write data bw with
  | (w', Some e) => {| err := Some e; w := w' |}
  | (w', None) => k w'
  end.

Definition WriteLine (s : string) (p : PacketLineWriter) : PacketLineWriter :=
  match err p with
  | Some _ => p
  | None =>
      let n := 4 + len s + 1 in
      let prefix := sprintf04x (N.of_nat n) in
      writeOrRecord prefix (w p) (fun w1 =>
      writeOrRecord s w1 (fun w2 =>
      writeOrRecord (String newline "") w2 (fun w3 =>
      {| err := None; w := w3 |})))
  end.

Definition WriteZeroPacketLine (p : PacketLineWriter) : PacketLineWriter :=
  match err p with
  | Some _ => p
  | None =>
      writeOrRecord "0000" (w p) (fun w1 => {| err := None; w := w1 |})
  end.

(** The calls a handler makes on a writer between two flushes. *)
Inductive writeOp : Type :=
  | OpWriteLine (s : string)
  | OpWriteZeroPacketLine.

Definition runOp (p : PacketLineWriter) (op : writeOp) : PacketLineWriter :=
  match op with
  | OpWriteLine s => WriteLine s p
  | OpWriteZeroPacketLine => WriteZeroPacketLine p
  end.

Definition runOps (ops : list writeOp) (p : PacketLineWriter) : PacketLineWriter :=
  foldl runOp p ops.

(** The [w.w.Write] calls an operation makes when nothing fails. *)
Definition opWrites (op : writeOp) : list string :=
  match op with
  | OpWriteLine s => [sprintf04x (N.of_nat (4 + len s + 1)); s; String newline ""]
  | OpWriteZeroPacketLine => ["0000"]
  end.

(** Writing the pieces in turn, up to the first error. *)
Fixpoint writeAll (pieces : list string) (bw : W) : W * option error :=
  match pieces with
  | [] => (bw, None)
  | d :: pieces' =>
      match Write d bw with
      | (w', Some e) => (w', Some e)
      | (w', None) => writeAll pieces' w'
      end
  end.

End PacketLineWriter.

Arguments PacketLineWriter W : clear implicits.

(** ** The packet-line scanner *)

Inductive ScanResult : Type :=
  | ScanLine (payload rest : string)
  | ScanFlush (rest : string)
  | ScanEOF
  | ScanError.

(** Modelled from the spec: the packet-line decoder ([pktline.Scanner] of
    go-git, which is not part of this repository).  It reads a prefix of
    four hexadecimal digits; [0000] is the end-of-section marker; otherwise
    it reads exactly prefix-minus-four more bytes as the line body.  A
    prefix that is not hexadecimal, a truncated body and a prefix below
    four are framing errors. *)
Definition pktScan (input : string) : ScanResult :=
  if decide (len input = 0) then ScanEOF
  else if decide (len input < 4) then ScanError
  else match parseHex (take 4 input) 0%N with
       | None => ScanError
       | Some n =>
           let n := N.to_nat n in
           let body := drop 4 input in
           if decide (n = 0) then ScanFlush body
           else if decide (n < 4) then ScanError
           else if decide (len body < n - 4) then ScanError
           else ScanLine (take (n - 4) body) (drop (n - 4) body)
       end.

(** The bytes [WriteLine] puts on a writer that accepts them all. *)
Definition pktLine (s : string) : string :=
  w (WriteLine s (NewPacketLineWriter ("" : Buffer))).

(** ** Objects, references and the store *)

(** [plumbing.Hash], a [[20]byte]. *)
Abbreviation Hash := string (only parsing).
Abbreviation ReferenceName := string (only parsing).

(** [filemode.FileMode] is a [uint32]; these are go-git's constants. *)
Abbreviation FileMode := N (only parsing).

Module filemode.
Definition Empty : FileMode := 0%N.
Definition Dir : FileMode := 16384%N.         (* 0040000 *)
Definition Regular : FileMode := 33188%N.     (* 0100644 *)
Definition Deprecated : FileMode := 33204%N.  (* 0100664 *)
Definition Executable : FileMode := 33261%N.  (* 0100755 *)
Definition Symlink : FileMode := 40960%N.     (* 0120000 *)
Definition Submodule : FileMode := 57344%N.   (* 0160000 *)
End filemode.

Record TreeEntry : Type := mkEntry {
  Name : string;
  Mode : FileMode;
  EntryHash : Hash
}.

(** What [object.GetObject] can return.  Of a commit only the fields the
    walker reads are kept. *)
Inductive Object : Type :=
  | Commit (TreeHash : Hash) (ParentHashes : list Hash)
  | Tree (Entries : list TreeEntry)
  | Tag (Target : Hash)
  | Blob (content : string).

(** [plumbing.Reference], by its [ReferenceType]. *)
Inductive Reference : Type :=
  | InvalidReference (name : ReferenceName)
  | HashReference (name : ReferenceName) (hash : Hash)
  | SymbolicReference (name : ReferenceName) (target : ReferenceName).

Definition RefName (r : Reference) : ReferenceName :=
  match r with
  | InvalidReference n | HashReference n _ | SymbolicReference n _ => n
  end.

(** ** The object walker *)

(** [type objectWalker struct { Storer; seen map[Hash]struct{} }].  The
    store is the section variable [objects]; [fetched] is a ghost field
    that lists the hashes handed to [object.GetObject], in call order. *)
Record objectWalker : Type := mkWalker {
  seen : gset Hash;
  fetched : list Hash
}.

Definition newObjectWalker : objectWalker :=
  {| seen := ∅; fetched := [] |}.

(** How a call of the walker ends: [nil], an error, or (in the model only)
    the recursion budget ran out. *)
Inductive outcome : Type :=
  | Done
  | Failed (e : error)
  | OutOfFuel.

Global Instance outcome_eq_dec : EqDecision outcome.
Proof. solve_decision. Defined.

Definition isSeen (hash : Hash) (p : objectWalker) : bool :=
  bool_decide (hash ∈ seen p).

Definition add (hash : Hash) (p : objectWalker) : objectWalker :=
  {| seen := {[hash]} ∪ seen p; fetched := fetched p |}.

Section Walker.
(** The objects of the store: [GetObject] fails on a hash outside it. *)
Variable objects : gmap Hash Object.

Definition GetObject (hash : Hash) (p : objectWalker) : option Object * objectWalker :=
  (objects !! hash, {| seen := seen p; fetched := fetched p ++ [hash] |}).

(** [for _, h := range obj.ParentHashes { err = p.walkObjectTree(h); ... }] *)
Fixpoint walkHashes (walk : Hash -> objectWalker -> outcome * objectWalker)
    (hs : list Hash) (p : objectWalker) : outcome * objectWalker :=
  match hs with
  | [] => (Done, p)
  | h :: hs' =>
      match walk h p with
      | (Done, p') => walkHashes walk hs' p'
      | r => r
      end
  end.

(** The loop over [obj.Entries] with its [switch] on the mode: files are
    added, submodules skipped, everything else (directories, and unknown
    modes after a warning) is walked. *)
Fixpoint walkEntries (walk : Hash -> objectWalker -> outcome * objectWalker)
    (es : list TreeEntry) (p : objectWalker) : outcome * objectWalker :=
  match es with
  | [] => (Done, p)
  | e :: es' =>
      if decide (Mode e = filemode.Executable \/ Mode e = filemode.Regular
                 \/ Mode e = filemode.Symlink)
      then walkEntries walk es' (add (EntryHash e) p)
      else if decide (Mode e = filemode.Submodule)
      then walkEntries walk es' p
      else match walk (EntryHash e) p with
           | (Done, p') => walkEntries walk es' p'
           | r => r
           end
  end.

(** [walkObjectTree], with a bound [fuel] on the depth of the recursion. *)
Fixpoint walkObjectTreeF (fuel : nat) (hash : Hash) (p : objectWalker)
    : outcome * objectWalker :=
  match fuel with
  | 0 => (OutOfFuel, p)
  | S fuel' =>
      if isSeen hash p then (Done, p)
      else
        let p := add hash p in
        let '(obj, p) := GetObject hash p in
        match obj with
        | None => (Failed (ErrGettingObject hash), p)
        | Some (Commit t ps) =>
            match walkObjectTreeF fuel' t p with
            | (Done, p') => walkHashes (walkObjectTreeF fuel') ps p'
            | r => r
            end
        | Some (Tree es) => walkEntries (walkObjectTreeF fuel') es p
        | Some (Tag t) => walkObjectTreeF fuel' t p
        | Some (Blob _) => (Failed (ErrUnknownObject hash), p)
        end
  end.

(** The recursion is never deeper than the number of stored objects plus
    one (see [walkObjectTree_total]). *)
Definition walkObjectTree (hash : Hash) (p : objectWalker) : outcome * objectWalker :=
  walkObjectTreeF (S (size objects)) hash p.

(** The callback of [walkAllRefs] over the references [it] yields:
    anything but a hash reference is left alone; the first error stops
    the iteration. *)
Fixpoint walkRefs (refs : list Reference) (p : objectWalker) : outcome * objectWalker :=
  match refs with
  | [] => (Done, p)
  | HashReference _ h :: refs' =>
      match walkObjectTree h p with
      | (Done, p') => walkRefs refs' p'
      | r => r
      end
  | _ :: refs' => walkRefs refs' p
  end.

End Walker.

(** [storage.Storer], as far as the server uses it: the objects, the
    references in the order the iterator yields them, and the error (if
    any) with which the store refuses to iterate. *)
Record Storer : Type := mkStorer {
  Objects : gmap Hash Object;
  References : list Reference;
  IterFailure : option error
}.

(** [Storer.IterReferences()] *)
Definition IterReferences (s : Storer) : error + list Reference :=
  match IterFailure s with
  | Some e => inl e
  | None => inr (References s)
  end.

Definition withObjects (objs : gmap Hash Object) (s : Storer) : Storer :=
  {| Objects := objs; References := References s; IterFailure := IterFailure s |}.

Definition withReferences (refs : list Reference) (s : Storer) : Storer :=
  {| Objects := Objects s; References := refs; IterFailure := IterFailure s |}.

(** [walkAllRefs] walks all (hash) references from the repo. *)
Definition walkAllRefs (s : Storer) (p : objectWalker) : outcome * objectWalker :=
  match IterReferences s with
  | inl e => (Failed e, p)
  | inr refs => walkRefs (Objects s) refs p
  end.

(** ** References: lookup, resolution, update *)

Definition ZeroHash : Hash := String.string_of_list_ascii (replicate 20 zero).

(** [ref.Hash()]: the zero hash for anything but a hash reference. *)
Definition RefHash (r : Reference) : Hash :=
  match r with
  | HashReference _ h => h
  | _ => ZeroHash
  end.

(** [Storer.Reference(name)]: the reference stored under [name]. *)
Fixpoint lookupRef (name : ReferenceName) (refs : list Reference) : option Reference :=
  match refs with
  | [] => None
  | r :: refs' => if decide (RefName r = name) then Some r else lookupRef name refs'
  end.

Definition MaxResolveRecursion : nat := 1024.

(** Modelled from the spec: resolving a symbolic reference follows the
    chain of names transitively (go-git's [storer.ResolveReference], not
    part of this repository, gives up after [MaxResolveRecursion] steps);
    a missing target makes the reference unresolvable. *)
Fixpoint resolveReference (refs : list Reference) (r : Reference) (budget : nat)
    : option Reference :=
  match r with
  | SymbolicReference _ target =>
      match budget with
      | 0 => None
      | S budget' =>
          match lookupRef target refs with
          | None => None
          | Some t => resolveReference refs t budget'
          end
      end
  | _ => Some r
  end.

(** [repo.Reference(name, true)]. *)
Definition ResolveReference (s : Storer) (name : ReferenceName) : option Reference :=
  match lookupRef name (References s) with
  | None => None
  | Some r => resolveReference (References s) r (S MaxResolveRecursion)
  end.

(** Storing [ref] under its name: in place of the reference of that name,
    or else as a new one. *)
Fixpoint setRef (ref : Reference) (refs : list Reference) : list Reference :=
  match refs with
  | [] => [ref]
  | r :: refs' =>
      if decide (RefName r = RefName ref) then ref :: refs'
      else r :: setRef ref refs'
  end.

(** ** Reference discovery: [serveGitInfoRefs] *)

Definition HEAD : ReferenceName := "HEAD".
Definition Main : ReferenceName := "refs/heads/main".

(** [name.IsRemote()] *)
Definition IsRemote (name : ReferenceName) : bool :=
  HasPrefix name "refs/remotes/".

(** [hash.String()]: forty lower-case hexadecimal digits. *)
Definition HashString (h : Hash) : string := hexEncodeToString h.

(** The [switch serviceName] that fills [capabilities]. *)
Definition serviceCapabilities (serviceName : string) : error + list string :=
  if decide (serviceName = "git-upload-pack") then inr ["symref=HEAD:refs/heads/main"]
  else if decide (serviceName = "git-receive-pack") then inr []
  else inl (ErrUnknownServiceName serviceName).

(** [fmt.Sprintf("%s %s", resolved.Hash().String(), name)] *)
Definition refLine (resolved : Reference) (name : ReferenceName) : string :=
  HashString (RefHash resolved) +:+ " " +:+ name.

(** The [it.ForEach] callback, folded over the references: [refs] is the
    list built so far. *)
Fixpoint collectRefs (s : Storer) (it : list Reference) (refs : list string)
    : error + list string :=
  match it with
  | [] => inr refs
  | ref :: it' =>
      let name := RefName ref in
      if IsRemote name then collectRefs s it' refs
      else
        let resolved :=
          match ref with
          | SymbolicReference _ _ =>
              match ResolveReference s name with
              | None => inr None            (* skipped with a warning *)
              | Some r => inr (Some r)
              end
          | HashReference _ _ => inr (Some ref)
          | InvalidReference _ => inl (ErrUnexpectedReference name)
          end in
        match resolved with
        | inl e => inl e
        | inr None => collectRefs s it' refs
        | inr (Some r) =>
            let l := refLine r name in
            if decide (name = HEAD) then collectRefs s it' (l :: refs)
            else collectRefs s it' (refs ++ [l])
        end
  end.

(** [s.repo.References()] and [it.ForEach], with the errors wrapped as
    the handler wraps them. *)
Definition advertisedRefs (s : Storer) : error + list string :=
  match IterReferences s with
  | inl e => inl (ErrGetReferences e)
  | inr it =>
      match collectRefs s it [] with
      | inl e => inl (ErrIteratingReferences e)
      | inr refs => inr refs
      end
  end.

(** The lines of [for i, ref := range refs { ... gw.WriteLine(s) }],
    starting at index [i]. *)
Fixpoint advertisementLines (i : nat) (capabilities : list string) (refs : list string)
    : list string :=
  match refs with
  | [] => []
  | ref :: refs' =>
      (if decide (i = 0) then ref +:+ String nul "" +:+ Join capabilities " " else ref)
        :: advertisementLines (S i) capabilities refs'
  end.

Section InfoRefs.
Context {W : Type} `{Writer W}.

(** [serveGitInfoRefs]: the returned error, and the response writer.  A
    failing [Flush] is logged and the handler still returns [nil]. *)
Definition serveGitInfoRefs (s : Storer) (serviceName : string) (bw : W)
    : option error * W :=
  match serviceCapabilities serviceName with
  | inl e => (Some e, bw)
  | inr capabilities =>
      match advertisedRefs s with
      | inl e => (Some e, bw)
      | inr refs =>
          let gw := NewPacketLineWriter bw in
          let gw := WriteLine ("# service=" +:+ serviceName) gw in
          let gw := WriteZeroPacketLine gw in
          let gw := foldl (fun gw l => WriteLine l gw) gw
                      (advertisementLines 0 capabilities refs) in
          let gw := WriteZeroPacketLine gw in
          let '(gw, _) := Flush gw in
          (None, w gw)
      end
  end.

End InfoRefs.

(** ** Receiving a push: [serveGitReceivePack] *)

(** [type RefUpdate struct { From, To GitHash; Ref string }] *)
Record RefUpdate : Type := mkRefUpdate {
  From : Hash;
  To : Hash;
  Ref : string
}.

(** [parseHash]: hexadecimal, and exactly twenty bytes. *)
Definition parseHash (s : string) : error + Hash :=
  match hexDecodeString s with
  | None => inl (ErrHashNotHex s)
  | Some b =>
      if decide (len b <> 20) then inl (ErrHashWrongLength s)
      else inr b
  end.

(** The body of the reading loop for one non-empty [line]: the update it
    asks for, and the client capabilities when the first line has some. *)
Definition parseRefUpdateLine (firstLine : bool) (line : string)
    : error + (RefUpdate * option (list string)) :=
  match SplitN line space 3 with
  | [t0; t1; t2] =>
      let refTokens := Split t2 nul in
      let ref := hd "" refTokens in
      if negb firstLine && negb (bool_decide (length refTokens = 1))
      then inl (ErrLineNulls line)
      else
        let caps :=
          if firstLine && bool_decide (1 < length refTokens)
          then Some (tail refTokens) else None in
        match parseHash t0 with
        | inl _ => inl (ErrLineHash1 line)
        | inr from =>
            match parseHash t1 with
            | inl _ => inl (ErrLineHash2 line)
            | inr to => inr (mkRefUpdate from to ref, caps)
            end
        end
  | _ => inl (ErrLineSpaces line)
  end.

(** What the reading loop hands on: the updates, the client capabilities
    and the unread rest of the body (the pack). *)
Record RequestLines : Type := mkRequestLines {
  refUpdates : list RefUpdate;
  clientCapabilites : list string;
  packData : string
}.

Inductive ReadResult : Type :=
  | ReadOk (r : RequestLines)
  | ReadFailed (e : error)
  | ReadOutOfFuel.

(** The [for { if !gr.Scan() ... }] loop.  Every turn takes a packet of
    at least four bytes off [input], so [fuel] above the length of the
    input is never used up (see [readRefUpdates_total]). *)
Fixpoint readRefUpdatesF (fuel : nat) (input : string) (firstLine : bool)
    (caps : list string) (acc : list RefUpdate) : ReadResult :=
  match fuel with
  | 0 => ReadOutOfFuel
  | S fuel' =>
      let onLine line rest :=
        if decide (line = "") then ReadOk (mkRequestLines acc caps rest)
        else match parseRefUpdateLine firstLine line with
             | inl e => ReadFailed e
             | inr (u, newCaps) =>
                 readRefUpdatesF fuel' rest false (default caps newCaps) (acc ++ [u])
             end in
      match pktScan input with
      | ScanEOF | ScanError => ReadFailed ErrReadingRequestLine
      | ScanFlush rest => onLine "" rest
      | ScanLine line rest => onLine line rest
      end
  end.

Definition readRefUpdates (body : string) : ReadResult :=
  readRefUpdatesF (S (len body)) body true [] [].

(** [type http.Request], as far as the handler reads it. *)
Record Request : Type := mkRequest {
  ContentEncoding : string;
  Body : string
}.

Section ReceivePack.
Context {W : Type} `{Writer W}.

(** [gzip.NewReader] and the reads through it: the inflated body, or
    nothing when the body is no gzip stream. *)
Variable gunzip : string -> option string.

(** [packfile.UpdateObjectStorage]: the pack decoder, which writes the
    objects it finds into the store and may fail. *)
Variable UpdateObjectStorage :
  gmap Hash Object -> string -> gmap Hash Object * option error.

(** Modelled from the spec: set-reference of the Object Store returns ok
    or an error; [refNameOk] says which names the store takes (an invalid
    name is refused and the store stays as it is). *)
Variable refNameOk : ReferenceName -> bool.

Definition SetReference (ref : Reference) (s : Storer) : Storer * option error :=
  if refNameOk (RefName ref)
  then (withReferences (setRef ref (References s)) s, None)
  else (s, Some (ErrIO "invalid reference name")).

(** [for _, refUpdate := range refUpdates { ... SetReference(ref) ... }]:
    an error is logged and the loop goes on. *)
Definition applyRefUpdates (updates : list RefUpdate) (s : Storer) : Storer :=
  foldl (fun s u => fst (SetReference (HashReference (Ref u) (To u)) s)) s updates.

Definition requestBody (r : Request) : error + string :=
  if decide (ContentEncoding r = "") then inr (Body r)
  else if decide (ContentEncoding r = "gzip") then
    match gunzip (Body r) with
    | None => inl ErrGzipNewReader
    | Some b => inr b
    end
  else inl (ErrUnknownContentEncoding (ContentEncoding r)).

(** [serveGitReceivePack]: how the call ends, the store and the response
    writer afterwards. *)
Definition serveGitReceivePack (s : Storer) (r : Request) (bw : W)
    : outcome * Storer * W :=
  match requestBody r with
  | inl e => (Failed e, s, bw)
  | inr body =>
      match readRefUpdates body with
      | ReadOutOfFuel => (OutOfFuel, s, bw)
      | ReadFailed e => (Failed e, s, bw)
      | ReadOk lines =>
          let gitWriter := NewPacketLineWriter bw in
          match UpdateObjectStorage (Objects s) (packData lines) with
          | (objs, Some _) =>
              let s := withObjects objs s in
              let gitWriter := WriteLine "unpack error parsing packfile" gitWriter in
              let '(gitWriter, _) := Flush gitWriter in
              (Done, s, w gitWriter)
          | (objs, None) =>
              let s := withObjects objs s in
              let gitWriter := WriteLine "unpack ok" gitWriter in
              let gitWriter := WriteZeroPacketLine gitWriter in
              match Flush gitWriter with
              | (gitWriter, Some _) => (Done, s, w gitWriter)
              | (gitWriter, None) =>
                  (Done, applyRefUpdates (refUpdates lines) s, w gitWriter)
              end
          end
      end
  end.

End ReceivePack.

(** ** Sample values *)

(** A twenty-byte hash whose last byte is [n]. *)
Definition hashN (n : N) : Hash :=
  String.string_of_list_ascii (replicate 19 zero) +:+ String (ascii_of_N n) "".

(** ** Checking all four-digit prefixes by enumeration *)

(** [checkRange k m P]: [P] holds of the [k] numbers from [m] on. *)
Fixpoint checkRange (k : nat) (m : N) (P : N -> bool) : bool :=
  match k with
  | 0 => true
  | S k' => P m && checkRange k' (N.succ m) P
  end.

(** A prefix written by [sprintf04x] has four digits that read back. *)
Definition prefixReadsBack (m : N) : bool :=
  bool_decide (len (sprintf04x m) = 4 /\ parseHex (sprintf04x m) 0%N = Some m).

(** A line of [k] bytes [c]. *)
Definition lineOf (k : nat) (c : ascii) : string :=
  String.string_of_list_ascii (replicate k c).

(** ** Vocabulary for the walker's properties *)

Abbreviation walkFn := (Hash -> objectWalker -> outcome * objectWalker).

(** [extends p p']: [p'] has seen everything [p] had, and its fetches are
    those of [p] followed by fetches of distinct hashes that [p] had not
    seen and [p'] has. *)
Definition extends (p p' : objectWalker) : Prop :=
  seen p ⊆ seen p' /\
  exists l, fetched p' = fetched p ++ l /\ NoDup l /\
            forall g, g ∈ l -> (g ∉ seen p) /\ (g ∈ seen p').

Section WalkerVocabulary.
Variable objects : gmap Hash Object.

(** The state after [p.add(hash)] and the call of [GetObject]. *)
Definition entered (h : Hash) (p : objectWalker) : objectWalker :=
  (GetObject objects h (add h p)).2.

Definition respects (walk : walkFn) : Prop :=
  forall h p, extends p (walk h p).2.

(** A walker whose fetches are distinct and all seen stays so. *)
Definition tidy (p : objectWalker) : Prop :=
  NoDup (fetched p) /\ forall g, g ∈ fetched p -> g ∈ seen p.

(** The stored objects the walker has not seen yet: every call that gets
    past the seen-check and finds its object takes one away. *)
Definition unseen (p : objectWalker) : nat := size (dom objects ∖ seen p).

Definition agree (walk1 walk2 : walkFn) (ok : objectWalker -> Prop) : Prop :=
  forall h q, ok q -> walk2 h q = walk1 h q.

Definition isFileMode (m : FileMode) : Prop :=
  m = filemode.Executable \/ m = filemode.Regular \/ m = filemode.Symlink.

(** [walkedChild g h]: the object stored under [g] names [h] in a place
    the walker follows or records: the tree or a parent of a commit, the
    target of a tag, an entry of a tree that is no submodule. *)
Definition walkedChild (g h : Hash) : Prop :=
  match objects !! g with
  | Some (Commit t ps) => h = t \/ h ∈ ps
  | Some (Tree es) =>
      exists e, e ∈ es /\ EntryHash e = h /\ Mode e <> filemode.Submodule
  | Some (Tag t) => h = t
  | _ => False
  end.

(** [fileEntryOf g h]: [g] is a tree with a file entry (regular,
    executable or symlink) of hash [h]. *)
Definition fileEntryOf (g h : Hash) : Prop :=
  exists es e, objects !! g = Some (Tree es) /\ e ∈ es /\ EntryHash e = h
               /\ isFileMode (Mode e).

(** A hash is in the seen-set for a reason: it is one of the [roots], or
    a fetched object names it. *)
Definition justified (roots : list Hash) (p : objectWalker) (h : Hash) : Prop :=
  h ∈ roots \/ exists g, g ∈ fetched p /\ walkedChild g h.

Definition accounted (roots : list Hash) (p : objectWalker) : Prop :=
  forall x, x ∈ seen p -> justified roots p x.

(** Every seen hash was fetched, or is a file entry of a fetched tree. *)
Definition markedByEntry (p : objectWalker) : Prop :=
  forall x, x ∈ seen p -> x ∈ fetched p \/ exists g, g ∈ fetched p /\ fileEntryOf g x.

(** Every fetched hash has an object, and that is no blob. *)
Definition fetchedWalkable (p : objectWalker) : Prop :=
  forall g, g ∈ fetched p ->
    exists o, objects !! g = Some o /\ forall c, o <> Blob c.

(** What the lemmas on the loops ask of the function they call. *)
Definition keepsAccount (roots : list Hash) (walk : walkFn) : Prop :=
  forall h q, accounted roots q -> justified roots q h ->
              accounted roots (walk h q).2.

Definition keepsMarks (walk : walkFn) : Prop :=
  forall h q, markedByEntry q -> markedByEntry (walk h q).2.

Definition keepsWalkable (walk : walkFn) : Prop :=
  forall h q q', walk h q = (Done, q') ->
                 fetchedWalkable q -> fetchedWalkable q'.

End WalkerVocabulary.

(** The hashes of the hash references, in iteration order. *)
Definition hashRefTargets (refs : list Reference) : list Hash :=
  omap (fun r => match r with HashReference _ h => Some h | _ => None end) refs.

(** The walk over all references as the specification words it: every
    reference is resolved, one that fails to resolve is skipped, and the
    hash of each resulting hash reference is walked. *)
Fixpoint walkRefs_spec (s : Storer) (refs : list Reference) (p : objectWalker)
    : outcome * objectWalker :=
  match refs with
  | [] => (Done, p)
  | ref :: refs' =>
      match resolveReference (References s) ref (S MaxResolveRecursion) with
      | Some (HashReference _ h) =>
          match walkObjectTree (Objects s) h p with
          | (Done, p') => walkRefs_spec s refs' p'
          | r => r
          end
      | _ => walkRefs_spec s refs' p
      end
  end.

Definition walkAllRefs_spec (s : Storer) (p : objectWalker) : outcome * objectWalker :=
  match IterReferences s with
  | inl e => (Failed e, p)
  | inr refs => walkRefs_spec s refs p
  end.

(** ** Sample stores *)

Module Sample.

Definition c0 : Hash := hashN 10.
Definition c1 : Hash := hashN 11.
Definition c2 : Hash := hashN 12.
Definition t0 : Hash := hashN 20.
Definition t1 : Hash := hashN 21.
Definition b0 : Hash := hashN 30.

(** Two commits, the second on top of the first, with the same tree. *)
Definition sharedTree : Storer :=
  {| Objects :=
       <[c1 := Commit t0 []]> (<[c2 := Commit t0 [c1]]>
       (<[t0 := Tree [mkEntry "README.md" filemode.Regular b0]]>
       (<[b0 := Blob "This is a test repo"]> ∅)));
     References := [HashReference "refs/heads/a" c1; HashReference "refs/heads/b" c2];
     IterFailure := None |}.

(** A commit whose tree has its own parent commit as a submodule. *)
Definition selfSubmodule : Storer :=
  {| Objects :=
       <[c1 := Commit t1 [c0]]> (<[t1 := Tree [mkEntry "vendor" filemode.Submodule c0]]>
       (<[c0 := Commit t0 []]> (<[t0 := Tree []]> ∅)));
     References := [HashReference Main c1];
     IterFailure := None |}.

(** [HEAD] points at [main]; a tag that names a blob comes before
    [main] in the iteration. *)
Definition blobTagFirst : Storer :=
  {| Objects :=
       <[c1 := Commit t0 []]> (<[t0 := Tree []]> (<[b0 := Blob "key"]> ∅));
     References := [SymbolicReference HEAD Main;
                    HashReference "refs/tags/key" b0;
                    HashReference Main c1];
     IterFailure := None |}.

(** A branch whose tree holds a blob, and a tag that names the same
    blob, after the branch in the iteration. *)
Definition blobTagLast : Storer :=
  {| Objects :=
       <[c1 := Commit t0 []]>
       (<[t0 := Tree [mkEntry "key" filemode.Regular b0]]> (<[b0 := Blob "key"]> ∅));
     References := [HashReference Main c1; HashReference "refs/tags/key" b0];
     IterFailure := None |}.

End Sample.

(** ** The claims that fail, as they are worded *)

(** The hash of a submodule entry is never in the reachable set. *)
Definition submodule_hash_never_reachable : Prop :=
  forall (s : Storer) (t : Hash) (es : list TreeEntry) (e : TreeEntry),
    let r := walkAllRefs s newObjectWalker in
    t ∈ fetched r.2 -> Objects s !! t = Some (Tree es) -> e ∈ es ->
    Mode e = filemode.Submodule -> EntryHash e ∉ seen r.2.

(** [walkAllRefs] does what the specification's walk does. *)
Definition walkAllRefs_resolves_references : Prop :=
  forall (s : Storer) (p : objectWalker), walkAllRefs s p = walkAllRefs_spec s p.

(** Walking the hash of a blob always fails. *)
Definition blob_walk_always_fails : Prop :=
  forall (objects : gmap Hash Object) (h : Hash) (c : string) (p : objectWalker),
    objects !! h = Some (Blob c) ->
    (walkObjectTree objects h p).1 = Failed (ErrUnknownObject h).

(** ** Vocabulary for the request lines *)

(** [scansTo input lines rest]: the scanner reads the packets [lines] off
    [input], one after the other, and leaves [rest]. *)
Inductive scansTo : string -> list string -> string -> Prop :=
  | scans_nil (input : string) : scansTo input [] input
  | scans_cons (input line rest : string) (lines : list string) (rest' : string) :
      pktScan input = ScanLine line rest ->
      scansTo rest lines rest' ->
      scansTo input (line :: lines) rest'.

(** Every line is non-empty and parses; only the first may be a first
    line. *)
Fixpoint allAccepted (firstLine : bool) (lines : list string) : Prop :=
  match lines with
  | [] => True
  | l :: ls =>
      l <> "" /\ (exists r, parseRefUpdateLine firstLine l = inr r)
      /\ allAccepted false ls
  end.

(** A field that [parseHash] takes: hexadecimal for twenty bytes. *)
Definition hashField (f : string) : Prop :=
  exists h, hexDecodeString f = Some h /\ len h = 20.

(** After a successful pack decode the updates are applied. *)
Definition receive_pack_applies_after_decode : Prop :=
  forall (W : Type) (HW : Writer W) (gunzip : string -> option string)
         (UpdateObjectStorage : gmap Hash Object -> string -> gmap Hash Object * option error)
         (refNameOk : ReferenceName -> bool)
         (s : Storer) (r : Request) (bw : W) (body : string) (lines : RequestLines)
         (objs : gmap Hash Object),
    requestBody gunzip r = inr body ->
    readRefUpdates body = ReadOk lines ->
    UpdateObjectStorage (Objects s) (packData lines) = (objs, None) ->
    (serveGitReceivePack gunzip UpdateObjectStorage refNameOk s r bw).1.2
    = applyRefUpdates refNameOk (refUpdates lines) (withObjects objs s).

(** ** Sample requests *)

Module SampleRequest.

(** A packet as a client frames it: prefix and payload, no newline. *)
Definition frame (payload : string) : string :=
  sprintf04x (N.of_nat (4 + len payload)) +:+ payload.

Definition hex (h : Hash) : string := HashString h.

(** One update of [refs/heads/main] from [c0] to [c1], then the pack. *)
Definition push : Request :=
  {| ContentEncoding := "";
     Body := frame (hex Sample.c0 +:+ " " +:+ hex Sample.c1 +:+ " refs/heads/main"
                    +:+ String nul "report-status")
             +:+ "0000" +:+ "PACK" |}.

(** Two updates, the second of a name the store refuses. *)
Definition pushTwo : Request :=
  {| ContentEncoding := "";
     Body := frame (hex Sample.c0 +:+ " " +:+ hex Sample.c1 +:+ " refs/heads/main")
             +:+ frame (hex Sample.c0 +:+ " " +:+ hex Sample.c2 +:+ " refs/heads/..")
             +:+ "0000" +:+ "PACK" |}.

(** A second line whose first field is too short to be a hash. *)
Definition pushBadSecond : Request :=
  {| ContentEncoding := "";
     Body := frame (hex Sample.c0 +:+ " " +:+ hex Sample.c1 +:+ " refs/heads/main")
             +:+ frame ("abcd " +:+ hex Sample.c2 +:+ " refs/heads/dev")
             +:+ "0000" +:+ "PACK" |}.

Definition noGzip (_ : string) : option string := None.

Definition decodeOk (o : gmap Hash Object) (_ : string)
    : gmap Hash Object * option error := (o, None).

Definition decodeFails (o : gmap Hash Object) (_ : string)
    : gmap Hash Object * option error := (o, Some (ErrIO "malformed pack file")).

Definition anyName (_ : ReferenceName) : bool := true.

Definition noDots (name : ReferenceName) : bool :=
  negb (bool_decide (name = "refs/heads/..")).

Definition store : Storer :=
  {| Objects := Objects Sample.sharedTree;
     References := [HashReference Main Sample.c0; SymbolicReference HEAD Main];
     IterFailure := None |}.

End SampleRequest.

(** ** The reachable set *)

Section ReachableSet.
Variable objects : gmap Hash Object.

(** The hashes the walker can come to from [roots]: a root, or what the
    object of a reachable hash names (submodule entries apart). *)
Inductive Reach (roots : list Hash) : Hash -> Prop :=
  | Reach_root (h : Hash) : h ∈ roots -> Reach roots h
  | Reach_child (g h : Hash) :
      Reach roots g -> walkedChild objects g h -> Reach roots h.

(** The hash of a file entry is the hash of a blob (or of nothing
    stored): its object, if any, names no further hash. *)
Definition fileEntriesAreLeaves : Prop :=
  forall g h, fileEntryOf objects g h -> forall c, ~ walkedChild objects h c.

(** Whatever [p'] fetched and [p] had not, [p'] has seen all it names. *)
Definition closedSince (p p' : objectWalker) : Prop :=
  forall g, g ∈ fetched p' -> g ∉ fetched p ->
            forall c, walkedChild objects g c -> c ∈ seen p'.

(** The hash a failed walk stopped at: the last one fetched, which the
    error names, and which is missing from the store or a blob. *)
Definition failedAt (e : error) (p : objectWalker) : Prop :=
  exists x, last (fetched p) = Some x
            /\ ((e = ErrGettingObject x /\ objects !! x = None)
                \/ (e = ErrUnknownObject x /\ exists c, objects !! x = Some (Blob c))).

End ReachableSet.

(** ** Vocabulary for hashes in text and for the advertisement *)

(** Every byte of [s] is a hexadecimal digit, in either case. *)
Fixpoint allHexChars (s : string) : bool :=
  match s with
  | "" => true
  | String c s' => bool_decide (is_Some (fromHexChar c)) && allHexChars s'
  end.

(** The reference whose hash is advertised for [ref]: a hash reference
    itself, what a symbolic reference resolves to. *)
Definition resolvedFor (s : Storer) (ref : Reference) : option Reference :=
  match ref with
  | HashReference _ _ => Some ref
  | SymbolicReference _ _ => ResolveReference s (RefName ref)
  | InvalidReference _ => None
  end.

(** [advertises s it l]: [l] is the line of a reference of [it] that is
    not remote and resolves. *)
Definition advertises (s : Storer) (it : list Reference) (l : string) : Prop :=
  exists ref r, ref ∈ it /\ IsRemote (RefName ref) = false
                /\ resolvedFor s ref = Some r /\ l = refLine r (RefName ref).

(** The first advertised line is a line of [HEAD]. *)
Definition headFirst (refs : list string) : Prop :=
  exists r rest, refs = refLine r HEAD :: rest.

(** ** Reading a whole stream of packets *)

Inductive packet : Type :=
  | PktLine (payload : string)
  | PktFlush.

Inductive ScanAll : Type :=
  | ScannedAll (pkts : list packet)
  | ScanFailed
  | ScanOutOfFuel.

(** [for scanner.Scan() { ... scanner.Bytes() ... }] to the end of the
    input; every packet takes at least four bytes, so [fuel] above the
    length of the input is never used up. *)
Fixpoint scanAllF (fuel : nat) (input : string) : ScanAll :=
  match fuel with
  | 0 => ScanOutOfFuel
  | S fuel' =>
      let more pkt rest :=
        match scanAllF fuel' rest with
        | ScannedAll pkts => ScannedAll (pkt :: pkts)
        | r => r
        end in
      match pktScan input with
      | ScanEOF => ScannedAll []
      | ScanError => ScanFailed
      | ScanLine line rest => more (PktLine line) rest
      | ScanFlush rest => more PktFlush rest
      end
  end.

Definition scanAll (input : string) : ScanAll :=
  scanAllF (S (len input)) input.

(** The packet a write call puts on the wire. *)
Definition opPacket (op : writeOp) : packet :=
  match op with
  | OpWriteLine s => PktLine (s +:+ String newline "")
  | OpWriteZeroPacketLine => PktFlush
  end.

(** The line of a write call is short enough for a four-digit prefix. *)
Definition opFits (op : writeOp) : Prop :=
  match op with
  | OpWriteLine s => (N.of_nat (len s) <= 65530)%N
  | OpWriteZeroPacketLine => True
  end.

(** The updates of accepted lines, in the order of the lines. *)
Fixpoint updatesOf (firstLine : bool) (lines : list string) : list RefUpdate :=
  match lines with
  | [] => []
  | l :: ls =>
      match parseRefUpdateLine firstLine l with
      | inr (u, _) => u :: updatesOf false ls
      | inl _ => updatesOf false ls
      end
  end.

(** The bytes of a write call, and of a run of calls, when the writer
    takes them all. *)
Definition opBytes (op : writeOp) : string :=
  match op with
  | OpWriteLine s => pktLine s
  | OpWriteZeroPacketLine => "0000"
  end.

Definition wire (ops : list writeOp) : string :=
  foldr (fun op rest => opBytes op +:+ rest) "" ops.

(** The client capabilities after accepted lines: those of the first line
    if it has some. *)
Fixpoint capsOf (firstLine : bool) (caps : list string) (lines : list string)
    : list string :=
  match lines with
  | [] => caps
  | l :: ls =>
      match parseRefUpdateLine firstLine l with
      | inr (_, newCaps) => capsOf false (default caps newCaps) ls
      | inl _ => capsOf false caps ls
      end
  end.

(** No reference of the store has a NUL byte in its name. *)
Definition namesNulFree (s : Storer) : Prop :=
  forall r, r ∈ References s -> contains nul (RefName r) = false.

(** ** Sending a pack: [serveGitUploadPack] *)

(** The errors a handler returns: those of [error], and the two that
    upload-pack wraps. *)
Inductive requestError : Type :=
  | RequestError (e : error)
  | ErrParsingRequest                 (* "error parsing request: %w" *)
  | ErrWalkingRefs (cause : error).   (* "error walking refs: %w" *)

(** How a handler ends: with its returned error ([None] for [nil]), or
    (in the model only) out of fuel. *)
Inductive handled : Type :=
  | Returned (err : option requestError)
  | HandlerOutOfFuel.

Section UploadPack.
Context {W : Type} `{Writer W}.

(** The order in which [for h := range walker.seen] yields the hashes:
    Go leaves it open. *)
Variable mapOrder : gset Hash -> list Hash.

(** [packfile.NewEncoder(w, storer, false).Encode(objects, 0)]: what it
    writes, and whether it fails. *)
Variable Encode : gmap Hash Object -> list Hash -> W -> W * option error.

Definition serveGitUploadPack (s : Storer) (body : string) (bw : W) : handled * W :=
  match scanAll body with
  | ScanOutOfFuel => (HandlerOutOfFuel, bw)
  | ScanFailed => (Returned (Some ErrParsingRequest), bw)
  | ScannedAll _ =>
      match walkAllRefs s newObjectWalker with
      | (OutOfFuel, _) => (HandlerOutOfFuel, bw)
      | (Failed e, _) => (Returned (Some (ErrWalkingRefs e)), bw)
      | (Done, walker) =>
          let objects := mapOrder (seen walker) in
          let encoder := NewPacketLineWriter bw in
          let encoder := WriteLine "NAK" encoder in
          match Flush encoder with
          | (encoder, Some _) => (Returned None, w encoder)   (* too late *)
          | (encoder, None) =>
              let '(w', _) := Encode (Objects s) objects (w encoder) in
              (Returned None, w')
          end
      end
  end.

End UploadPack.

(** ** The dispatcher: [serveRequest] and [ServeHTTP] *)

(** [*http.Request], as far as the server reads it: the path, the
    [service] parameter of the query, the content encoding and the
    body. *)
Record HttpRequest : Type := mkHttpRequest {
  URLPath : string;
  Service : string;
  Req : Request
}.

(** What [http.Error] was called with, if it was. *)
Inductive httpError : Type :=
  | NoHttpError
  | HttpError (text : string) (code : nat).

Definition StatusNotFound : nat := 404.
Definition StatusInternalServerError : nat := 500.

(** [http.StatusText] of the two codes the server uses. *)
Definition StatusText (code : nat) : string :=
  if decide (code = 404) then "Not Found"
  else if decide (code = 500) then "Internal Server Error"
  else "".

Section Dispatcher.
Context {W : Type} `{Writer W}.
Variable gunzip : string -> option string.
Variable UpdateObjectStorage :
  gmap Hash Object -> string -> gmap Hash Object * option error.
Variable refNameOk : ReferenceName -> bool.
Variable mapOrder : gset Hash -> list Hash.
Variable Encode : gmap Hash Object -> list Hash -> W -> W * option error.

(** [serveRequest]: the handler's return, the [http.Error] it made
    itself, the store and the response writer. *)
Definition serveRequest (s : Storer) (r : HttpRequest) (bw : W)
    : handled * httpError * Storer * W :=
  if decide (URLPath r = "/info/refs") then
    let '(err, bw') := serveGitInfoRefs s (Service r) bw in
    (Returned (RequestError <$> err), NoHttpError, s, bw')
  else if decide (URLPath r = "/git-upload-pack") then
    let '(res, bw') := serveGitUploadPack mapOrder Encode s (Body (Req r)) bw in
    (res, NoHttpError, s, bw')
  else if decide (URLPath r = "/git-receive-pack") then
    match serveGitReceivePack gunzip UpdateObjectStorage refNameOk s (Req r) bw with
    | (Done, s', bw') => (Returned None, NoHttpError, s', bw')
    | (Failed e, s', bw') => (Returned (Some (RequestError e)), NoHttpError, s', bw')
    | (OutOfFuel, s', bw') => (HandlerOutOfFuel, NoHttpError, s', bw')
    end
  else
    (Returned None, HttpError (StatusText StatusNotFound) StatusNotFound, s, bw).

(** [ServeHTTP]: an error of [serveRequest] becomes a 500. *)
Definition ServeHTTP (s : Storer) (r : HttpRequest) (bw : W)
    : handled * httpError * Storer * W :=
  match serveRequest s r bw with
  | (Returned (Some e), _, s', bw') =>
      (Returned (Some e),
       HttpError (StatusText StatusInternalServerError) StatusInternalServerError,
       s', bw')
  | res => res
  end.

End Dispatcher.

(** * Properties *)

(** ** Byte strings *)

Lemma app_cons (c : ascii) (s t : string) : String c s +:+ t = String c (s +:+ t).
Proof. reflexivity. Qed.

Lemma app_nil_l (s : string) : "" +:+ s = s.
Proof. reflexivity. Qed.

Lemma app_empty_r (s : string) : s +:+ "" = s.
Proof. induction s as [|c s IH]; [done|]. by rewrite app_cons, IH. Qed.

Lemma app_assoc_s (a b c : string) : (a +:+ b) +:+ c = a +:+ b +:+ c.
Proof. induction a as [|x a IH]; [done|]. by rewrite !app_cons, IH. Qed.

Lemma len_app (a b : string) : len (a +:+ b) = len a + len b.
Proof.
  unfold len. induction a as [|x a IH]; [done|]. rewrite app_cons. cbn. by rewrite IH.
Qed.

Lemma take_app_len (a b : string) : take (len a) (a +:+ b) = a.
Proof.
  unfold len. induction a as [|x a IH]; [by destruct b|].
  rewrite app_cons. cbn. by rewrite IH.
Qed.

Lemma drop_app_len (a b : string) : drop (len a) (a +:+ b) = b.
Proof.
  unfold len. induction a as [|x a IH]; [by destruct b|].
  rewrite app_cons. cbn. by rewrite IH.
Qed.

Lemma len_take_drop (n : nat) (s : string) : len (take n s) + len (drop n s) = len s.
Proof.
  unfold len. revert s. induction n as [|n IH]; intros [|c s]; cbn; try done.
  by rewrite IH.
Qed.

Lemma checkRange_spec (k : nat) (m : N) (P : N -> bool) :
  checkRange k m P = true ->
  forall x : N, (m <= x < m + N.of_nat k)%N -> P x = true.
Proof.
  revert m. induction k as [|k IH]; intros m Hc x Hx; [lia|].
  cbn in Hc. apply andb_true_iff in Hc as [Hm Hk].
  destruct (decide (x = m)) as [->|Hne]; [done|].
  apply (IH (N.succ m)); [done|lia].
Qed.

(** ** Packet lines *)

Lemma prefix_reads_back_all :
  checkRange (N.to_nat 65536) 0%N prefixReadsBack = true.
Proof. vm_compute. reflexivity. Qed.

Lemma sprintf04x_small (m : N) :
  (m < 65536)%N ->
  len (sprintf04x m) = 4 /\ parseHex (sprintf04x m) 0%N = Some m.
Proof.
  intros Hm.
  pose proof (checkRange_spec _ _ _ prefix_reads_back_all m) as Hc.
  unfold prefixReadsBack in Hc.
  rewrite N2Nat.id in Hc.
  apply bool_decide_eq_true in Hc; [done|]. lia.
Qed.

(** On a writer that takes every byte, [WriteLine] leaves the prefix, the
    line and a newline. *)
Lemma pktLine_eq (s : string) :
  pktLine s = sprintf04x (N.of_nat (4 + len s + 1)) +:+ s +:+ String newline "".
Proof. unfold pktLine. cbn. by rewrite app_nil_l, app_assoc_s. Qed.

Lemma pktScan_pktLine (s rest : string) :
  (N.of_nat (len s) <= 65530)%N ->
  pktScan (pktLine s +:+ rest) = ScanLine (s +:+ String newline "") rest.
Proof.
  intros Hlen. rewrite pktLine_eq.
  set (n := N.of_nat (4 + len s + 1)).
  destruct (sprintf04x_small n) as [H4 Hp]; [lia|].
  set (pre := sprintf04x n) in *.
  assert (Hin : (pre +:+ s +:+ String newline "") +:+ rest
                = pre +:+ (s +:+ String newline "") +:+ rest).
  { by rewrite !app_assoc_s. }
  rewrite Hin. clear Hin.
  set (body := (s +:+ String newline "") +:+ rest).
  assert (Hbody : len (s +:+ String newline "") = len s + 1).
  { rewrite len_app. done. }
  unfold pktScan.
  rewrite decide_False by (rewrite len_app; lia).
  rewrite decide_False by (rewrite len_app; lia).
  replace (take 4 (pre +:+ body)) with pre
    by (rewrite <- H4; symmetry; apply take_app_len).
  replace (drop 4 (pre +:+ body)) with body
    by (rewrite <- H4; symmetry; apply drop_app_len).
  rewrite Hp.
  replace (N.to_nat n) with (len s + 5) by lia.
  rewrite decide_False by lia. rewrite decide_False by lia.
  replace (len s + 5 - 4) with (len (s +:+ String newline "")) by lia.
  unfold body.
  rewrite decide_False by (rewrite len_app; lia).
  by rewrite take_app_len, drop_app_len.
Qed.

(** C4, as amended.  For a line [s] of at most 65530 bytes, [WriteLine]
    writes a prefix of exactly four hexadecimal digits that spell
    [4 + len s + 1], then [s], then a newline; and decoding that encoding
    (four-digit prefix, then prefix-minus-four bytes) yields [s] followed
    by the newline, and leaves what follows the packet unread. *)
Theorem WriteLine_decodes_to_line_and_newline (s rest : string) :
  (N.of_nat (len s) <= 65530)%N ->
  pktLine s = sprintf04x (N.of_nat (4 + len s + 1)) +:+ s +:+ String newline ""
  /\ len (sprintf04x (N.of_nat (4 + len s + 1))) = 4
  /\ parseHex (sprintf04x (N.of_nat (4 + len s + 1))) 0%N = Some (N.of_nat (4 + len s + 1))
  /\ pktScan (pktLine s +:+ rest) = ScanLine (s +:+ String newline "") rest.
Proof.
  intros Hlen. split; [apply pktLine_eq|].
  destruct (sprintf04x_small (N.of_nat (4 + len s + 1))) as [H4 Hp]; [lia|].
  split; [done|]. split; [done|]. by apply pktScan_pktLine.
Qed.

Lemma WriteLine_decodes_to_line_and_newline_witness :
  (N.of_nat (len "NAK") <= 65530)%N
  /\ pktScan (pktLine "NAK" +:+ "0000") = ScanLine ("NAK" +:+ String newline "") "0000".
Proof.
  split; [by vm_compute|].
  apply (WriteLine_decodes_to_line_and_newline "NAK" "0000"). by vm_compute.
Defined.

(** The claim of C4 as it is worded fails twice: the decoded body of a
    short line carries the newline [WriteLine] added, and a line of 65531
    bytes gets a five-digit prefix, so that the decoder reads a wrong
    length. *)
Lemma WriteLine_roundtrip_counterexample :
  let long := lineOf (N.to_nat 65531) "a" in
  contains newline "NAK" = false
  /\ pktScan (pktLine "NAK") <> ScanLine "NAK" ""
  /\ contains newline long = false
  /\ len (sprintf04x (N.of_nat (4 + len long + 1))) = 5
  /\ (forall rest, pktScan (pktLine long) <> ScanLine long rest).
Proof.
  intros long.
  split; [reflexivity|]. split; [vm_compute; discriminate|].
  split; [vm_compute; reflexivity|]. split; [vm_compute; reflexivity|].
  intros rest Heq.
  assert (Hl : match pktScan (pktLine long) with
               | ScanLine p _ => N.of_nat (len p)
               | _ => 0%N
               end = 65531%N).
  { rewrite Heq. vm_compute. reflexivity. }
  vm_compute in Hl. discriminate Hl.
Qed.

(** ** The deferred error of the packet-line writer *)

Section PacketLineWriterFacts.
Context {W : Type} `{Writer W}.

Lemma writeAll_app (a b : list string) (bw : W) :
  writeAll (a ++ b) bw =
    match writeAll a bw with
    | (w', Some e) => (w', Some e)
    | (w', None) => writeAll b w'
    end.
Proof.
  revert bw. induction a as [|d a IH]; intros bw; [done|].
  cbn. destruct (Write d bw) as [w' [e|]]; [done|]. apply IH.
Qed.

Lemma runOp_recorded (op : writeOp) (e : error) (bw : W) :
  runOp (mkPLW (Some e) bw) op = mkPLW (Some e) bw.
Proof. by destruct op. Qed.

Lemma runOps_recorded (ops : list writeOp) (e : error) (bw : W) :
  runOps ops (mkPLW (Some e) bw) = mkPLW (Some e) bw.
Proof.
  induction ops as [|op ops IH]; [done|].
  unfold runOps in *. cbn [foldl]. by rewrite runOp_recorded.
Qed.

Lemma runOp_writeAll (op : writeOp) (bw : W) :
  runOp (mkPLW None bw) op =
    let '(w', r) := writeAll (opWrites op) bw in mkPLW r w'.
Proof.
  destruct op as [s|]; cbn; unfold writeOrRecord.
  - destruct (Write _ bw) as [w1 [e|]]; [done|].
    destruct (Write s w1) as [w2 [e|]]; [done|].
    by destruct (Write _ w2) as [w3 [e|]].
  - by destruct (Write _ bw) as [w1 [e|]].
Qed.

Lemma runOps_writeAll (ops : list writeOp) (bw : W) :
  runOps ops (mkPLW None bw) =
    let '(w', r) := writeAll (flat_map opWrites ops) bw in mkPLW r w'.
Proof.
  revert bw. induction ops as [|op ops IH]; intros bw; [done|].
  unfold runOps in *. cbn [foldl flat_map].
  rewrite runOp_writeAll, writeAll_app.
  destruct (writeAll (opWrites op) bw) as [w1 [e|]].
  - apply runOps_recorded.
  - apply IH.
Qed.

(** C5.  [WriteLine] and [WriteZeroPacketLine] return nothing but the
    writer.  Once an error [e] is recorded every such call leaves the
    writer as it is, and [Flush] returns [e].  Starting without an
    error, a run of calls performs the underlying writes in order up to
    the first one that fails and records exactly that error (none if all
    succeed); and with no error recorded [Flush] flushes the buffer and
    returns the result of that. *)
Theorem PacketLineWriter_defers_first_error
    (ops : list writeOp) (e : error) (bw : W) :
  runOps ops (mkPLW (Some e) bw) = mkPLW (Some e) bw
  /\ Flush (runOps ops (mkPLW (Some e) bw)) = (mkPLW (Some e) bw, Some e)
  /\ runOps ops (mkPLW None bw)
     = (let '(w', r) := writeAll (flat_map opWrites ops) bw in mkPLW r w')
  /\ Flush (mkPLW None bw)
     = (let '(w', r) := FlushW bw in (mkPLW None w', r)).
Proof.
  split; [apply runOps_recorded|].
  split; [by rewrite runOps_recorded|].
  split; [apply runOps_writeAll|done].
Qed.

End PacketLineWriterFacts.

(** A connection with room for six bytes: the prefix of the first line
    goes out, its body does not, and nothing is written afterwards. *)
Example writer_on_short_connection :
  let p := runOps [OpWriteLine "hello"; OpWriteZeroPacketLine; OpWriteLine "x"]
             (NewPacketLineWriter (mkConn "" 6)) in
  sent (w p) = "000a" /\ snd (Flush p) = Some (ErrIO "broken pipe").
Proof. by vm_compute. Qed.

(** ** The object walker: what a call adds *)

Lemma extends_refl (p : objectWalker) : extends p p.
Proof.
  split; [done|]. exists []. rewrite app_nil_r.
  split; [done|]. split; [constructor|]. intros g Hg. by apply elem_of_nil in Hg.
Qed.

Lemma extends_trans (p q r : objectWalker) :
  extends p q -> extends q r -> extends p r.
Proof.
  intros [Hs1 (l1 & Hf1 & Hn1 & Hl1)] [Hs2 (l2 & Hf2 & Hn2 & Hl2)].
  split; [by etrans|]. exists (l1 ++ l2).
  split; [by rewrite Hf2, Hf1, <- (assoc_L (++))|].
  split.
  - apply NoDup_app. split; [done|]. split; [|done].
    intros g Hg1 Hg2. destruct (Hl1 g Hg1), (Hl2 g Hg2). done.
  - intros g [Hg|Hg]%elem_of_app.
    + destruct (Hl1 g Hg) as [Hnp Hq]. split; [done|]. by apply Hs2.
    + destruct (Hl2 g Hg) as [Hnq Hr]. split; [|done].
      intros Hp. by apply Hnq, Hs1.
Qed.

Lemma extends_add (h : Hash) (p : objectWalker) : extends p (add h p).
Proof.
  split; [cbn; set_solver|]. exists []. cbn. rewrite app_nil_r.
  split; [done|]. split; [constructor|]. intros g Hg. by apply elem_of_nil in Hg.
Qed.

Section WalkerFacts.
Variable objects : gmap Hash Object.

Lemma extends_entered (h : Hash) (p : objectWalker) :
  h ∉ seen p -> extends p (entered objects h p).
Proof.
  intros Hh. split; [cbn; set_solver|]. exists [h].
  split; [done|]. split; [apply NoDup_singleton|].
  intros g ->%list_elem_of_singleton. split; [done|]. cbn. set_solver.
Qed.

Lemma walkHashes_extends (walk : walkFn) (hs : list Hash) (p : objectWalker) :
  respects walk -> extends p (walkHashes walk hs p).2.
Proof.
  intros Hw. revert p. induction hs as [|h hs IH]; intros p; [apply extends_refl|].
  cbn. pose proof (Hw h p) as He.
  destruct (walk h p) as [[| |] p']; cbn in *; [|done..].
  eapply extends_trans; [exact He|apply IH].
Qed.

Lemma walkEntries_extends (walk : walkFn) (es : list TreeEntry) (p : objectWalker) :
  respects walk -> extends p (walkEntries walk es p).2.
Proof.
  intros Hw. revert p. induction es as [|e es IH]; intros p; [apply extends_refl|].
  cbn. repeat case_decide.
  - eapply extends_trans; [apply extends_add|apply IH].
  - apply IH.
  - pose proof (Hw (EntryHash e) p) as He.
    destruct (walk (EntryHash e) p) as [[| |] p']; cbn in *; [|done..].
    eapply extends_trans; [exact He|apply IH].
Qed.

Lemma isSeen_true (h : Hash) (p : objectWalker) : isSeen h p = true <-> h ∈ seen p.
Proof. unfold isSeen. apply bool_decide_eq_true. Qed.

Lemma isSeen_false (h : Hash) (p : objectWalker) : isSeen h p = false <-> h ∉ seen p.
Proof. unfold isSeen. apply bool_decide_eq_false. Qed.

(** One unfolding of the walker, in the shape of the Go function. *)
Lemma walkObjectTreeF_S (fuel : nat) (h : Hash) (p : objectWalker) :
  walkObjectTreeF objects (S fuel) h p =
    if isSeen h p then (Done, p)
    else match objects !! h with
         | None => (Failed (ErrGettingObject h), entered objects h p)
         | Some (Commit t ps) =>
             match walkObjectTreeF objects fuel t (entered objects h p) with
             | (Done, p') => walkHashes (walkObjectTreeF objects fuel) ps p'
             | r => r
             end
         | Some (Tree es) => walkEntries (walkObjectTreeF objects fuel) es (entered objects h p)
         | Some (Tag t) => walkObjectTreeF objects fuel t (entered objects h p)
         | Some (Blob _) => (Failed (ErrUnknownObject h), entered objects h p)
         end.
Proof. reflexivity. Qed.

Lemma walkObjectTreeF_extends (fuel : nat) : respects (walkObjectTreeF objects fuel).
Proof.
  induction fuel as [|fuel IH]; intros h p; [apply extends_refl|].
  rewrite walkObjectTreeF_S.
  destruct (isSeen h p) eqn:Hs; [apply extends_refl|].
  apply isSeen_false in Hs. pose proof (extends_entered h p Hs) as He.
  destruct (objects !! h) as [[t ps|es|t|c]|]; cbn [snd]; try done.
  - pose proof (IH t (entered objects h p)) as Ht.
    destruct (walkObjectTreeF objects fuel t (entered objects h p)) as [[| |] p'];
      cbn in Ht; try (eapply extends_trans; [exact He|exact Ht]).
    eapply extends_trans; [exact He|]. eapply extends_trans; [exact Ht|].
    by apply walkHashes_extends.
  - eapply extends_trans; [exact He|]. by apply walkEntries_extends.
  - eapply extends_trans; [exact He|]. apply IH.
Qed.

Lemma walkObjectTree_extends : respects (walkObjectTree objects).
Proof. intros h p. apply walkObjectTreeF_extends. Qed.

Lemma walkRefs_extends (refs : list Reference) (p : objectWalker) :
  extends p (walkRefs objects refs p).2.
Proof.
  revert p. induction refs as [|[n|n h|n t] refs IH]; intros p; cbn [walkRefs];
    [apply extends_refl|apply IH| |apply IH].
  pose proof (walkObjectTree_extends h p) as He.
  destruct (walkObjectTree objects h p) as [[| |] p']; cbn in *; [|done..].
  eapply extends_trans; [exact He|apply IH].
Qed.

Lemma extends_tidy (p p' : objectWalker) : extends p p' -> tidy p -> tidy p'.
Proof.
  intros [Hs (l & Hf & Hn & Hl)] [Hnd Hin]. split.
  - rewrite Hf. apply NoDup_app. split; [done|]. split; [|done].
    intros g Hg1 Hg2. destruct (Hl g Hg2) as [Hns _]. by apply Hns, Hin.
  - intros g. rewrite Hf. intros [Hg|Hg]%elem_of_app.
    + by apply Hs, Hin.
    + by destruct (Hl g Hg).
Qed.

Lemma tidy_new : tidy newObjectWalker.
Proof. split; [constructor|]. intros g Hg. by apply elem_of_nil in Hg. Qed.

End WalkerFacts.

(** ** The object walker: the recursion ends *)

Section WalkerTermination.
Variable objects : gmap Hash Object.

Lemma entered_seen_iff (h x : Hash) (p : objectWalker) :
  x ∈ seen (entered objects h p) <-> x = h \/ x ∈ seen p.
Proof. cbn. by rewrite elem_of_union, elem_of_singleton. Qed.

Local Abbreviation walkF := (walkObjectTreeF objects).

Lemma unseen_extends (p p' : objectWalker) :
  extends p p' -> unseen objects p' <= unseen objects p.
Proof.
  intros [Hs _]. unfold unseen. apply (subseteq_size (C := gset string)).
  intros x [Hd Hn]%elem_of_difference. apply elem_of_difference.
  split; [done|]. intros Hx. by apply Hn, Hs.
Qed.

Lemma unseen_entered (h : Hash) (p : objectWalker) :
  h ∉ seen p -> is_Some (objects !! h) ->
  unseen objects (entered objects h p) < unseen objects p.
Proof.
  intros Hh Hobj. unfold unseen. apply (subset_size (C := gset string)).
  split.
  - intros x [Hd Hn]%elem_of_difference. apply elem_of_difference.
    split; [done|]. intros Hx. apply Hn, entered_seen_iff. by right.
  - intros Hsub. apply elem_of_dom in Hobj.
    assert (Hin : h ∈ dom objects ∖ seen p) by (by apply elem_of_difference).
    apply Hsub, elem_of_difference in Hin as [_ Hn].
    apply Hn, entered_seen_iff. by left.
Qed.

Lemma unseen_le_size (p : objectWalker) : unseen objects p <= size objects.
Proof.
  unfold unseen. rewrite <- (size_dom (D := gset string) objects).
  apply (subseteq_size (C := gset string)).
  by intros x [Hd _]%elem_of_difference.
Qed.

Lemma walkHashes_total (walk : walkFn) (k : nat) (hs : list Hash) (p : objectWalker) :
  respects walk ->
  (forall h q, unseen objects q < k -> (walk h q).1 <> OutOfFuel) ->
  unseen objects p < k -> (walkHashes walk hs p).1 <> OutOfFuel.
Proof.
  intros Hr Hw. revert p. induction hs as [|h hs IH]; intros p Hp; [done|].
  cbn [walkHashes]. pose proof (Hr h p) as He. pose proof (Hw h p Hp) as Ho.
  destruct (walk h p) as [[| |] p']; cbn in *; [|done..].
  apply IH. apply unseen_extends in He. lia.
Qed.

Lemma walkEntries_total (walk : walkFn) (k : nat) (es : list TreeEntry)
    (p : objectWalker) :
  respects walk ->
  (forall h q, unseen objects q < k -> (walk h q).1 <> OutOfFuel) ->
  unseen objects p < k -> (walkEntries walk es p).1 <> OutOfFuel.
Proof.
  intros Hr Hw. revert p. induction es as [|e es IH]; intros p Hp; [done|].
  cbn [walkEntries]. repeat case_decide.
  - apply IH. pose proof (unseen_extends _ _ (extends_add (EntryHash e) p)). lia.
  - by apply IH.
  - pose proof (Hr (EntryHash e) p) as He. pose proof (Hw (EntryHash e) p Hp) as Ho.
    destruct (walk (EntryHash e) p) as [[| |] p']; cbn in *; [|done..].
    apply IH. apply unseen_extends in He. lia.
Qed.

(** Fuel above the number of unseen objects is enough. *)
Lemma walkObjectTreeF_total (fuel : nat) (h : Hash) (p : objectWalker) :
  unseen objects p < fuel -> (walkF fuel h p).1 <> OutOfFuel.
Proof.
  revert h p. induction fuel as [|fuel IH]; intros h p Hp; [lia|].
  rewrite walkObjectTreeF_S.
  destruct (isSeen h p) eqn:Hs; [done|]. apply isSeen_false in Hs.
  destruct (objects !! h) as [obj|] eqn:Hobj; [|done].
  assert (Hlt : unseen objects (entered objects h p) < fuel).
  { pose proof (unseen_entered h p Hs (mk_is_Some _ _ Hobj)). lia. }
  destruct obj as [t ps|es|t|c]; [| | |done].
  - pose proof (IH t _ Hlt) as Ho.
    pose proof (walkObjectTreeF_extends objects fuel t (entered objects h p)) as He.
    destruct (walkF fuel t (entered objects h p)) as [[| |] p']; cbn in *; [|done..].
    apply (walkHashes_total _ fuel); [apply walkObjectTreeF_extends|exact IH|].
    apply unseen_extends in He. lia.
  - apply (walkEntries_total _ fuel); [apply walkObjectTreeF_extends|exact IH|done].
  - by apply IH.
Qed.

(** [walkObjectTree] always returns: with [nil] or with an error. *)
Lemma walkObjectTree_total (h : Hash) (p : objectWalker) :
  (walkObjectTree objects h p).1 <> OutOfFuel.
Proof.
  apply walkObjectTreeF_total. pose proof (unseen_le_size p). lia.
Qed.

Lemma walkRefs_total (refs : list Reference) (p : objectWalker) :
  (walkRefs objects refs p).1 <> OutOfFuel.
Proof.
  revert p. induction refs as [|[n|n h|n t] refs IH]; intros p; cbn [walkRefs];
    [done|apply IH| |apply IH].
  pose proof (walkObjectTree_total h p) as Ho.
  destruct (walkObjectTree objects h p) as [[| |] p']; cbn in *; [apply IH|done..].
Qed.

(** *** More fuel changes nothing *)

Lemma walkHashes_agree (walk1 walk2 : walkFn) (hs : list Hash) (p : objectWalker) :
  respects walk1 ->
  agree walk1 walk2 (extends p) ->
  walkHashes walk2 hs p = walkHashes walk1 hs p.
Proof.
  intros Hr. revert p. induction hs as [|h hs IH]; intros p Ha; [done|].
  cbn [walkHashes]. rewrite (Ha h p (extends_refl p)).
  pose proof (Hr h p) as He.
  destruct (walk1 h p) as [[| |] p']; cbn in *; [|done..].
  apply IH. intros h' q Hq. apply Ha. by eapply extends_trans.
Qed.

Lemma walkEntries_agree (walk1 walk2 : walkFn) (es : list TreeEntry)
    (p : objectWalker) :
  respects walk1 ->
  agree walk1 walk2 (extends p) ->
  walkEntries walk2 es p = walkEntries walk1 es p.
Proof.
  intros Hr. revert p. induction es as [|e es IH]; intros p Ha; [done|].
  cbn [walkEntries]. repeat case_decide.
  - apply IH. intros h' q Hq. apply Ha.
    eapply extends_trans; [apply extends_add|done].
  - by apply IH.
  - rewrite (Ha (EntryHash e) p (extends_refl p)).
    pose proof (Hr (EntryHash e) p) as He.
    destruct (walk1 (EntryHash e) p) as [[| |] p']; cbn in *; [|done..].
    apply IH. intros h' q Hq. apply Ha. by eapply extends_trans.
Qed.

Lemma walkObjectTreeF_step (fuel : nat) (h : Hash) (p : objectWalker) :
  unseen objects p < fuel -> walkF (S fuel) h p = walkF fuel h p.
Proof.
  revert h p. induction fuel as [|fuel IH]; intros h p Hp; [lia|].
  rewrite (walkObjectTreeF_S objects (S fuel)), (walkObjectTreeF_S objects fuel).
  destruct (isSeen h p) eqn:Hs; [done|]. apply isSeen_false in Hs.
  destruct (objects !! h) as [obj|] eqn:Hobj; [|done].
  assert (Hlt : unseen objects (entered objects h p) < fuel).
  { pose proof (unseen_entered h p Hs (mk_is_Some _ _ Hobj)). lia. }
  assert (Hag : agree (walkF fuel) (walkF (S fuel)) (extends (entered objects h p))).
  { intros h' q Hq. apply IH. apply unseen_extends in Hq. lia. }
  destruct obj as [t ps|es|t|c]; [| | |done].
  - rewrite (IH t _ Hlt).
    pose proof (walkObjectTreeF_extends objects fuel t (entered objects h p)) as He.
    destruct (walkF fuel t (entered objects h p)) as [[| |] p']; cbn in *; [|done..].
    apply walkHashes_agree; [apply walkObjectTreeF_extends|].
    intros h' q Hq. apply Hag. by eapply extends_trans.
  - apply walkEntries_agree; [apply walkObjectTreeF_extends|done].
  - by apply IH.
Qed.

Lemma walkObjectTreeF_enough (fuel : nat) (h : Hash) (p : objectWalker) :
  unseen objects p < fuel -> walkF fuel h p = walkObjectTree objects h p.
Proof.
  intros Hp. unfold walkObjectTree.
  assert (Hup : forall k, walkF (k + S (unseen objects p)) h p = walkF (S (unseen objects p)) h p).
  { induction k as [|k IHk]; [done|].
    cbn [Nat.add]. rewrite walkObjectTreeF_step by lia. exact IHk. }
  pose proof (unseen_le_size p) as Hle.
  replace fuel with ((fuel - S (unseen objects p)) + S (unseen objects p)) by lia.
  replace (S (size objects)) with ((size objects - unseen objects p) + S (unseen objects p)) by lia.
  by rewrite !Hup.
Qed.

(** The Go function, read off the model: one equation for
    [walkObjectTree] itself, with no fuel in sight. *)
Lemma walkObjectTree_unfold (h : Hash) (p : objectWalker) :
  walkObjectTree objects h p =
    if isSeen h p then (Done, p)
    else match objects !! h with
         | None => (Failed (ErrGettingObject h), entered objects h p)
         | Some (Commit t ps) =>
             match walkObjectTree objects t (entered objects h p) with
             | (Done, p') => walkHashes (walkObjectTree objects) ps p'
             | r => r
             end
         | Some (Tree es) =>
             walkEntries (walkObjectTree objects) es (entered objects h p)
         | Some (Tag t) => walkObjectTree objects t (entered objects h p)
         | Some (Blob _) => (Failed (ErrUnknownObject h), entered objects h p)
         end.
Proof.
  unfold walkObjectTree at 1. rewrite walkObjectTreeF_S.
  destruct (isSeen h p) eqn:Hs; [done|]. apply isSeen_false in Hs.
  destruct (objects !! h) as [obj|] eqn:Hobj; [|done].
  assert (Hlt : unseen objects (entered objects h p) < size objects).
  { pose proof (unseen_entered h p Hs (mk_is_Some _ _ Hobj)).
    pose proof (unseen_le_size p). lia. }
  assert (Hag : agree (walkF (size objects)) (walkObjectTree objects)
                  (extends (entered objects h p))).
  { intros h' q Hq. symmetry. apply walkObjectTreeF_enough.
    apply unseen_extends in Hq. lia. }
  destruct obj as [t ps|es|t|c]; [| | |done].
  - rewrite (walkObjectTreeF_enough _ t _ Hlt).
    pose proof (walkObjectTree_extends objects t (entered objects h p)) as He.
    destruct (walkObjectTree objects t (entered objects h p)) as [[| |] p'];
      cbn in He; [|done..].
    symmetry. apply walkHashes_agree; [apply walkObjectTreeF_extends|].
    intros h' q Hq. apply Hag. by eapply extends_trans.
  - symmetry. apply walkEntries_agree; [apply walkObjectTreeF_extends|done].
  - by apply walkObjectTreeF_enough.
Qed.

End WalkerTermination.

(** ** The object walker: why a hash is in the seen-set *)

Section WalkerProvenance.
Variable objects : gmap Hash Object.

Local Abbreviation walkT := (walkObjectTree objects).

Lemma fetched_extends (p q : objectWalker) (g : Hash) :
  extends p q -> g ∈ fetched p -> g ∈ fetched q.
Proof. intros [_ (l & -> & _)] Hg. apply elem_of_app. by left. Qed.

Lemma seen_extends (p q : objectWalker) (x : Hash) :
  extends p q -> x ∈ seen p -> x ∈ seen q.
Proof. intros [Hs _] Hx. by apply Hs. Qed.

Lemma entered_fetched (h : Hash) (p : objectWalker) : h ∈ fetched (entered objects h p).
Proof. cbn. apply elem_of_app. right. by apply list_elem_of_singleton. Qed.

Lemma entered_seen (h x : Hash) (p : objectWalker) :
  x ∈ seen (entered objects h p) <-> x = h \/ x ∈ seen p.
Proof. apply entered_seen_iff. Qed.

Lemma entered_fetched_iff (h g : Hash) (p : objectWalker) :
  g ∈ fetched (entered objects h p) <-> g ∈ fetched p \/ g = h.
Proof. cbn. rewrite elem_of_app, list_elem_of_singleton. done. Qed.

(** A call that gets past the seen-check fetches its hash. *)
Lemma walkObjectTree_enters (h : Hash) (p : objectWalker) :
  h ∉ seen p -> extends (entered objects h p) (walkT h p).2.
Proof.
  intros Hs. rewrite walkObjectTree_unfold.
  apply isSeen_false in Hs. rewrite Hs.
  destruct (objects !! h) as [[t ps|es|t|c]|]; cbn [snd]; try apply extends_refl.
  - pose proof (walkObjectTree_extends objects t (entered objects h p)) as Ht.
    destruct (walkT t (entered objects h p)) as [[| |] p']; cbn in Ht; try done.
    eapply extends_trans; [exact Ht|].
    apply walkHashes_extends, walkObjectTree_extends.
  - apply walkEntries_extends, walkObjectTree_extends.
  - apply walkObjectTree_extends.
Qed.

(** *** Roots are seen after a walk that returned [nil] *)

Lemma walkObjectTree_Done_seen (h : Hash) (p p' : objectWalker) :
  walkT h p = (Done, p') -> h ∈ seen p'.
Proof.
  intros Hw. destruct (decide (h ∈ seen p)) as [Hs|Hs].
  - pose proof (walkObjectTree_extends objects h p) as He. rewrite Hw in He.
    by eapply seen_extends.
  - pose proof (walkObjectTree_enters h p Hs) as He. rewrite Hw in He.
    eapply seen_extends; [exact He|]. apply entered_seen. by left.
Qed.

Lemma walkHashes_Done_seen (hs : list Hash) (p p' : objectWalker) :
  walkHashes walkT hs p = (Done, p') -> forall h, h ∈ hs -> h ∈ seen p'.
Proof.
  revert p. induction hs as [|h0 hs IH]; intros p Hw h Hin;
    [by apply elem_of_nil in Hin|].
  cbn [walkHashes] in Hw.
  destruct (walkT h0 p) as [[| |] p1] eqn:H0; try done.
  apply elem_of_cons in Hin as [->|Hin]; [|by eapply IH].
  pose proof (walkHashes_extends walkT hs p1 (walkObjectTree_extends objects)) as He.
  rewrite Hw in He. eapply seen_extends; [exact He|].
  by eapply walkObjectTree_Done_seen.
Qed.

Lemma walkRefs_hashes (refs : list Reference) (p : objectWalker) :
  walkRefs objects refs p = walkHashes walkT (hashRefTargets refs) p.
Proof.
  unfold hashRefTargets.
  revert p. induction refs as [|[n|n h|n t] refs IH]; intros p;
    cbn [walkRefs omap list_omap walkHashes]; try done.
  destruct (walkT h p) as [[| |] p']; [apply IH|done..].
Qed.

(** *** Every seen hash is a root or named by a fetched object *)

Lemma justified_extends (roots : list Hash) (p q : objectWalker) (h : Hash) :
  extends p q -> justified objects roots p h -> justified objects roots q h.
Proof.
  intros He [Hr|(g & Hg & Hc)]; [by left|].
  right. exists g. split; [by eapply fetched_extends|done].
Qed.

Lemma walkHashes_accounted (roots : list Hash) (walk : walkFn) (hs : list Hash)
    (p : objectWalker) :
  respects walk -> keepsAccount objects roots walk ->
  accounted objects roots p ->
  (forall h, h ∈ hs -> justified objects roots p h) ->
  accounted objects roots (walkHashes walk hs p).2.
Proof.
  intros Hr Hk. revert p. induction hs as [|h hs IH]; intros p Hp Hj; [done|].
  cbn [walkHashes].
  pose proof (Hr h p) as He.
  pose proof (Hk h p Hp (Hj h (list_elem_of_here _ _))) as Ha.
  destruct (walk h p) as [[| |] p']; cbn in *; [|done..].
  apply IH; [done|]. intros h' Hh'.
  eapply justified_extends; [exact He|]. apply Hj. by apply list_elem_of_further.
Qed.

Lemma accounted_add (roots : list Hash) (h : Hash) (p : objectWalker) :
  accounted objects roots p -> justified objects roots p h ->
  accounted objects roots (add h p).
Proof.
  intros Hp Hj x Hx. cbn in Hx.
  apply elem_of_union in Hx as [->%elem_of_singleton|Hx]; [done|by apply Hp].
Qed.

Lemma walkEntries_accounted (roots : list Hash) (walk : walkFn)
    (es : list TreeEntry) (p : objectWalker) :
  respects walk -> keepsAccount objects roots walk ->
  accounted objects roots p ->
  (forall e, e ∈ es -> Mode e <> filemode.Submodule ->
             justified objects roots p (EntryHash e)) ->
  accounted objects roots (walkEntries walk es p).2.
Proof.
  intros Hr Hk. revert p. induction es as [|e es IH]; intros p Hp Hj; [done|].
  cbn [walkEntries].
  assert (Hrest : forall q, extends p q ->
            forall e', e' ∈ es -> Mode e' <> filemode.Submodule ->
                       justified objects roots q (EntryHash e')).
  { intros q Hq e' He' Hm. eapply justified_extends; [exact Hq|].
    apply Hj; [by apply list_elem_of_further|done]. }
  case_decide as Hfile; [|case_decide as Hsub].
  - assert (Hm : Mode e <> filemode.Submodule).
    { intros Heq. rewrite Heq in Hfile. by destruct Hfile as [|[|]]. }
    apply IH.
    + apply accounted_add; [done|]. apply Hj; [apply list_elem_of_here|done].
    + apply Hrest, extends_add.
  - apply IH; [done|]. apply Hrest, extends_refl.
  - pose proof (Hr (EntryHash e) p) as He.
    pose proof (Hk (EntryHash e) p Hp (Hj e (list_elem_of_here _ _) Hsub)) as Ha.
    destruct (walk (EntryHash e) p) as [[| |] p']; cbn in *; [|done..].
    apply IH; [done|]. by apply Hrest.
Qed.

Lemma accounted_entered (roots : list Hash) (h : Hash) (p : objectWalker) :
  accounted objects roots p -> justified objects roots p h ->
  accounted objects roots (entered objects h p).
Proof.
  intros Hp Hj x Hx. apply entered_seen in Hx.
  assert (He : forall y, justified objects roots p y ->
                         justified objects roots (entered objects h p) y).
  { intros y [Hr|(g & Hg & Hc)]; [by left|]. right. exists g.
    split; [|done]. apply entered_fetched_iff. by left. }
  destruct Hx as [->|Hx]; apply He; [done|by apply Hp].
Qed.

Lemma child_justified (roots : list Hash) (h x : Hash) (p : objectWalker) :
  walkedChild objects h x -> justified objects roots (entered objects h p) x.
Proof. intros Hc. right. exists h. split; [apply entered_fetched|done]. Qed.

Lemma walkObjectTreeF_accounted (roots : list Hash) (fuel : nat) :
  keepsAccount objects roots (walkObjectTreeF objects fuel).
Proof.
  induction fuel as [|fuel IH]; intros h p Hp Hj; [done|].
  rewrite walkObjectTreeF_S.
  destruct (isSeen h p) eqn:Hs; [done|].
  pose proof (accounted_entered roots h p Hp Hj) as Hent.
  destruct (objects !! h) as [[t ps|es|t|c]|] eqn:Hobj; cbn [snd]; try done.
  - assert (Ht : justified objects roots (entered objects h p) t).
    { apply child_justified. unfold walkedChild. rewrite Hobj. by left. }
    pose proof (IH t _ Hent Ht) as Ha.
    pose proof (walkObjectTreeF_extends objects fuel t (entered objects h p)) as He.
    destruct (walkObjectTreeF objects fuel t (entered objects h p)) as [[| |] p'];
      cbn in *; [|done..].
    apply walkHashes_accounted; [apply walkObjectTreeF_extends|done..|].
    intros h' Hh'. eapply justified_extends; [exact He|].
    apply child_justified. unfold walkedChild. rewrite Hobj. by right.
  - apply walkEntries_accounted; [apply walkObjectTreeF_extends|done..|].
    intros e He Hm. apply child_justified. unfold walkedChild. rewrite Hobj.
    by exists e.
  - apply IH; [done|]. apply child_justified. unfold walkedChild. by rewrite Hobj.
Qed.

Lemma walkRefs_accounted (refs : list Reference) :
  accounted objects (hashRefTargets refs) (walkRefs objects refs newObjectWalker).2.
Proof.
  rewrite walkRefs_hashes.
  apply walkHashes_accounted.
  - apply walkObjectTree_extends.
  - intros h q. apply walkObjectTreeF_accounted.
  - intros x Hx. cbn in Hx. set_solver.
  - intros h Hh. by left.
Qed.

End WalkerProvenance.

(** ** The object walker: blobs come in through tree entries *)

Section WalkerBlobs.
Variable objects : gmap Hash Object.

Local Abbreviation walkT := (walkObjectTree objects).

Lemma walkHashes_marked (walk : walkFn) (hs : list Hash) (p : objectWalker) :
  keepsMarks objects walk -> markedByEntry objects p ->
  markedByEntry objects (walkHashes walk hs p).2.
Proof.
  intros Hk. revert p. induction hs as [|h hs IH]; intros p Hp; [done|].
  cbn [walkHashes]. pose proof (Hk h p Hp) as Hm.
  destruct (walk h p) as [[| |] p']; cbn in *; [by apply IH|done..].
Qed.

Lemma walkEntries_marked (walk : walkFn) (g : Hash) (all es : list TreeEntry)
    (p : objectWalker) :
  respects walk -> keepsMarks objects walk ->
  objects !! g = Some (Tree all) -> (forall e, e ∈ es -> e ∈ all) ->
  g ∈ fetched p -> markedByEntry objects p ->
  markedByEntry objects (walkEntries walk es p).2.
Proof.
  intros Hr Hk Hg. revert p. induction es as [|e es IH]; intros p Hsub Hf Hp; [done|].
  cbn [walkEntries].
  assert (Hsub' : forall e', e' ∈ es -> e' ∈ all).
  { intros e' He'. by apply Hsub, list_elem_of_further. }
  case_decide as Hfile; [|case_decide as Hm].
  - apply IH; [done..|]. intros x Hx. cbn in Hx. cbn [fetched add].
    apply elem_of_union in Hx as [->%elem_of_singleton|Hx]; [|by apply Hp].
    right. exists g. split; [done|]. exists all, e.
    split; [done|]. split; [apply Hsub, list_elem_of_here|done].
  - by apply IH.
  - pose proof (Hr (EntryHash e) p) as He. pose proof (Hk (EntryHash e) p Hp) as Hm'.
    destruct (walk (EntryHash e) p) as [[| |] p']; cbn in *; [|done..].
    apply IH; [done| |done]. by eapply fetched_extends.
Qed.

Lemma marked_entered (h : Hash) (p : objectWalker) :
  markedByEntry objects p -> markedByEntry objects (entered objects h p).
Proof.
  intros Hp x Hx. apply entered_seen in Hx as [->|Hx].
  - left. apply entered_fetched.
  - destruct (Hp x Hx) as [Hf|(g & Hg & Hfe)].
    + left. apply entered_fetched_iff. by left.
    + right. exists g. split; [|done]. apply entered_fetched_iff. by left.
Qed.

Lemma walkObjectTreeF_marked (fuel : nat) : keepsMarks objects (walkObjectTreeF objects fuel).
Proof.
  induction fuel as [|fuel IH]; intros h p Hp; [done|].
  rewrite walkObjectTreeF_S.
  destruct (isSeen h p) eqn:Hs; [done|].
  pose proof (marked_entered h p Hp) as Hent.
  destruct (objects !! h) as [[t ps|es|t|c]|] eqn:Hobj; cbn [snd]; try done.
  - pose proof (IH t _ Hent) as Hm.
    destruct (walkObjectTreeF objects fuel t (entered objects h p)) as [[| |] p'];
      cbn in *; [|done..].
    by apply walkHashes_marked.
  - eapply walkEntries_marked;
      [apply walkObjectTreeF_extends|done|exact Hobj|done|apply entered_fetched|done].
  - by apply IH.
Qed.

Lemma walkRefs_marked (refs : list Reference) :
  markedByEntry objects (walkRefs objects refs newObjectWalker).2.
Proof.
  rewrite walkRefs_hashes. apply walkHashes_marked.
  - intros h q. apply walkObjectTreeF_marked.
  - intros x Hx. cbn in Hx. set_solver.
Qed.

(** *** A walk that returned [nil] fetched no blob *)

Lemma walkHashes_walkable (walk : walkFn) (hs : list Hash) (p p' : objectWalker) :
  keepsWalkable objects walk -> walkHashes walk hs p = (Done, p') ->
  fetchedWalkable objects p -> fetchedWalkable objects p'.
Proof.
  intros Hk. revert p. induction hs as [|h hs IH]; intros p Hw Hp;
    cbn [walkHashes] in Hw; [by inversion Hw; subst|].
  destruct (walk h p) as [[| |] p1] eqn:H1; try done.
  eapply IH; [exact Hw|]. by eapply Hk.
Qed.

Lemma walkEntries_walkable (walk : walkFn) (es : list TreeEntry)
    (p p' : objectWalker) :
  keepsWalkable objects walk -> walkEntries walk es p = (Done, p') ->
  fetchedWalkable objects p -> fetchedWalkable objects p'.
Proof.
  intros Hk. revert p. induction es as [|e es IH]; intros p Hw Hp;
    cbn [walkEntries] in Hw; [by inversion Hw; subst|].
  case_decide as Hfile; [|case_decide as Hm].
  - by eapply IH.
  - by eapply IH.
  - destruct (walk (EntryHash e) p) as [[| |] p1] eqn:H1; try done.
    eapply IH; [exact Hw|]. by eapply Hk.
Qed.

Lemma walkable_entered (h : Hash) (o : Object) (p : objectWalker) :
  objects !! h = Some o -> (forall c, o <> Blob c) ->
  fetchedWalkable objects p -> fetchedWalkable objects (entered objects h p).
Proof.
  intros Hobj Hnb Hp g Hg. apply entered_fetched_iff in Hg as [Hg| ->];
    [by apply Hp|by exists o].
Qed.

Lemma walkObjectTreeF_walkable (fuel : nat) :
  keepsWalkable objects (walkObjectTreeF objects fuel).
Proof.
  induction fuel as [|fuel IH]; intros h p p' Hw Hp; [done|].
  rewrite walkObjectTreeF_S in Hw.
  destruct (isSeen h p) eqn:Hs; [by inversion Hw; subst|].
  destruct (objects !! h) as [[t ps|es|t|c]|] eqn:Hobj; try done.
  - pose proof (walkable_entered h _ p Hobj ltac:(done) Hp) as Hent.
    destruct (walkObjectTreeF objects fuel t (entered objects h p))
      as [[| |] p1] eqn:H1; try done.
    eapply walkHashes_walkable; [exact IH|exact Hw|]. by eapply IH.
  - pose proof (walkable_entered h _ p Hobj ltac:(done) Hp) as Hent.
    by eapply walkEntries_walkable.
  - pose proof (walkable_entered h _ p Hobj ltac:(done) Hp) as Hent.
    by eapply IH.
Qed.

Lemma walkRefs_walkable (refs : list Reference) (p' : objectWalker) :
  walkRefs objects refs newObjectWalker = (Done, p') -> fetchedWalkable objects p'.
Proof.
  rewrite walkRefs_hashes. intros Hw.
  eapply walkHashes_walkable; [|exact Hw|].
  - intros h q q'. apply walkObjectTreeF_walkable.
  - intros g Hg. by apply elem_of_nil in Hg.
Qed.

Lemma walkRefs_app (refs1 refs2 : list Reference) (p p1 : objectWalker) :
  walkRefs objects refs1 p = (Done, p1) ->
  walkRefs objects (refs1 ++ refs2) p = walkRefs objects refs2 p1.
Proof.
  revert p. induction refs1 as [|[n|n h|n t] refs1 IH]; intros p Hw;
    cbn [walkRefs app] in *; [by inversion Hw|by apply IH| |by apply IH].
  destruct (walkT h p) as [[| |] p2]; try done. by apply IH.
Qed.

End WalkerBlobs.

(** ** References *)

Lemma lookupRef_elem (name : ReferenceName) (refs : list Reference) (r : Reference) :
  lookupRef name refs = Some r -> r ∈ refs.
Proof.
  induction refs as [|r0 refs IH]; cbn; [done|].
  case_decide; intros Hl.
  - inversion Hl; subst. apply list_elem_of_here.
  - apply list_elem_of_further. by apply IH.
Qed.

Lemma resolveReference_elem (refs : list Reference) (budget : nat) (r0 r : Reference) :
  r0 ∈ refs -> resolveReference refs r0 budget = Some r -> r ∈ refs.
Proof.
  revert r0. induction budget as [|budget IH]; intros r0 Hin Hr;
    destruct r0 as [n|n h|n t]; cbn in Hr; try (by inversion Hr; subst).
  destruct (lookupRef t refs) as [r1|] eqn:Hl; [|done].
  eapply IH; [|exact Hr]. by eapply lookupRef_elem.
Qed.

Lemma ResolveReference_elem (s : Storer) (name : ReferenceName) (r : Reference) :
  ResolveReference s name = Some r -> r ∈ References s.
Proof.
  unfold ResolveReference. destruct (lookupRef name (References s)) as [r0|] eqn:Hl; [|done].
  apply resolveReference_elem. by eapply lookupRef_elem.
Qed.

Lemma hashRefTargets_elem (refs : list Reference) (n : ReferenceName) (h : Hash) :
  HashReference n h ∈ refs -> h ∈ hashRefTargets refs.
Proof.
  intros Hin. unfold hashRefTargets. apply list_elem_of_omap.
  by exists (HashReference n h).
Qed.

(** ** The walker: the claims *)

(** C1.  In a walk with a fresh walker every hash is handed to the store
    at most once.  The walk over all references always returns; its
    fetches are pairwise distinct and all marked seen.  A call on a seen
    hash returns at once and changes nothing; any call fetches only hashes
    that were not seen before it; the mark is set before the fetch, so it
    is there even when the fetch fails.  And when the references are two
    commits with the same tree, that tree is fetched exactly once. *)
Theorem walk_fetches_each_hash_at_most_once (s : Storer) :
  let r := walkAllRefs s newObjectWalker in
  r.1 <> OutOfFuel
  /\ NoDup (fetched r.2)
  /\ (forall g, g ∈ fetched r.2 -> g ∈ seen r.2)
  /\ (forall h p, h ∈ seen p -> walkObjectTree (Objects s) h p = (Done, p))
  /\ (forall h p, extends p (walkObjectTree (Objects s) h p).2)
  /\ (forall h p, h ∉ seen p -> Objects s !! h = None ->
        walkObjectTree (Objects s) h p
        = (Failed (ErrGettingObject h),
           {| seen := {[h]} ∪ seen p; fetched := fetched p ++ [h] |}))
  /\ (forall n1 n2 c1 c2 t ps1 ps2,
        IterReferences s = inr [HashReference n1 c1; HashReference n2 c2] ->
        Objects s !! c1 = Some (Commit t ps1) ->
        Objects s !! c2 = Some (Commit t ps2) ->
        exists l1 l2, fetched r.2 = l1 ++ t :: l2 /\ (t ∉ l1) /\ (t ∉ l2)).
Proof.
  intros r.
  assert (Htidy : tidy r.2).
  { subst r. unfold walkAllRefs. destruct (IterReferences s) as [e|refs];
      [apply tidy_new|].
    eapply extends_tidy; [apply walkRefs_extends|apply tidy_new]. }
  split.
  { subst r. unfold walkAllRefs. destruct (IterReferences s) as [e|refs];
      [done|apply walkRefs_total]. }
  split; [apply Htidy|]. split; [apply Htidy|].
  split.
  { intros h p Hs. rewrite walkObjectTree_unfold.
    apply isSeen_true in Hs. by rewrite Hs. }
  split; [apply walkObjectTree_extends|].
  split.
  { intros h p Hs Hobj. rewrite walkObjectTree_unfold.
    apply isSeen_false in Hs. by rewrite Hs, Hobj. }
  intros n1 n2 c1 c2 t ps1 ps2 Hrefs Hc1 Hc2.
  assert (Hin : t ∈ fetched r.2).
  { subst r. unfold walkAllRefs. rewrite Hrefs. cbn [walkRefs].
    set (p0 := newObjectWalker).
    assert (Hc1s : c1 ∉ seen p0) by (cbn; set_solver).
    assert (Ht : t ∈ fetched (walkObjectTree (Objects s) c1 p0).2).
    { rewrite walkObjectTree_unfold.
      apply isSeen_false in Hc1s as Hc1b. rewrite Hc1b, Hc1.
      set (p1 := entered (Objects s) c1 p0).
      assert (Ht1 : t ∈ fetched (walkObjectTree (Objects s) t p1).2).
      { destruct (decide (t ∈ seen p1)) as [Hts|Hts].
        - eapply fetched_extends; [apply walkObjectTree_extends|].
          apply entered_seen in Hts as [->|Hts]; [apply entered_fetched|].
          cbn in Hts. set_solver.
        - eapply fetched_extends; [by apply walkObjectTree_enters|].
          apply entered_fetched. }
      pose proof (walkHashes_extends (walkObjectTree (Objects s)) ps1) as Hps.
      destruct (walkObjectTree (Objects s) t p1) as [[| |] p2]; cbn in *; [|done..].
      eapply fetched_extends; [apply Hps, walkObjectTree_extends|done]. }
    pose proof (walkRefs_extends (Objects s) [HashReference n2 c2]) as Hrest.
    destruct (walkObjectTree (Objects s) c1 p0) as [[| |] p2]; cbn [snd] in *; [|done..].
    eapply fetched_extends; [apply Hrest|done]. }
  apply list_elem_of_split in Hin as (l1 & l2 & Heq).
  exists l1, l2. split; [done|].
  destruct Htidy as [Hnd _]. rewrite Heq in Hnd.
  apply NoDup_app in Hnd as (_ & Hdis & Hnd2).
  apply NoDup_cons in Hnd2 as [Hnot _].
  split; [|done]. intros Hl1. eapply Hdis; [exact Hl1|apply list_elem_of_here].
Qed.

Lemma walk_fetches_each_hash_at_most_once_witness :
  exists l1 l2,
    fetched (walkAllRefs Sample.sharedTree newObjectWalker).2 = l1 ++ Sample.t0 :: l2
    /\ (Sample.t0 ∉ l1) /\ (Sample.t0 ∉ l2).
Proof.
  destruct (walk_fetches_each_hash_at_most_once Sample.sharedTree)
    as (_ & _ & _ & _ & _ & _ & Hshared).
  apply (Hshared "refs/heads/a" "refs/heads/b" Sample.c1 Sample.c2 Sample.t0
           [] [Sample.c1]); reflexivity.
Defined.

Example shared_tree_fetches :
  fetched (walkAllRefs Sample.sharedTree newObjectWalker).2
  = [Sample.c1; Sample.t0; Sample.c2].
Proof. vm_compute. reflexivity. Qed.

(** C2, as amended.  In the loop over the entries of a tree, whatever the
    function [walk] it calls: an entry with regular, executable or symlink
    mode has its hash added to the seen-set, with no fetch and no call of
    [walk]; an entry with submodule mode leaves the walker as it is; an
    entry with directory mode calls [walk] on its hash and stops on an
    error.  A tree object is walked by that loop with [walkObjectTree]
    itself as [walk].  After a walk over all references a hash is in the
    seen-set only if it is the hash of a hash reference or a fetched
    object names it as its tree, parent, target or entry that is no
    submodule: a submodule entry alone never puts its hash there. *)
Theorem tree_entries_by_mode
    (objects : gmap Hash Object) (walk : walkFn)
    (e : TreeEntry) (es : list TreeEntry) (p : objectWalker) :
  (isFileMode (Mode e) ->
     walkEntries walk (e :: es) p = walkEntries walk es (add (EntryHash e) p)
     /\ EntryHash e ∈ seen (add (EntryHash e) p)
     /\ fetched (add (EntryHash e) p) = fetched p)
  /\ (Mode e = filemode.Submodule ->
        walkEntries walk (e :: es) p = walkEntries walk es p)
  /\ (Mode e = filemode.Dir ->
        walkEntries walk (e :: es) p
        = match walk (EntryHash e) p with
          | (Done, p') => walkEntries walk es p'
          | r => r
          end)
  /\ (forall t, t ∉ seen p -> objects !! t = Some (Tree es) ->
        walkObjectTree objects t p
        = walkEntries (walkObjectTree objects) es (entered objects t p))
  /\ (forall (s : Storer) (x : Hash),
        let r := walkAllRefs s newObjectWalker in
        x ∈ seen r.2 ->
        x ∈ hashRefTargets (References s)
        \/ exists g, g ∈ fetched r.2 /\ walkedChild (Objects s) g x).
Proof.
  split.
  { intros Hfile. cbn [walkEntries]. rewrite decide_True by exact Hfile.
    split; [done|]. split; [cbn; set_solver|done]. }
  split.
  { intros Hm. cbn [walkEntries]. rewrite Hm.
    rewrite decide_False by (intros [|[|]]; done). by rewrite decide_True. }
  split.
  { intros Hm. cbn [walkEntries]. rewrite Hm.
    rewrite decide_False by (intros [|[|]]; done). by rewrite decide_False. }
  split.
  { intros t Hs Hobj. rewrite walkObjectTree_unfold.
    apply isSeen_false in Hs. by rewrite Hs, Hobj. }
  intros s x r Hx. subst r. unfold walkAllRefs, IterReferences in Hx |- *.
  destruct (IterFailure s) as [err|]; [cbn in Hx; set_solver|].
  by apply (walkRefs_accounted (Objects s) (References s)).
Qed.

Lemma tree_entries_by_mode_witness :
  let file := mkEntry "README.md" filemode.Regular Sample.b0 in
  let sub := mkEntry "vendor" filemode.Submodule Sample.c0 in
  let dir := mkEntry "src" filemode.Dir Sample.t0 in
  let walk := walkObjectTree (Objects Sample.selfSubmodule) in
  walkEntries walk [file] newObjectWalker = walkEntries walk [] (add Sample.b0 newObjectWalker)
  /\ walkEntries walk [sub] newObjectWalker = walkEntries walk [] newObjectWalker
  /\ walkEntries walk [dir] newObjectWalker
     = match walk Sample.t0 newObjectWalker with
       | (Done, p') => walkEntries walk [] p'
       | r => r
       end
  /\ walkObjectTree (Objects Sample.selfSubmodule) Sample.t1 newObjectWalker
     = walkEntries walk [sub] (entered (Objects Sample.selfSubmodule) Sample.t1 newObjectWalker).
Proof.
  intros file sub dir walk.
  split.
  { apply (tree_entries_by_mode (Objects Sample.selfSubmodule) walk file [] newObjectWalker).
    right. by left. }
  split.
  { by apply (tree_entries_by_mode (Objects Sample.selfSubmodule) walk sub [] newObjectWalker). }
  split.
  { by apply (tree_entries_by_mode (Objects Sample.selfSubmodule) walk dir [] newObjectWalker). }
  apply (tree_entries_by_mode (Objects Sample.selfSubmodule) walk sub [sub] newObjectWalker);
    [apply not_elem_of_empty|reflexivity].
Defined.

(** The claim of C2 on submodules fails as worded: the tree of [c1] has
    the commit [c0] as a submodule, [c0] is also the parent of [c1], and
    so [c0] is in the reachable set. *)
Lemma submodule_hash_reachable_counterexample : ~ submodule_hash_never_reachable.
Proof.
  intros Hclaim.
  apply (Hclaim Sample.selfSubmodule Sample.t1
           [mkEntry "vendor" filemode.Submodule Sample.c0]
           (mkEntry "vendor" filemode.Submodule Sample.c0)).
  - vm_compute. apply list_elem_of_further, list_elem_of_here.
  - reflexivity.
  - apply list_elem_of_here.
  - reflexivity.
  - apply (bool_decide_unpack _). vm_compute. exact I.
Qed.

(** C3, as amended.  [walkAllRefs] walks the hashes of the hash
    references, in iteration order, up to the first error; a symbolic
    reference is passed over without being resolved.  It always returns.
    When it returns [nil], the hash a symbolic reference resolves to has
    been walked all the same, because the hash reference it resolves to
    is one of the references iterated. *)
Theorem walkAllRefs_walks_hash_references (s : Storer) (p : objectWalker) :
  walkAllRefs s p
  = match IterReferences s with
    | inl e => (Failed e, p)
    | inr refs => walkHashes (walkObjectTree (Objects s)) (hashRefTargets refs) p
    end
  /\ (walkAllRefs s p).1 <> OutOfFuel
  /\ (forall p' name n h,
        walkAllRefs s p = (Done, p') ->
        ResolveReference s name = Some (HashReference n h) ->
        h ∈ seen p').
Proof.
  unfold walkAllRefs, IterReferences.
  destruct (IterFailure s) as [e|]; [done|].
  split; [apply walkRefs_hashes|]. split; [apply walkRefs_total|].
  intros p' name n h Hw Hres.
  rewrite walkRefs_hashes in Hw.
  eapply walkHashes_Done_seen; [exact Hw|].
  eapply hashRefTargets_elem, ResolveReference_elem, Hres.
Qed.

Lemma walkAllRefs_walks_hash_references_witness :
  Sample.c1 ∈ seen (walkAllRefs
                      (withReferences
                         (SymbolicReference HEAD Main :: References Sample.blobTagLast)
                         Sample.blobTagLast)
                      newObjectWalker).2.
Proof.
  set (s := withReferences
              (SymbolicReference HEAD Main :: References Sample.blobTagLast)
              Sample.blobTagLast).
  destruct (walkAllRefs_walks_hash_references s newObjectWalker) as (_ & _ & Hseen).
  apply (Hseen (walkAllRefs s newObjectWalker).2 HEAD Main Sample.c1).
  - vm_compute. reflexivity.
  - vm_compute. reflexivity.
Defined.

(** The claim of C3 fails as worded: [HEAD] resolves to the commit [c1]
    and comes first, but the code passes it over, fails on the tag that
    names a blob, and never walks [c1]; a walk that resolved [HEAD] would
    have fetched [c1] and its tree first. *)
Lemma walkAllRefs_resolution_counterexample : ~ walkAllRefs_resolves_references.
Proof.
  intros Hclaim.
  specialize (Hclaim Sample.blobTagFirst newObjectWalker).
  apply (f_equal (fun r => fetched r.2)) in Hclaim.
  vm_compute in Hclaim. discriminate Hclaim.
Qed.

Example walkAllRefs_passes_over_HEAD :
  ResolveReference Sample.blobTagFirst HEAD = Some (HashReference Main Sample.c1)
  /\ (walkAllRefs Sample.blobTagFirst newObjectWalker).1
     = Failed (ErrUnknownObject Sample.b0)
  /\ fetched (walkAllRefs Sample.blobTagFirst newObjectWalker).2 = [Sample.b0]
  /\ fetched (walkAllRefs_spec Sample.blobTagFirst newObjectWalker).2
     = [Sample.c1; Sample.t0; Sample.b0].
Proof. repeat split; vm_compute; reflexivity. Qed.

(** C10, as amended.  A call of [walkObjectTree] on the hash of a stored
    blob that is not yet in the seen-set fails with the unknown-object
    error, having marked and fetched the hash; so does a call on a tag
    with such a target, and so does the walk over all references when it
    reaches a hash reference to such a blob.  In a walk that returned
    [nil] no blob was fetched: every blob in the seen-set is a file entry
    of a fetched tree. *)
Theorem walkObjectTree_unseen_blob_fails
    (objects : gmap Hash Object) (h : Hash) (c : string) (p : objectWalker) :
  objects !! h = Some (Blob c) ->
  h ∉ seen p ->
  walkObjectTree objects h p
  = (Failed (ErrUnknownObject h),
     {| seen := {[h]} ∪ seen p; fetched := fetched p ++ [h] |})
  /\ (forall g, g ∉ seen p -> g <> h -> objects !! g = Some (Tag h) ->
        (walkObjectTree objects g p).1 = Failed (ErrUnknownObject h))
  /\ (forall refs1 refs2 n p0,
        walkRefs objects refs1 p0 = (Done, p) ->
        (walkAllRefs (mkStorer objects (refs1 ++ HashReference n h :: refs2) None) p0).1
        = Failed (ErrUnknownObject h))
  /\ (forall refs p',
        walkAllRefs (mkStorer objects refs None) newObjectWalker = (Done, p') ->
        h ∈ seen p' ->
        (h ∉ fetched p') /\ exists g, g ∈ fetched p' /\ fileEntryOf objects g h).
Proof.
  intros Hobj Hs.
  assert (Hblob : forall q, h ∉ seen q ->
            walkObjectTree objects h q
            = (Failed (ErrUnknownObject h),
               {| seen := {[h]} ∪ seen q; fetched := fetched q ++ [h] |})).
  { intros q Hq. rewrite walkObjectTree_unfold.
    apply isSeen_false in Hq. by rewrite Hq, Hobj. }
  split; [by apply Hblob|].
  split.
  { intros g Hg Hne Htag. rewrite walkObjectTree_unfold.
    apply isSeen_false in Hg. rewrite Hg, Htag.
    rewrite Hblob; [done|]. intros Hin. apply entered_seen in Hin as [?|?]; done. }
  split.
  { intros refs1 refs2 n p0 Hw. unfold walkAllRefs, IterReferences.
    cbn [Objects References IterFailure].
    rewrite (walkRefs_app objects refs1 _ p0 p Hw). cbn [walkRefs].
    by rewrite Hblob. }
  intros refs p' Hw Hseen. unfold walkAllRefs, IterReferences in Hw.
  cbn [Objects References IterFailure] in Hw.
  assert (Hnf : h ∉ fetched p').
  { intros Hf. destruct (walkRefs_walkable objects refs p' Hw h Hf) as (o & Ho & Hnb).
    rewrite Hobj in Ho. inversion Ho; subst. by apply (Hnb c). }
  split; [done|].
  pose proof (walkRefs_marked objects refs) as Hm. rewrite Hw in Hm.
  destruct (Hm h Hseen) as [Hf|Hg]; [done|exact Hg].
Qed.

Lemma walkObjectTree_unseen_blob_fails_witness :
  walkObjectTree (Objects Sample.blobTagFirst) Sample.b0 newObjectWalker
  = (Failed (ErrUnknownObject Sample.b0),
     {| seen := {[Sample.b0]} ∪ ∅; fetched := [] ++ [Sample.b0] |}).
Proof.
  apply (walkObjectTree_unseen_blob_fails (Objects Sample.blobTagFirst)
           Sample.b0 "key" newObjectWalker).
  - reflexivity.
  - apply not_elem_of_empty.
Defined.

(** The claim of C10 fails as worded: once a tree entry has put the blob
    in the seen-set, the call on its hash returns [nil], and a walk over a
    branch and a tag that names a blob of the branch's tree succeeds. *)
Lemma blob_walk_counterexample : ~ blob_walk_always_fails.
Proof.
  intros Hclaim.
  specialize (Hclaim (Objects Sample.blobTagLast) Sample.b0 "key"
                (add Sample.b0 newObjectWalker) eq_refl).
  vm_compute in Hclaim. discriminate Hclaim.
Qed.

Example walk_with_tag_on_tree_blob :
  (walkAllRefs Sample.blobTagLast newObjectWalker).1 = Done
  /\ fetched (walkAllRefs Sample.blobTagLast newObjectWalker).2 = [Sample.c1; Sample.t0].
Proof. split; vm_compute; reflexivity. Qed.

(** ** Splitting and hexadecimal fields *)

Lemma cut_spec (sep : ascii) (s a b : string) :
  cut sep s = Some (a, b) -> s = a +:+ String sep b /\ contains sep a = false.
Proof.
  revert a. induction s as [|d s IH]; intros a Hc; cbn in Hc; [done|].
  case_decide as Hd.
  - inversion Hc; subst. by rewrite app_nil_l.
  - destruct (cut sep s) as [[a' b']|] eqn:Hcut; [|done].
    inversion Hc; subst. destruct (IH a' eq_refl) as [-> Hn].
    split; [by rewrite app_cons|]. cbn. by rewrite decide_False.
Qed.

Lemma cut_app (sep : ascii) (a b : string) :
  contains sep a = false -> cut sep (a +:+ String sep b) = Some (a, b).
Proof.
  induction a as [|d a IH]; intros Hn.
  - rewrite app_nil_l. cbn. by rewrite decide_True.
  - cbn in Hn. case_decide as Hd; [done|].
    rewrite app_cons. cbn. rewrite decide_False by done. by rewrite IH.
Qed.

Lemma contains_count (c : ascii) (s : string) :
  contains c s = false <-> count c s = 0.
Proof.
  induction s as [|d s IH]; cbn; [done|].
  case_decide; [split; [done|lia]|]. by rewrite IH.
Qed.

Lemma count_app (c : ascii) (a b : string) :
  count c (a +:+ b) = count c a + count c b.
Proof.
  induction a as [|d a IH]; [done|].
  rewrite app_cons. cbn. rewrite IH. lia.
Qed.

Lemma Split_length (s : string) (sep : ascii) :
  length (Split s sep) = S (count sep s).
Proof.
  induction s as [|d s IH]; cbn; [done|].
  case_decide; cbn; [by rewrite IH|].
  destruct (Split s sep) as [|w ws]; cbn in *; [done|lia].
Qed.

Lemma hexDecodeString_no_space (s b : string) :
  hexDecodeString s = Some b -> contains space s = false.
Proof.
  remember (len s) as n eqn:Hn. revert s b Hn.
  induction (lt_wf n) as [n _ IH]. intros s b Hn Hd.
  destruct s as [|p [|q s']]; cbn in Hd; [done|done|].
  destruct (fromHexChar p) as [x|] eqn:Hp; [|done].
  destruct (fromHexChar q) as [y|] eqn:Hq; [|done].
  destruct (hexDecodeString s') as [r|] eqn:Hr; [|done].
  cbn [contains].
  rewrite decide_False by (intros ->; vm_compute in Hp; done).
  rewrite decide_False by (intros ->; vm_compute in Hq; done).
  apply (IH (len s')) with (b := r); [subst n; unfold len; cbn; lia|done|done].
Qed.

Lemma parseHash_inr (f : string) :
  (exists h, parseHash f = inr h) <-> hashField f.
Proof.
  unfold parseHash, hashField. destruct (hexDecodeString f) as [b|].
  - case_decide as Hl.
    + split; [by intros [h ?]|]. intros (h & Hh & Hlen). inversion Hh; subst. done.
    + split; [|by exists b]. intros _. exists b. split; [done|]. lia.
  - split; [by intros [h ?]|by intros (h & ? & ?)].
Qed.

(** [parseHash] only ever yields twenty bytes. *)
Lemma parseHash_length (f : string) (h : Hash) : parseHash f = inr h -> len h = 20.
Proof.
  unfold parseHash. destruct (hexDecodeString f) as [b|]; [|done].
  case_decide as Hl; [done|]. intros Heq. inversion Heq; subst. lia.
Qed.

Lemma SplitN3_spec (line t0 t1 t2 : string) :
  SplitN line space 3 = [t0; t1; t2] <->
  line = t0 +:+ String space (t1 +:+ String space t2)
  /\ contains space t0 = false /\ contains space t1 = false.
Proof.
  cbn [SplitN]. split.
  - destruct (cut space line) as [[a b]|] eqn:H1; [|done].
    destruct (cut space b) as [[a' b']|] eqn:H2; [|done].
    intros Heq. inversion Heq; subst.
    apply cut_spec in H1 as [-> Hn1]. apply cut_spec in H2 as [-> Hn2]. done.
  - intros (-> & Hn0 & Hn1). rewrite (cut_app _ _ _ Hn0), (cut_app _ _ _ Hn1). done.
Qed.

Lemma SplitN3_length (line : string) :
  length (SplitN line space 3) = 3 ->
  exists t0 t1 t2, SplitN line space 3 = [t0; t1; t2].
Proof.
  destruct (SplitN line space 3) as [|t0 [|t1 [|t2 [|t3 l]]]]; try done.
  intros _. by exists t0, t1, t2.
Qed.

(** ** The ref-update lines of a push *)

Lemma parseRefUpdateLine_accepts (firstLine : bool) (line : string) :
  (exists r, parseRefUpdateLine firstLine line = inr r) <->
  exists f1 f2 f3,
    line = f1 +:+ String space (f2 +:+ String space f3)
    /\ hashField f1 /\ hashField f2
    /\ (firstLine = false -> contains nul f3 = false).
Proof.
  unfold parseRefUpdateLine. split.
  - intros [r Hr].
    destruct (SplitN line space 3) as [|t0 [|t1 [|t2 [|t3 l]]]] eqn:Hsp; try done.
    apply SplitN3_spec in Hsp as (Hline & _ & _).
    exists t0, t1, t2. split; [done|].
    destruct (negb firstLine && negb (bool_decide (length (Split t2 nul) = 1)))
      eqn:Hnul; [done|].
    destruct (parseHash t0) as [e0|h0] eqn:H0; [done|].
    destruct (parseHash t1) as [e1|h1] eqn:H1; [done|].
    split; [apply parseHash_inr; by exists h0|].
    split; [apply parseHash_inr; by exists h1|].
    intros ->. cbn in Hnul. apply negb_false_iff, bool_decide_eq_true in Hnul.
    rewrite Split_length in Hnul. apply contains_count. lia.
  - intros (f1 & f2 & f3 & Hline & Hf1 & Hf2 & Hnul).
    assert (Hsp : SplitN line space 3 = [f1; f2; f3]).
    { apply SplitN3_spec. split; [done|].
      destruct Hf1 as (h1 & Hd1 & _), Hf2 as (h2 & Hd2 & _).
      split; by eapply hexDecodeString_no_space. }
    rewrite Hsp.
    assert (Hn : negb firstLine && negb (bool_decide (length (Split f3 nul) = 1)) = false).
    { destruct firstLine; [done|]. cbn. apply negb_false_iff, bool_decide_eq_true.
      rewrite Split_length. specialize (Hnul eq_refl). apply contains_count in Hnul. lia. }
    rewrite Hn.
    apply parseHash_inr in Hf1 as [h1 ->]. apply parseHash_inr in Hf2 as [h2 ->].
    by eexists.
Qed.

(** The name a ref update carries holds no NUL byte: it is what comes
    before the first NUL of the third field. *)
Lemma Split_hd_no_sep (s : string) (sep : ascii) :
  contains sep (hd "" (Split s sep)) = false.
Proof.
  induction s as [|d s IH]; cbn; [done|].
  case_decide as Hd; [done|].
  destruct (Split s sep) as [|w ws]; cbn in *; by rewrite decide_False.
Qed.

Lemma parseRefUpdateLine_ref_no_nul (firstLine : bool) (line : string)
    (u : RefUpdate) (caps : option (list string)) :
  parseRefUpdateLine firstLine line = inr (u, caps) -> contains nul (Ref u) = false.
Proof.
  unfold parseRefUpdateLine.
  destruct (SplitN line space 3) as [|t0 [|t1 [|t2 [|t3 l]]]]; try done.
  destruct (negb firstLine && _); [done|].
  destruct (parseHash t0); [done|]. destruct (parseHash t1); [done|].
  intros Heq. inversion Heq; subst. cbn. apply Split_hd_no_sep.
Qed.

Lemma len_take (n : nat) (s : string) : n <= len s -> len (take n s) = n.
Proof.
  unfold len. revert s. induction n as [|n IH]; intros [|c s] Hn; cbn in *; try lia.
  rewrite IH; lia.
Qed.

(** Every packet takes at least its four prefix bytes off the input. *)
Lemma pktScan_consumes (input line rest : string) :
  pktScan input = ScanLine line rest -> len rest + 4 <= len input.
Proof.
  unfold pktScan. case_decide as Hnil; [done|].
  case_decide as Hlen; [done|].
  destruct (parseHex (take 4 input) 0%N) as [n|]; [|done].
  repeat case_decide; try done.
  intros Heq.
  assert (rest = drop (N.to_nat n - 4) (drop 4 input)) as -> by congruence.
  pose proof (len_take_drop 4 input).
  pose proof (len_take_drop (N.to_nat n - 4) (drop 4 input)).
  pose proof (len_take 4 input). lia.
Qed.

Lemma pktScan_flush_consumes (input rest : string) :
  pktScan input = ScanFlush rest -> len rest + 4 <= len input.
Proof.
  unfold pktScan. case_decide as Hnil; [done|].
  case_decide as Hlen; [done|].
  destruct (parseHex (take 4 input) 0%N) as [n|]; [|done].
  repeat case_decide; try done.
  intros Heq.
  assert (rest = drop 4 input) as -> by congruence.
  pose proof (len_take_drop 4 input).
  pose proof (len_take 4 input). lia.
Qed.

Lemma readRefUpdatesF_total (fuel : nat) (input : string) (firstLine : bool)
    (caps : list string) (acc : list RefUpdate) :
  len input < fuel ->
  readRefUpdatesF fuel input firstLine caps acc <> ReadOutOfFuel.
Proof.
  revert input firstLine caps acc.
  induction fuel as [|fuel IH]; intros input firstLine caps acc Hlen; [lia|].
  cbn [readRefUpdatesF].
  destruct (pktScan input) as [line rest|rest| |] eqn:Hscan; [|done..].
  case_decide; [done|].
  destruct (parseRefUpdateLine firstLine line) as [e|[u newCaps]]; [done|].
  apply IH. apply pktScan_consumes in Hscan. lia.
Qed.

(** The reading loop always ends: with the lines, or with an error. *)
Lemma readRefUpdates_total (body : string) : readRefUpdates body <> ReadOutOfFuel.
Proof. apply readRefUpdatesF_total. lia. Qed.

Lemma readRefUpdatesF_rejects (fuel : nat) (input : string) (firstLine : bool)
    (caps : list string) (acc : list RefUpdate)
    (good : list string) (tail bad rest : string) (e : error) :
  len input < fuel ->
  scansTo input good tail ->
  allAccepted firstLine good ->
  pktScan tail = ScanLine bad rest ->
  bad <> "" ->
  parseRefUpdateLine (if good is [] then firstLine else false) bad = inl e ->
  readRefUpdatesF fuel input firstLine caps acc = ReadFailed e.
Proof.
  intros Hlen Hscans. revert fuel firstLine caps acc Hlen.
  induction Hscans as [input|input line rest0 lines rest' Hscan Hscans IH];
    intros fuel firstLine caps acc Hlen Hacc Hbad Hne Hparse.
  - destruct fuel as [|fuel]; [lia|]. cbn [readRefUpdatesF].
    rewrite Hbad. rewrite decide_False by done. by rewrite Hparse.
  - destruct fuel as [|fuel]; [lia|]. cbn [readRefUpdatesF].
    destruct Hacc as (Hl & [[u newCaps] Hr] & Hacc).
    rewrite Hscan. rewrite decide_False by done. rewrite Hr.
    apply IH; [|done..|].
    + apply pktScan_consumes in Hscan. lia.
    + by destruct lines.
Qed.

(** ** References of the store under [SetReference] *)

Lemma lookupRef_setRef_eq (ref : Reference) (refs : list Reference) :
  lookupRef (RefName ref) (setRef ref refs) = Some ref.
Proof.
  induction refs as [|r refs IH]; cbn.
  - by rewrite decide_True.
  - case_decide as Hr; cbn; [by rewrite decide_True|]. by rewrite decide_False.
Qed.

Lemma lookupRef_setRef_ne (name : ReferenceName) (ref : Reference)
    (refs : list Reference) :
  name <> RefName ref -> lookupRef name (setRef ref refs) = lookupRef name refs.
Proof.
  intros Hne. induction refs as [|r refs IH]; cbn.
  - by rewrite decide_False.
  - case_decide as Hr; cbn.
    + rewrite decide_False by done. rewrite decide_False by congruence. done.
    + case_decide; [done|exact IH].
Qed.

Section ReceivePackFacts.
Context {W : Type} `{Writer W}.
Variable gunzip : string -> option string.
Variable UpdateObjectStorage :
  gmap Hash Object -> string -> gmap Hash Object * option error.
Variable refNameOk : ReferenceName -> bool.

Local Abbreviation apply := (applyRefUpdates refNameOk).

Lemma applyRefUpdates_app (l1 l2 : list RefUpdate) (s : Storer) :
  apply (l1 ++ l2) s = apply l2 (apply l1 s).
Proof. unfold applyRefUpdates. apply foldl_app. Qed.

(** What the loop over the updates leaves in the store: the objects as
    they were; and the references folded over the updates, where only
    the name and the [To] hash of an update are looked at. *)
Lemma applyRefUpdates_spec (updates : list RefUpdate) (s : Storer) :
  Objects (apply updates s) = Objects s
  /\ References (apply updates s)
     = foldl (fun refs u =>
                if refNameOk (Ref u)
                then setRef (HashReference (Ref u) (To u)) refs
                else refs)
             (References s) updates.
Proof.
  revert s. induction updates as [|u updates IH]; intros s; [done|].
  unfold applyRefUpdates in *. cbn [foldl].
  destruct (IH (SetReference refNameOk (HashReference (Ref u) (To u)) s).1)
    as [Ho Hr].
  rewrite Ho, Hr. unfold SetReference. cbn [RefName].
  by destruct (refNameOk (Ref u)).
Qed.

Lemma applyRefUpdates_keeps (updates : list RefUpdate) (s : Storer)
    (name : ReferenceName) (r : Reference) :
  (forall u, u ∈ updates -> refNameOk (Ref u) = true -> Ref u <> name) ->
  lookupRef name (References s) = Some r ->
  lookupRef name (References (apply updates s)) = Some r.
Proof.
  revert s. induction updates as [|u updates IH]; intros s Hother Hl; [done|].
  unfold applyRefUpdates in *. cbn [foldl]. apply IH.
  - intros u' Hu'. apply Hother. by apply list_elem_of_further.
  - unfold SetReference. cbn [RefName].
    destruct (refNameOk (Ref u)) eqn:Hok; [|done]. cbn.
    rewrite lookupRef_setRef_ne; [done|].
    cbn. intros Heq. by apply (Hother u (list_elem_of_here _ _) Hok).
Qed.

Lemma applyRefUpdates_observable (before after : list RefUpdate) (u : RefUpdate)
    (s : Storer) :
  refNameOk (Ref u) = true ->
  (forall u', u' ∈ after -> refNameOk (Ref u') = true -> Ref u' <> Ref u) ->
  lookupRef (Ref u) (References (apply (before ++ u :: after) s))
  = Some (HashReference (Ref u) (To u)).
Proof.
  intros Hok Hafter.
  rewrite applyRefUpdates_app.
  change (u :: after) with ([u] ++ after). rewrite applyRefUpdates_app.
  apply applyRefUpdates_keeps; [done|].
  unfold applyRefUpdates. cbn [foldl]. unfold SetReference. cbn [RefName].
  rewrite Hok. cbn. apply (lookupRef_setRef_eq (HashReference (Ref u) (To u))).
Qed.

Lemma serveGitReceivePack_total (s : Storer) (r : Request) (bw : W) :
  (serveGitReceivePack gunzip UpdateObjectStorage refNameOk s r bw).1.1 <> OutOfFuel.
Proof.
  unfold serveGitReceivePack.
  destruct (requestBody gunzip r) as [e|body]; [done|].
  pose proof (readRefUpdates_total body) as Ht.
  destruct (readRefUpdates body) as [lines|e|]; [|done..].
  destruct (UpdateObjectStorage _ _) as [objs [e|]].
  - by destruct (Flush _).
  - by destruct (Flush _) as [gw [e|]].
Qed.

End ReceivePackFacts.

(** ** Receive-pack: the claims *)

(** C6.  When the lines of the request were read and the pack decoder
    fails, the handler writes the line [unpack error parsing packfile],
    flushes, and returns [nil]; the references of the store are what they
    were, whatever updates the request asked for and whatever names the
    store would have taken: no [SetReference] is made. *)
Theorem failed_unpack_applies_no_update
    {W : Type} `{Writer W} (gunzip : string -> option string)
    (UpdateObjectStorage : gmap Hash Object -> string -> gmap Hash Object * option error)
    (refNameOk : ReferenceName -> bool)
    (s : Storer) (r : Request) (bw : W)
    (body : string) (lines : RequestLines) (objs : gmap Hash Object) (e : error) :
  requestBody gunzip r = inr body ->
  readRefUpdates body = ReadOk lines ->
  UpdateObjectStorage (Objects s) (packData lines) = (objs, Some e) ->
  let res := serveGitReceivePack gunzip UpdateObjectStorage refNameOk s r bw in
  res.1.1 = Done
  /\ References res.1.2 = References s
  /\ res.2 = w (Flush (WriteLine "unpack error parsing packfile"
                         (NewPacketLineWriter bw))).1
  /\ (forall refNameOk',
        serveGitReceivePack gunzip UpdateObjectStorage refNameOk' s r bw = res).
Proof.
  intros Hbody Hread Hdec res.
  assert (Hres : forall ok,
            serveGitReceivePack gunzip UpdateObjectStorage ok s r bw
            = (Done, (withObjects objs s),
               w (Flush (WriteLine "unpack error parsing packfile"
                           (NewPacketLineWriter bw))).1)).
  { intros ok. unfold serveGitReceivePack. rewrite Hbody, Hread, Hdec.
    by destruct (Flush _). }
  subst res. rewrite (Hres refNameOk).
  split; [done|]. split; [done|]. split; [done|]. intros ok. apply Hres.
Qed.

Lemma failed_unpack_applies_no_update_witness :
  let res := serveGitReceivePack SampleRequest.noGzip SampleRequest.decodeFails
               SampleRequest.anyName SampleRequest.store SampleRequest.push
               ("" : Buffer) in
  res.1.1 = Done
  /\ References res.1.2 = References SampleRequest.store
  /\ res.2 = pktLine "unpack error parsing packfile".
Proof.
  intros res.
  destruct (failed_unpack_applies_no_update
              SampleRequest.noGzip SampleRequest.decodeFails SampleRequest.anyName
              SampleRequest.store SampleRequest.push ("" : Buffer)
              (Body SampleRequest.push)
              (mkRequestLines
                 [mkRefUpdate Sample.c0 Sample.c1 "refs/heads/main"]
                 ["report-status"] "PACK")
              (Objects SampleRequest.store) (ErrIO "malformed pack file"))
    as (Hdone & Hrefs & Hwire & _).
  - reflexivity.
  - vm_compute. reflexivity.
  - reflexivity.
  - split; [exact Hdone|]. split; [exact Hrefs|]. exact Hwire.
Defined.

Example failed_unpack_wire :
  (serveGitReceivePack SampleRequest.noGzip SampleRequest.decodeFails
     SampleRequest.anyName SampleRequest.store SampleRequest.push ("" : Buffer)).2
  = "0022unpack error parsing packfile" +:+ String newline "".
Proof. vm_compute. reflexivity. Qed.

(** C7, as amended.  When the pack was decoded and the response
    [unpack ok] was flushed without an error, the handler applies the
    updates one by one: an update whose name the store takes makes that
    name a hash reference to its [To] hash, whatever is stored under the
    name and whatever its [From] hash says; an update the store refuses
    changes nothing and does not stop the others.  So an update that was
    taken, and whose name no later taken update carries, is what the
    store holds under that name afterwards. *)
Theorem receive_pack_applies_each_update
    {W : Type} `{Writer W} (gunzip : string -> option string)
    (UpdateObjectStorage : gmap Hash Object -> string -> gmap Hash Object * option error)
    (refNameOk : ReferenceName -> bool)
    (s : Storer) (r : Request) (bw : W)
    (body : string) (lines : RequestLines) (objs : gmap Hash Object)
    (gw : PacketLineWriter W) :
  requestBody gunzip r = inr body ->
  readRefUpdates body = ReadOk lines ->
  UpdateObjectStorage (Objects s) (packData lines) = (objs, None) ->
  Flush (WriteZeroPacketLine (WriteLine "unpack ok" (NewPacketLineWriter bw)))
  = (gw, None) ->
  let res := serveGitReceivePack gunzip UpdateObjectStorage refNameOk s r bw in
  res = (Done, applyRefUpdates refNameOk (refUpdates lines)
                 (withObjects objs s), w gw)
  /\ References res.1.2
     = foldl (fun refs u =>
                if refNameOk (Ref u)
                then setRef (HashReference (Ref u) (To u)) refs
                else refs)
             (References s) (refUpdates lines)
  /\ (forall before u after,
        refUpdates lines = before ++ u :: after ->
        refNameOk (Ref u) = true ->
        (forall u', u' ∈ after -> refNameOk (Ref u') = true -> Ref u' <> Ref u) ->
        lookupRef (Ref u) (References res.1.2) = Some (HashReference (Ref u) (To u))).
Proof.
  intros Hbody Hread Hdec Hflush res.
  assert (Hres : res = (Done, applyRefUpdates refNameOk (refUpdates lines)
                                (withObjects objs s),
                        w gw)).
  { subst res. unfold serveGitReceivePack. by rewrite Hbody, Hread, Hdec, Hflush. }
  rewrite Hres. cbn [fst snd].
  split; [done|]. split.
  - apply (applyRefUpdates_spec refNameOk (refUpdates lines)
             (withObjects objs s)).
  - intros before u after Hsplit Hok Hafter. rewrite Hsplit.
    by apply applyRefUpdates_observable.
Qed.

Lemma receive_pack_applies_each_update_witness :
  let res := serveGitReceivePack SampleRequest.noGzip SampleRequest.decodeOk
               SampleRequest.noDots SampleRequest.store SampleRequest.pushTwo
               ("" : Buffer) in
  lookupRef "refs/heads/main" (References res.1.2)
  = Some (HashReference "refs/heads/main" Sample.c1).
Proof.
  intros res.
  destruct (receive_pack_applies_each_update
              SampleRequest.noGzip SampleRequest.decodeOk SampleRequest.noDots
              SampleRequest.store SampleRequest.pushTwo ("" : Buffer)
              (Body SampleRequest.pushTwo)
              (mkRequestLines
                 [mkRefUpdate Sample.c0 Sample.c1 "refs/heads/main";
                  mkRefUpdate Sample.c0 Sample.c2 "refs/heads/.."]
                 [] "PACK")
              (Objects SampleRequest.store)
              (mkPLW None (pktLine "unpack ok" +:+ "0000")))
    as (_ & _ & Hobs).
  - reflexivity.
  - vm_compute. reflexivity.
  - reflexivity.
  - vm_compute. reflexivity.
  - apply (Hobs [] (mkRefUpdate Sample.c0 Sample.c1 "refs/heads/main")
             [mkRefUpdate Sample.c0 Sample.c2 "refs/heads/.."]).
    + reflexivity.
    + reflexivity.
    + intros u' Hu' Hok. apply list_elem_of_singleton in Hu' as ->.
      vm_compute in Hok. discriminate Hok.
Defined.

(** The claim of C7 fails as worded: the pack decodes, but the response
    cannot be written (the peer is gone), the handler returns before the
    loop over the updates, and [refs/heads/main] stays where it was. *)
Lemma receive_pack_flush_counterexample : ~ receive_pack_applies_after_decode.
Proof.
  intros Hclaim.
  specialize (Hclaim Conn Conn_Writer SampleRequest.noGzip SampleRequest.decodeOk
                SampleRequest.anyName SampleRequest.store SampleRequest.push
                (mkConn "" 0) (Body SampleRequest.push)
                (mkRequestLines
                   [mkRefUpdate Sample.c0 Sample.c1 "refs/heads/main"]
                   ["report-status"] "PACK")
                (Objects SampleRequest.store)).
  assert (Hrefs : lookupRef Main
            (References (serveGitReceivePack SampleRequest.noGzip SampleRequest.decodeOk
                           SampleRequest.anyName SampleRequest.store SampleRequest.push
                           (mkConn "" 0)).1.2)
          = Some (HashReference Main Sample.c1)).
  { rewrite Hclaim; [|reflexivity|vm_compute; reflexivity|reflexivity].
    vm_compute. reflexivity. }
  vm_compute in Hrefs. discriminate Hrefs.
Qed.

(** C9.  A line of the request is taken as a ref update exactly when it
    is a first field, a space, a second field, a space and a third field
    (the rest of the line), where the first two fields are hexadecimal for
    twenty bytes each and the third holds a NUL only on the first line.
    And a request with a line that is not taken fails as a whole with the
    error of that line: the store and the response are untouched, the
    pack decoder is never run. *)
Theorem ref_update_line_accepted_iff (firstLine : bool) (line : string) :
  ((exists u, parseRefUpdateLine firstLine line = inr u) <->
   exists f1 f2 f3,
     line = f1 +:+ String space (f2 +:+ String space f3)
     /\ hashField f1 /\ hashField f2
     /\ (firstLine = false -> contains nul f3 = false))
  /\ (forall (W : Type) (HW : Writer W) (gunzip : string -> option string)
        (UpdateObjectStorage : gmap Hash Object -> string -> gmap Hash Object * option error)
        (refNameOk : ReferenceName -> bool)
        (s : Storer) (r : Request) (bw : W)
        (body : string) (good : list string) (tail rest : string) (e : error),
        requestBody gunzip r = inr body ->
        scansTo body good tail ->
        allAccepted true good ->
        pktScan tail = ScanLine line rest ->
        line <> "" ->
        firstLine = (if good is [] then true else false) ->
        parseRefUpdateLine firstLine line = inl e ->
        serveGitReceivePack gunzip UpdateObjectStorage refNameOk s r bw
        = (Failed e, s, bw)).
Proof.
  split; [apply parseRefUpdateLine_accepts|].
  intros W HW gunzip UOS ok s r bw body good tail rest e
    Hbody Hscans Hacc Hscan Hne Hfirst Hparse.
  unfold serveGitReceivePack. rewrite Hbody.
  assert (Hread : readRefUpdates body = ReadFailed e).
  { unfold readRefUpdates.
    eapply readRefUpdatesF_rejects; [lia|exact Hscans|exact Hacc|exact Hscan|exact Hne|].
    by rewrite <- Hfirst. }
  by rewrite Hread.
Qed.

Lemma ref_update_line_accepted_iff_witness :
  (exists u, parseRefUpdateLine true
               (SampleRequest.hex Sample.c0 +:+ " " +:+ SampleRequest.hex Sample.c1
                +:+ " refs/heads/main" +:+ String nul "report-status side-band-64k")
             = inr u)
  /\ serveGitReceivePack SampleRequest.noGzip SampleRequest.decodeOk
       SampleRequest.anyName SampleRequest.store SampleRequest.pushBadSecond
       ("" : Buffer)
     = (Failed (ErrLineHash1 ("abcd " +:+ SampleRequest.hex Sample.c2 +:+ " refs/heads/dev")),
        SampleRequest.store, "").
Proof.
  split.
  - apply (ref_update_line_accepted_iff true).
    exists (SampleRequest.hex Sample.c0), (SampleRequest.hex Sample.c1),
      ("refs/heads/main" +:+ String nul "report-status side-band-64k").
    split; [reflexivity|].
    split; [exists Sample.c0; split; reflexivity|].
    split; [exists Sample.c1; split; reflexivity|].
    discriminate.
  - apply (ref_update_line_accepted_iff false
             ("abcd " +:+ SampleRequest.hex Sample.c2 +:+ " refs/heads/dev"))
      with (body := Body SampleRequest.pushBadSecond)
           (good := [SampleRequest.hex Sample.c0 +:+ " " +:+ SampleRequest.hex Sample.c1
                     +:+ " refs/heads/main"])
           (tail := SampleRequest.frame
                      ("abcd " +:+ SampleRequest.hex Sample.c2 +:+ " refs/heads/dev")
                    +:+ "0000" +:+ "PACK")
           (rest := "0000" +:+ "PACK").
    + reflexivity.
    + eapply scans_cons; [|apply scans_nil]. vm_compute. reflexivity.
    + split; [discriminate|]. split; [|exact I]. eexists. vm_compute. reflexivity.
    + vm_compute. reflexivity.
    + discriminate.
    + reflexivity.
    + vm_compute. reflexivity.
Defined.

(** ** The reference advertisement *)

Lemma advertisementLines_later (i : nat) (capabilities refs : list string) :
  advertisementLines (S i) capabilities refs = refs.
Proof.
  revert i. induction refs as [|ref refs IH]; intros i; [done|].
  cbn [advertisementLines]. rewrite decide_False by lia. by rewrite IH.
Qed.

Lemma advertisementLines_first (capabilities : list string) (ref : string)
    (refs : list string) :
  advertisementLines 0 capabilities (ref :: refs)
  = (ref +:+ String nul (Join capabilities " ")) :: refs.
Proof.
  cbn [advertisementLines]. rewrite decide_True by done.
  by rewrite advertisementLines_later.
Qed.

Lemma hexDigit_not_nul (d : N) : (d < 16)%N -> hexDigit d <> nul.
Proof.
  intros Hd.
  assert (Hcases : In d [0; 1; 2; 3; 4; 5; 6; 7; 8; 9; 10; 11; 12; 13; 14; 15]%N).
  { cbn. lia. }
  cbn in Hcases.
  repeat (destruct Hcases as [<-|Hcases]; [by vm_compute|]). done.
Qed.

Lemma HashString_no_nul (h : Hash) : count nul (HashString h) = 0.
Proof.
  unfold HashString. induction h as [|c h IH]; [done|].
  cbn [hexEncodeToString count].
  pose proof (N_ascii_bounded c) as Hc.
  rewrite decide_False
    by (apply hexDigit_not_nul, N.Div0.div_lt_upper_bound; lia).
  rewrite decide_False by (apply hexDigit_not_nul, N.mod_lt; lia).
  by rewrite IH.
Qed.

Lemma refLine_nul (resolved : Reference) (name : ReferenceName) :
  count nul (refLine resolved name) = count nul name.
Proof. unfold refLine. rewrite !count_app, HashString_no_nul. done. Qed.

Lemma collectRefs_no_nul (s : Storer) (it : list Reference) (acc refs : list string) :
  (forall r, r ∈ it -> contains nul (RefName r) = false) ->
  (forall l, l ∈ acc -> count nul l = 0) ->
  collectRefs s it acc = inr refs ->
  forall l, l ∈ refs -> count nul l = 0.
Proof.
  revert acc. induction it as [|ref it IH]; intros acc Hnames Hacc Hc.
  { cbn in Hc. by inversion Hc; subst. }
  cbn [collectRefs] in Hc.
  assert (Hit : forall r, r ∈ it -> contains nul (RefName r) = false).
  { intros r Hr. by apply Hnames, list_elem_of_further. }
  assert (Hname : count nul (RefName ref) = 0).
  { apply contains_count, Hnames, list_elem_of_here. }
  assert (Hline : forall r, count nul (refLine r (RefName ref)) = 0).
  { intros r. by rewrite refLine_nul. }
  assert (Hstep : forall r,
            (if decide (RefName ref = HEAD)
             then collectRefs s it (refLine r (RefName ref) :: acc)
             else collectRefs s it (acc ++ [refLine r (RefName ref)])) = inr refs ->
            forall l, l ∈ refs -> count nul l = 0).
  { intros r Hr. case_decide.
    - eapply IH; [done| |exact Hr].
      intros l [->|Hl]%elem_of_cons; [apply Hline|by apply Hacc].
    - eapply IH; [done| |exact Hr].
      intros l [Hl|Hl]%elem_of_app; [by apply Hacc|].
      apply list_elem_of_singleton in Hl as ->. apply Hline. }
  destruct (IsRemote (RefName ref)); [by eapply IH|].
  destruct ref as [n|n h|n t]; [done|by eapply Hstep|].
  destruct (ResolveReference s (RefName (SymbolicReference n t))) as [r|];
    [by eapply Hstep|by eapply IH].
Qed.

Section InfoRefsFacts.
Context {W : Type} `{Writer W}.

Lemma foldl_WriteLine (lines : list string) (gw : PacketLineWriter W) :
  foldl (fun gw l => WriteLine l gw) gw lines = runOps (map OpWriteLine lines) gw.
Proof.
  revert gw. induction lines as [|l lines IH]; intros gw; [done|].
  cbn [foldl map]. rewrite IH. done.
Qed.

(** The response of [serveGitInfoRefs] as a run of writer calls. *)
Lemma serveGitInfoRefs_writes (s : Storer) (serviceName : string)
    (capabilities refs : list string) (bw : W) :
  serviceCapabilities serviceName = inr capabilities ->
  advertisedRefs s = inr refs ->
  serveGitInfoRefs s serviceName bw
  = (None,
     w (Flush (runOps
                 (OpWriteLine ("# service=" +:+ serviceName)
                  :: OpWriteZeroPacketLine
                  :: map OpWriteLine (advertisementLines 0 capabilities refs)
                  ++ [OpWriteZeroPacketLine])
                 (NewPacketLineWriter bw))).1).
Proof.
  intros Hcaps Hrefs. unfold serveGitInfoRefs. rewrite Hcaps, Hrefs.
  rewrite foldl_WriteLine.
  unfold runOps. cbn [foldl]. rewrite foldl_app. cbn [foldl runOp].
  by destruct (Flush _).
Qed.

End InfoRefsFacts.

(** C8.  The capability string is [symref=HEAD:refs/heads/main] for
    upload-pack and empty for receive-pack.  The advertised lines are the
    reference lines, except that line 0 is followed by one NUL byte and
    the capability string; every later line is its reference line as it
    is.  With reference names free of NUL bytes, as git has them, line 0
    holds exactly one NUL and no other line holds any.  These lines,
    between the service line with its zero marker and a closing zero
    marker, are what the handler writes. *)
Theorem capabilities_on_first_line_only
    (s : Storer) (serviceName : string) (capabilities refs : list string) :
  serviceCapabilities serviceName = inr capabilities ->
  advertisedRefs s = inr refs ->
  (forall r, r ∈ References s -> contains nul (RefName r) = false) ->
  let lines := advertisementLines 0 capabilities refs in
  ((serviceName = "git-upload-pack"
    /\ Join capabilities " " = "symref=HEAD:refs/heads/main")
   \/ (serviceName = "git-receive-pack" /\ Join capabilities " " = ""))
  /\ (forall ref rest, refs = ref :: rest ->
        lines = (ref +:+ String nul (Join capabilities " ")) :: rest)
  /\ (forall line, lines !! 0 = Some line -> count nul line = 1)
  /\ (forall i line, 0 < i -> lines !! i = Some line ->
        refs !! i = Some line /\ count nul line = 0)
  /\ (forall (W : Type) (HW : Writer W) (bw : W),
        serveGitInfoRefs s serviceName bw
        = (None,
           w (Flush (runOps
                       (OpWriteLine ("# service=" +:+ serviceName)
                        :: OpWriteZeroPacketLine
                        :: map OpWriteLine lines ++ [OpWriteZeroPacketLine])
                       (NewPacketLineWriter bw))).1)).
Proof.
  intros Hcaps Hrefs Hnames lines.
  assert (Hnul : forall l, l ∈ refs -> count nul l = 0).
  { unfold advertisedRefs, IterReferences in Hrefs.
    destruct (IterFailure s) as [err|]; [done|].
    destruct (collectRefs s (References s) []) as [err|refs'] eqn:Hc; [done|].
    inversion Hrefs; subst refs'.
    eapply collectRefs_no_nul; [exact Hnames| |exact Hc].
    intros l Hl. by apply elem_of_nil in Hl. }
  assert (Hsvc : (serviceName = "git-upload-pack"
                  /\ Join capabilities " " = "symref=HEAD:refs/heads/main")
                 \/ (serviceName = "git-receive-pack" /\ Join capabilities " " = "")).
  { unfold serviceCapabilities in Hcaps.
    case_decide as Hup; [left; by inversion Hcaps; subst|].
    case_decide as Hrp; [right; by inversion Hcaps; subst|done]. }
  assert (Hjoin : count nul (Join capabilities " ") = 0).
  { by destruct Hsvc as [[_ ->]|[_ ->]]. }
  split; [exact Hsvc|].
  split.
  { intros ref rest ->. apply advertisementLines_first. }
  split.
  { intros line Hl. subst lines. destruct refs as [|ref rest]; [done|].
    rewrite advertisementLines_first in Hl. cbn in Hl. inversion Hl; subst.
    rewrite count_app. cbn [count]. rewrite decide_True by done.
    rewrite Hjoin, (Hnul ref (list_elem_of_here _ _)). done. }
  split.
  { intros i line Hi Hl. subst lines. destruct refs as [|ref rest]; [done|].
    rewrite advertisementLines_first in Hl.
    destruct i as [|i]; [lia|]. cbn in Hl |- *. split; [done|].
    apply Hnul, list_elem_of_further. by eapply list_elem_of_lookup_2. }
  intros W HW bw. by apply serveGitInfoRefs_writes.
Qed.

Lemma capabilities_on_first_line_only_witness :
  advertisementLines 0 ["symref=HEAD:refs/heads/main"]
    [refLine (HashReference Main Sample.c0) HEAD; refLine (HashReference Main Sample.c0) Main]
  = [refLine (HashReference Main Sample.c0) HEAD
       +:+ String nul "symref=HEAD:refs/heads/main";
     refLine (HashReference Main Sample.c0) Main].
Proof.
  destruct (capabilities_on_first_line_only SampleRequest.store "git-upload-pack"
              ["symref=HEAD:refs/heads/main"]
              [refLine (HashReference Main Sample.c0) HEAD;
               refLine (HashReference Main Sample.c0) Main])
    as (_ & Hfirst & _).
  - reflexivity.
  - vm_compute. reflexivity.
  - intros r Hr. cbn in Hr.
    apply elem_of_cons in Hr as [->|Hr]; [reflexivity|].
    apply list_elem_of_singleton in Hr as ->. reflexivity.
  - by apply (Hfirst _ _ eq_refl).
Defined.

Example advertisement_for_upload_pack :
  serveGitInfoRefs SampleRequest.store "git-upload-pack" ("" : Buffer)
  = (None,
     pktLine "# service=git-upload-pack" +:+ "0000"
     +:+ pktLine (SampleRequest.hex Sample.c0 +:+ " HEAD"
                  +:+ String nul "symref=HEAD:refs/heads/main")
     +:+ pktLine (SampleRequest.hex Sample.c0 +:+ " refs/heads/main")
     +:+ "0000").
Proof. vm_compute. reflexivity. Qed.

Example advertisement_for_receive_pack :
  serveGitInfoRefs SampleRequest.store "git-receive-pack" ("" : Buffer)
  = (None,
     pktLine "# service=git-receive-pack" +:+ "0000"
     +:+ pktLine (SampleRequest.hex Sample.c0 +:+ " HEAD" +:+ String nul "")
     +:+ pktLine (SampleRequest.hex Sample.c0 +:+ " refs/heads/main")
     +:+ "0000").
Proof. vm_compute. reflexivity. Qed.

(** ** The walker and the reachable set *)

Section WalkerReach.
Variable objects : gmap Hash Object.

Local Abbreviation walkT := (walkObjectTree objects).

(** *** Only reachable hashes are marked *)

Lemma walkHashes_reach (roots : list Hash) (walk : walkFn) (hs : list Hash)
    (p : objectWalker) :
  (forall h q, (forall x, x ∈ seen q -> Reach objects roots x) ->
               Reach objects roots h ->
               forall x, x ∈ seen (walk h q).2 -> Reach objects roots x) ->
  (forall x, x ∈ seen p -> Reach objects roots x) ->
  (forall h, h ∈ hs -> Reach objects roots h) ->
  forall x, x ∈ seen (walkHashes walk hs p).2 -> Reach objects roots x.
Proof.
  intros Hk. revert p. induction hs as [|h hs IH]; intros p Hp Hhs; [done|].
  cbn [walkHashes].
  pose proof (Hk h p Hp (Hhs h (list_elem_of_here _ _))) as Hh.
  destruct (walk h p) as [[| |] p']; cbn in *; [|done..].
  apply IH; [done|]. intros h' Hh'. by apply Hhs, list_elem_of_further.
Qed.

Lemma walkEntries_reach (roots : list Hash) (walk : walkFn) (es : list TreeEntry)
    (p : objectWalker) :
  (forall h q, (forall x, x ∈ seen q -> Reach objects roots x) ->
               Reach objects roots h ->
               forall x, x ∈ seen (walk h q).2 -> Reach objects roots x) ->
  (forall x, x ∈ seen p -> Reach objects roots x) ->
  (forall e, e ∈ es -> Mode e <> filemode.Submodule ->
             Reach objects roots (EntryHash e)) ->
  forall x, x ∈ seen (walkEntries walk es p).2 -> Reach objects roots x.
Proof.
  intros Hk. revert p. induction es as [|e es IH]; intros p Hp Hes; [done|].
  cbn [walkEntries].
  assert (Hrest : forall e', e' ∈ es -> Mode e' <> filemode.Submodule ->
                             Reach objects roots (EntryHash e')).
  { intros e' He'. by apply Hes, list_elem_of_further. }
  case_decide as Hfile; [|case_decide as Hsub].
  - apply IH; [|done]. intros x Hx. cbn in Hx.
    apply elem_of_union in Hx as [Hx|Hx]; [|by apply Hp].
    apply elem_of_singleton in Hx as ->. apply Hes; [apply list_elem_of_here|].
    intros Heq. rewrite Heq in Hfile. by destruct Hfile as [|[|]].
  - by apply IH.
  - pose proof (Hk (EntryHash e) p Hp (Hes e (list_elem_of_here _ _) Hsub)) as Hh.
    destruct (walk (EntryHash e) p) as [[| |] p']; cbn in *; [|done..].
    by apply IH.
Qed.

Lemma walkObjectTreeF_reach (roots : list Hash) (fuel : nat) (h : Hash)
    (q : objectWalker) :
  (forall x, x ∈ seen q -> Reach objects roots x) ->
  Reach objects roots h ->
  forall x, x ∈ seen (walkObjectTreeF objects fuel h q).2 -> Reach objects roots x.
Proof.
  revert h q. induction fuel as [|fuel IH]; intros h q Hq Hh; [done|].
  rewrite walkObjectTreeF_S.
  destruct (isSeen h q) eqn:Hs; [done|].
  assert (Hent : forall x, x ∈ seen (entered objects h q) -> Reach objects roots x).
  { intros x [->|Hx]%entered_seen; [done|by apply Hq]. }
  destruct (objects !! h) as [[t ps|es|t|c]|] eqn:Hobj; cbn [snd]; try done.
  - assert (Ht : Reach objects roots t).
    { eapply Reach_child; [exact Hh|]. unfold walkedChild. rewrite Hobj. by left. }
    pose proof (IH t _ Hent Ht) as Ha.
    destruct (walkObjectTreeF objects fuel t (entered objects h q)) as [[| |] p'];
      cbn in *; [|done..].
    apply walkHashes_reach; [exact IH|done|].
    intros h' Hh'. eapply Reach_child; [exact Hh|].
    unfold walkedChild. rewrite Hobj. by right.
  - apply walkEntries_reach; [exact IH|done|].
    intros e He Hm. eapply Reach_child; [exact Hh|].
    unfold walkedChild. rewrite Hobj. by exists e.
  - apply IH; [done|]. eapply Reach_child; [exact Hh|].
    unfold walkedChild. by rewrite Hobj.
Qed.

Lemma walkRefs_reach (refs : list Reference) (x : Hash) :
  x ∈ seen (walkRefs objects refs newObjectWalker).2 ->
  Reach objects (hashRefTargets refs) x.
Proof.
  rewrite walkRefs_hashes. apply walkHashes_reach.
  - intros h q. apply walkObjectTreeF_reach.
  - intros y Hy. cbn in Hy. by apply not_elem_of_empty in Hy.
  - intros h Hh. by apply Reach_root.
Qed.

(** *** What a finished call fetched is closed under the naming *)

Lemma closedSince_refl (p : objectWalker) : closedSince objects p p.
Proof. by intros g Hg Hn. Qed.

Lemma closedSince_trans (p q r : objectWalker) :
  closedSince objects p q -> extends q r -> closedSince objects q r ->
  closedSince objects p r.
Proof.
  intros Hpq Heqr Hqr g Hg Hn c Hc.
  destruct (decide (g ∈ fetched q)) as [Hq|Hq].
  - eapply seen_extends; [exact Heqr|]. by eapply Hpq.
  - by eapply Hqr.
Qed.

Lemma walkEntries_Done_seen (es : list TreeEntry) (p p' : objectWalker) :
  walkEntries walkT es p = (Done, p') ->
  forall e, e ∈ es -> Mode e <> filemode.Submodule -> EntryHash e ∈ seen p'.
Proof.
  revert p. induction es as [|e0 es IH]; intros p Hw e Hin Hm;
    [by apply elem_of_nil in Hin|].
  cbn [walkEntries] in Hw.
  pose proof (walkEntries_extends walkT es) as Hext.
  case_decide as Hfile; [|case_decide as Hsub].
  - apply elem_of_cons in Hin as [->|Hin]; [|by eapply IH].
    specialize (Hext (add (EntryHash e0) p) (walkObjectTree_extends objects)).
    rewrite Hw in Hext. eapply seen_extends; [exact Hext|].
    cbn. apply elem_of_union. left. by apply elem_of_singleton.
  - apply elem_of_cons in Hin as [->|Hin]; [done|by eapply IH].
  - destruct (walkT (EntryHash e0) p) as [[| |] p1] eqn:H1; try done.
    apply elem_of_cons in Hin as [->|Hin]; [|by eapply IH].
    specialize (Hext p1 (walkObjectTree_extends objects)). rewrite Hw in Hext.
    eapply seen_extends; [exact Hext|]. by eapply walkObjectTree_Done_seen.
Qed.

Lemma walkHashes_closed (k : nat) (hs : list Hash) (p p' : objectWalker) :
  (forall h q q', unseen objects q < k -> walkT h q = (Done, q') ->
                  closedSince objects q q') ->
  unseen objects p < k ->
  walkHashes walkT hs p = (Done, p') -> closedSince objects p p'.
Proof.
  intros Hk. revert p. induction hs as [|h hs IH]; intros p Hp Hw;
    cbn [walkHashes] in Hw.
  { inversion Hw; subst. apply closedSince_refl. }
  destruct (walkT h p) as [[| |] p1] eqn:H1; try done.
  pose proof (walkObjectTree_extends objects h p) as He1. rewrite H1 in He1.
  pose proof (walkHashes_extends walkT hs p1 (walkObjectTree_extends objects)) as He2.
  rewrite Hw in He2.
  eapply closedSince_trans; [by eapply Hk|exact He2|].
  apply IH; [|done]. apply (unseen_extends objects) in He1. cbn in He1. lia.
Qed.

Lemma walkEntries_closed (k : nat) (es : list TreeEntry) (p p' : objectWalker) :
  (forall h q q', unseen objects q < k -> walkT h q = (Done, q') ->
                  closedSince objects q q') ->
  unseen objects p < k ->
  walkEntries walkT es p = (Done, p') -> closedSince objects p p'.
Proof.
  intros Hk. revert p. induction es as [|e es IH]; intros p Hp Hw;
    cbn [walkEntries] in Hw.
  { inversion Hw; subst. apply closedSince_refl. }
  case_decide as Hfile; [|case_decide as Hsub].
  - apply (IH (add (EntryHash e) p)) in Hw.
    + intros g Hg Hn. by apply Hw.
    + pose proof (unseen_extends objects _ _ (extends_add (EntryHash e) p)). lia.
  - by apply IH.
  - destruct (walkT (EntryHash e) p) as [[| |] p1] eqn:H1; try done.
    pose proof (walkObjectTree_extends objects (EntryHash e) p) as He1.
    rewrite H1 in He1.
    pose proof (walkEntries_extends walkT es p1 (walkObjectTree_extends objects)) as He2.
    rewrite Hw in He2.
    eapply closedSince_trans; [by eapply Hk|exact He2|].
    apply IH; [|done]. apply (unseen_extends objects) in He1. cbn in He1. lia.
Qed.

Lemma closedSince_entered (h : Hash) (p p' : objectWalker) :
  closedSince objects (entered objects h p) p' ->
  (forall c, walkedChild objects h c -> c ∈ seen p') ->
  closedSince objects p p'.
Proof.
  intros Hc Hh g Hg Hn c Hgc.
  destruct (decide (g = h)) as [->|Hne]; [by apply Hh|].
  eapply Hc; [done| |done].
  intros [Hf|Heq]%entered_fetched_iff; done.
Qed.

Lemma walkObjectTree_closed_below (k : nat) (h : Hash) (p p' : objectWalker) :
  unseen objects p < k -> walkT h p = (Done, p') -> closedSince objects p p'.
Proof.
  revert h p p'. induction k as [|k IH]; intros h p p' Hp Hw; [lia|].
  rewrite walkObjectTree_unfold in Hw.
  destruct (isSeen h p) eqn:Hs.
  { inversion Hw; subst. apply closedSince_refl. }
  apply isSeen_false in Hs.
  destruct (objects !! h) as [obj|] eqn:Hobj; [|done].
  assert (Hlt : unseen objects (entered objects h p) < k).
  { pose proof (unseen_entered objects h p Hs (mk_is_Some _ _ Hobj)). lia. }
  destruct obj as [t ps|es|t|c]; [| | |done].
  - destruct (walkT t (entered objects h p)) as [[| |] p1] eqn:H1; try done.
    pose proof (walkObjectTree_extends objects t (entered objects h p)) as He1.
    rewrite H1 in He1.
    pose proof (walkHashes_extends walkT ps p1 (walkObjectTree_extends objects)) as He2.
    rewrite Hw in He2. cbn [snd] in He1, He2.
    apply (closedSince_entered h).
    + eapply closedSince_trans; [by eapply IH|exact He2|].
      eapply walkHashes_closed; [exact IH| |exact Hw].
      apply (unseen_extends objects) in He1. lia.
    + intros c Hc. unfold walkedChild in Hc. rewrite Hobj in Hc.
      destruct Hc as [->|Hc].
      * eapply seen_extends; [exact He2|]. by eapply walkObjectTree_Done_seen.
      * by eapply walkHashes_Done_seen.
  - apply (closedSince_entered h).
    + by eapply walkEntries_closed; [exact IH| |exact Hw].
    + intros c Hc. unfold walkedChild in Hc. rewrite Hobj in Hc.
      destruct Hc as (e & He & <- & Hm). by eapply walkEntries_Done_seen.
  - apply (closedSince_entered h); [by eapply IH|].
    intros c Hc. unfold walkedChild in Hc. rewrite Hobj in Hc. subst c.
    by eapply walkObjectTree_Done_seen.
Qed.

Lemma walkObjectTree_closed (h : Hash) (p p' : objectWalker) :
  walkT h p = (Done, p') -> closedSince objects p p'.
Proof.
  intros Hw. apply (walkObjectTree_closed_below (S (unseen objects p)) h); [lia|done].
Qed.

Lemma walkRefs_closed (refs : list Reference) (p p' : objectWalker) :
  walkRefs objects refs p = (Done, p') -> closedSince objects p p'.
Proof.
  rewrite walkRefs_hashes.
  apply (walkHashes_closed (S (unseen objects p))); [|lia].
  intros h q q' _. apply walkObjectTree_closed.
Qed.

(** *** Where a walk fails *)

Lemma walkHashes_failedAt (walk : walkFn) (hs : list Hash) (p p' : objectWalker)
    (e : error) :
  (forall h q q' e', walk h q = (Failed e', q') -> failedAt objects e' q') ->
  walkHashes walk hs p = (Failed e, p') -> failedAt objects e p'.
Proof.
  intros Hk. revert p. induction hs as [|h hs IH]; intros p Hw;
    cbn [walkHashes] in Hw; [done|].
  destruct (walk h p) as [[|e1|] p1] eqn:H1; try done.
  - by eapply IH.
  - inversion Hw; subst. by eapply Hk.
Qed.

Lemma walkEntries_failedAt (walk : walkFn) (es : list TreeEntry)
    (p p' : objectWalker) (e : error) :
  (forall h q q' e', walk h q = (Failed e', q') -> failedAt objects e' q') ->
  walkEntries walk es p = (Failed e, p') -> failedAt objects e p'.
Proof.
  intros Hk. revert p. induction es as [|e0 es IH]; intros p Hw;
    cbn [walkEntries] in Hw; [done|].
  case_decide as Hfile; [|case_decide as Hsub]; [by eapply IH..|].
  destruct (walk (EntryHash e0) p) as [[|e1|] p1] eqn:H1; try done.
  - by eapply IH.
  - inversion Hw; subst. by eapply Hk.
Qed.

Lemma failedAt_entered (h : Hash) (p : objectWalker) (e : error) :
  (e = ErrGettingObject h /\ objects !! h = None)
  \/ (e = ErrUnknownObject h /\ exists c, objects !! h = Some (Blob c)) ->
  failedAt objects e (entered objects h p).
Proof. intros He. exists h. split; [|done]. cbn. apply last_snoc. Qed.

Lemma walkObjectTreeF_failedAt (fuel : nat) (h : Hash) (p p' : objectWalker)
    (e : error) :
  walkObjectTreeF objects fuel h p = (Failed e, p') -> failedAt objects e p'.
Proof.
  revert h p p' e. induction fuel as [|fuel IH]; intros h p p' e Hw; [done|].
  rewrite walkObjectTreeF_S in Hw.
  destruct (isSeen h p) eqn:Hs; [done|].
  destruct (objects !! h) as [[t ps|es|t|c]|] eqn:Hobj.
  - destruct (walkObjectTreeF objects fuel t (entered objects h p))
      as [[|e1|] p1] eqn:H1; try done.
    + by eapply walkHashes_failedAt; [exact IH|].
    + inversion Hw; subst. by eapply IH.
  - by eapply walkEntries_failedAt; [exact IH|].
  - by eapply IH.
  - inversion Hw; subst. apply failedAt_entered. right. split; [done|by exists c].
  - inversion Hw; subst. apply failedAt_entered. by left.
Qed.

Lemma walkRefs_failedAt (refs : list Reference) (p p' : objectWalker) (e : error) :
  walkRefs objects refs p = (Failed e, p') -> failedAt objects e p'.
Proof.
  rewrite walkRefs_hashes. apply walkHashes_failedAt.
  intros h q q' e'. apply walkObjectTreeF_failedAt.
Qed.

End WalkerReach.

(** ** The walk over all references: further properties *)

Lemma walkAllRefs_seen_reach (s : Storer) (x : Hash) :
  x ∈ seen (walkAllRefs s newObjectWalker).2 ->
  Reach (Objects s) (hashRefTargets (References s)) x.
Proof.
  unfold walkAllRefs, IterReferences.
  destruct (IterFailure s) as [e|]; cbn [snd].
  - intros Hx. cbn in Hx. by apply not_elem_of_empty in Hx.
  - apply walkRefs_reach.
Qed.

Lemma walkAllRefs_total (s : Storer) (p : objectWalker) :
  (walkAllRefs s p).1 <> OutOfFuel.
Proof.
  unfold walkAllRefs, IterReferences.
  destruct (IterFailure s) as [e|]; [done|apply walkRefs_total].
Qed.

(** X1.  Whatever way the walk over all references ends, every hash in
    its seen-set is reachable from the hashes of the hash references: the
    walker never marks a hash that no chain of commits, trees and tags
    leads to. *)
Theorem walkAllRefs_marks_only_reachable (s : Storer) (x : Hash) :
  x ∈ seen (walkAllRefs s newObjectWalker).2 ->
  Reach (Objects s) (hashRefTargets (References s)) x.
Proof. apply walkAllRefs_seen_reach. Qed.

Lemma walkAllRefs_marks_only_reachable_witness :
  Reach (Objects Sample.sharedTree)
    (hashRefTargets (References Sample.sharedTree)) Sample.b0.
Proof.
  apply (walkAllRefs_marks_only_reachable Sample.sharedTree Sample.b0).
  apply (bool_decide_unpack _). vm_compute. exact I.
Defined.

(** X2.  When the walk over all references returns [nil], every hash
    reference's hash is in the seen-set and the seen-set holds whatever a
    fetched object names (its tree and parents, its target, its entries
    other than submodules).  If moreover file entries name blobs only,
    the seen-set is exactly the set of reachable hashes. *)
Theorem walkAllRefs_Done_is_reachable_set (s : Storer) (p' : objectWalker) :
  walkAllRefs s newObjectWalker = (Done, p') ->
  (forall h, h ∈ hashRefTargets (References s) -> h ∈ seen p')
  /\ (forall g c, g ∈ fetched p' -> walkedChild (Objects s) g c -> c ∈ seen p')
  /\ (fileEntriesAreLeaves (Objects s) ->
      forall h, h ∈ seen p' <-> Reach (Objects s) (hashRefTargets (References s)) h).
Proof.
  intros Hw.
  assert (Hrefs : walkRefs (Objects s) (References s) newObjectWalker = (Done, p')).
  { unfold walkAllRefs, IterReferences in Hw. by destruct (IterFailure s). }
  assert (Hroots : forall h, h ∈ hashRefTargets (References s) -> h ∈ seen p').
  { rewrite walkRefs_hashes in Hrefs. by eapply walkHashes_Done_seen. }
  assert (Hclosed : forall g c, g ∈ fetched p' -> walkedChild (Objects s) g c ->
                                c ∈ seen p').
  { intros g c Hg Hc. eapply (walkRefs_closed _ _ _ _ Hrefs); [exact Hg| |exact Hc].
    intros Hn. by apply elem_of_nil in Hn. }
  split; [done|]. split; [done|].
  intros Hleaves h. split.
  - intros Hh. pose proof (walkAllRefs_seen_reach s h) as Hr.
    rewrite Hw in Hr. by apply Hr.
  - intros Hr. induction Hr as [h Hh|g h Hg IH Hc]; [by apply Hroots|].
    pose proof (walkRefs_marked (Objects s) (References s)) as Hm.
    rewrite Hrefs in Hm.
    destruct (Hm g IH) as [Hf|(t & Ht & Hfe)]; [by eapply Hclosed|].
    by destruct (Hleaves t g Hfe h).
Qed.

Lemma sharedTree_file_entries_are_leaves :
  fileEntriesAreLeaves (Objects Sample.sharedTree).
Proof.
  intros g h (es & e & Hg & He & Hh & Hm) c Hc.
  unfold Sample.sharedTree in Hg. cbn [Objects] in Hg.
  repeat (apply lookup_insert_Some in Hg as [[<- Hg]|[_ Hg]]; [try done|]);
    [|by rewrite lookup_empty in Hg].
  inversion Hg; subst es. apply list_elem_of_singleton in He as ->.
  cbn in Hh. subst h. unfold walkedChild in Hc.
  by vm_compute in Hc.
Qed.

Lemma walkAllRefs_Done_is_reachable_set_witness :
  Sample.b0 ∈ seen (walkAllRefs Sample.sharedTree newObjectWalker).2 <->
  Reach (Objects Sample.sharedTree)
    (hashRefTargets (References Sample.sharedTree)) Sample.b0.
Proof.
  destruct (walkAllRefs_Done_is_reachable_set Sample.sharedTree
              (walkAllRefs Sample.sharedTree newObjectWalker).2)
    as (_ & _ & Hexact).
  - vm_compute. reflexivity.
  - apply Hexact, sharedTree_file_entries_are_leaves.
Defined.

(** X3.  When the walk over all references fails, either the store
    refused to iterate (and nothing was walked), or the walk stopped at
    the hash it fetched last: the error names that hash, the hash is
    reachable from the hash references, and it is missing from the store
    (a get-object error) or the hash of a blob (an unknown-object
    error). *)
Theorem walkAllRefs_fails_at_last_fetch (s : Storer) (e : error) (p' : objectWalker) :
  walkAllRefs s newObjectWalker = (Failed e, p') ->
  (IterFailure s = Some e /\ p' = newObjectWalker)
  \/ (exists x, last (fetched p') = Some x
                /\ Reach (Objects s) (hashRefTargets (References s)) x
                /\ ((e = ErrGettingObject x /\ Objects s !! x = None)
                    \/ (e = ErrUnknownObject x
                        /\ exists c, Objects s !! x = Some (Blob c)))).
Proof.
  intros Hw. pose proof (walkAllRefs_seen_reach s) as Hreach.
  rewrite Hw in Hreach. cbn [snd] in Hreach.
  unfold walkAllRefs, IterReferences in Hw.
  destruct (IterFailure s) as [e0|]; [left; by inversion Hw|].
  right. destruct (walkRefs_failedAt _ _ _ _ _ Hw) as (x & Hlast & Hwhy).
  exists x. split; [done|]. split; [|done].
  apply Hreach.
  assert (Htidy : tidy p').
  { pose proof (walkRefs_extends (Objects s) (References s) newObjectWalker) as He.
    rewrite Hw in He. eapply extends_tidy; [exact He|apply tidy_new]. }
  apply Htidy. apply last_Some in Hlast as [l ->].
  apply elem_of_app. right. by apply list_elem_of_singleton.
Qed.

Lemma walkAllRefs_fails_at_last_fetch_witness :
  (IterFailure Sample.blobTagFirst = Some (ErrUnknownObject Sample.b0)
   /\ (walkAllRefs Sample.blobTagFirst newObjectWalker).2 = newObjectWalker)
  \/ (exists x, last (fetched (walkAllRefs Sample.blobTagFirst newObjectWalker).2) = Some x
                /\ Reach (Objects Sample.blobTagFirst)
                     (hashRefTargets (References Sample.blobTagFirst)) x
                /\ ((ErrUnknownObject Sample.b0 = ErrGettingObject x
                     /\ Objects Sample.blobTagFirst !! x = None)
                    \/ (ErrUnknownObject Sample.b0 = ErrUnknownObject x
                        /\ exists c, Objects Sample.blobTagFirst !! x = Some (Blob c)))).
Proof.
  apply (walkAllRefs_fails_at_last_fetch Sample.blobTagFirst).
  vm_compute. reflexivity.
Defined.

Lemma walkHashes_all_seen (objects : gmap Hash Object) (hs : list Hash)
    (p : objectWalker) :
  (forall h, h ∈ hs -> h ∈ seen p) ->
  walkHashes (walkObjectTree objects) hs p = (Done, p).
Proof.
  induction hs as [|h hs IH]; intros Hhs; [done|].
  cbn [walkHashes]. rewrite walkObjectTree_unfold.
  assert (Hs : isSeen h p = true) by (apply isSeen_true, Hhs, list_elem_of_here).
  rewrite Hs. apply IH. intros h' Hh'. by apply Hhs, list_elem_of_further.
Qed.

(** X4.  A walk over all references that returned [nil] has nothing left
    to do: run again on the walker it left, it returns [nil] at once,
    fetches nothing and leaves the walker as it is. *)
Theorem walkAllRefs_again_is_noop (s : Storer) (p p' : objectWalker) :
  walkAllRefs s p = (Done, p') -> walkAllRefs s p' = (Done, p').
Proof.
  unfold walkAllRefs, IterReferences.
  destruct (IterFailure s) as [e|]; [done|].
  rewrite !walkRefs_hashes. intros Hw.
  apply walkHashes_all_seen. by eapply walkHashes_Done_seen.
Qed.

Lemma walkAllRefs_again_is_noop_witness :
  walkAllRefs Sample.sharedTree (walkAllRefs Sample.sharedTree newObjectWalker).2
  = (Done, (walkAllRefs Sample.sharedTree newObjectWalker).2).
Proof.
  apply (walkAllRefs_again_is_noop Sample.sharedTree newObjectWalker).
  vm_compute. reflexivity.
Defined.

(** ** Hashes in text *)



Lemma hexDecodeString_length (s b : string) :
  hexDecodeString s = Some b -> len s = 2 * len b.
Proof.
  remember (len s) as n eqn:Hn. revert s b Hn.
  induction (lt_wf n) as [n _ IH]. intros s b Hn Hd.
  destruct s as [|p [|q s']]; cbn in Hd.
  - inversion Hd; subst. done.
  - done.
  - destruct (fromHexChar p) as [x|]; [|done].
    destruct (fromHexChar q) as [y|]; [|done].
    destruct (hexDecodeString s') as [r|] eqn:Hr; [|done].
    inversion Hd; subst b.
    specialize (IH (len s') ltac:(subst n; unfold len; cbn; lia) s' r eq_refl Hr).
    subst n. unfold len in *. cbn. lia.
Qed.

Lemma hexDecodeString_Some_iff (s : string) :
  is_Some (hexDecodeString s) <-> allHexChars s = true /\ Nat.Even (len s).
Proof.
  remember (len s) as n eqn:Hn. revert s Hn.
  induction (lt_wf n) as [n _ IH]. intros s Hn.
  destruct s as [|p [|q s']].
  - subst n. cbn. split; [intros _; split; [done|by exists 0]|by eexists].
  - subst n. cbn. split; [by intros [? ?]|].
    intros [_ [k Hk]]. unfold len in Hk. cbn in Hk. lia.
  - specialize (IH (len s') ltac:(subst n; unfold len; cbn; lia) s' eq_refl).
    cbn [hexDecodeString allHexChars].
    assert (Hev : Nat.Even n <-> Nat.Even (len s')).
    { subst n. unfold len. cbn.
      split; intros [k Hk]; [exists (k - 1)|exists (S k)]; lia. }
    destruct (fromHexChar p) as [x|]; cbn;
      [|split; [by intros [? ?]|by intros [? ?]]].
    destruct (fromHexChar q) as [y|]; cbn;
      [|split; [by intros [? ?]|by intros [? ?]]].
    rewrite Hev, <- IH.
    destruct (hexDecodeString s'); split; try (by intros [? ?]); by eexists.
Qed.



(** X6.  [parseHash] takes exactly the strings of forty hexadecimal
    digits, in either letter case, and yields twenty bytes; any other
    string gives one of its two errors: not hexadecimal (a byte that is no
    digit, or an odd length) or wrong length. *)
Theorem parseHash_accepts_forty_hex_digits (s : string) :
  ((exists h, parseHash s = inr h) <-> allHexChars s = true /\ len s = 40)
  /\ (forall h, parseHash s = inr h -> len h = 20)
  /\ (parseHash s = inl (ErrHashNotHex s)
      <-> ~ (allHexChars s = true /\ Nat.Even (len s)))
  /\ (parseHash s = inl (ErrHashWrongLength s)
      <-> allHexChars s = true /\ Nat.Even (len s) /\ len s <> 40).
Proof.
  pose proof (hexDecodeString_Some_iff s) as Hiff.
  unfold parseHash.
  destruct (hexDecodeString s) as [b|] eqn:Hd.
  - pose proof (hexDecodeString_length s b Hd) as Hlen.
    destruct Hiff as [Hhex _]. destruct (Hhex (mk_is_Some _ _ eq_refl)) as [Hall Hev].
    case_decide as Hb.
    + split; [split; [by intros [h ?]|intros [_ ?]; lia]|].
      split; [done|]. split; [split; [done|tauto]|].
      split; [intros _; split; [done|split; [done|lia]]|done].
    + split; [split; [intros _; split; [done|lia]|by exists b]|].
      split; [intros h [= <-]; lia|].
      split; [split; [done|tauto]|]. split; [done|]. intros (_ & _ & Hne). lia.
  - split; [split; [by intros [h ?]|]|].
    { intros [Hall H40]. destruct Hiff as [_ Hback].
      destruct Hback as [b Hb]; [|done]. split; [done|]. exists 20. lia. }
    split; [done|].
    split; [split; [|done]|].
    { intros _ Hboth. by destruct (proj2 Hiff Hboth). }
    split; [done|]. intros (Hall & Hev & _).
    by destruct (proj2 Hiff (conj Hall Hev)).
Qed.

Lemma parseHash_accepts_forty_hex_digits_witness :
  exists h, parseHash "00000000000000000000000000000000000000AB" = inr h.
Proof.
  apply (parseHash_accepts_forty_hex_digits "00000000000000000000000000000000000000AB").
  split; reflexivity.
Defined.

(** ** The advertised references *)

Lemma collectRefs_step (s : Storer) (ref : Reference) (it : list Reference)
    (acc : list string) :
  collectRefs s (ref :: it) acc =
    if IsRemote (RefName ref) then collectRefs s it acc
    else match ref with
         | InvalidReference n => inl (ErrUnexpectedReference n)
         | _ =>
             match resolvedFor s ref with
             | None => collectRefs s it acc
             | Some r =>
                 if decide (RefName ref = HEAD)
                 then collectRefs s it (refLine r (RefName ref) :: acc)
                 else collectRefs s it (acc ++ [refLine r (RefName ref)])
             end
         end.
Proof.
  cbn [collectRefs]. destruct (IsRemote (RefName ref)); [done|].
  destruct ref as [n|n h|n t]; cbn [resolvedFor RefName]; [done|done|].
  by destruct (ResolveReference s n).
Qed.

Lemma collectRefs_elem (s : Storer) (it : list Reference) (acc refs : list string) :
  collectRefs s it acc = inr refs ->
  forall l, l ∈ refs <-> l ∈ acc \/ advertises s it l.
Proof.
  revert acc. induction it as [|ref it IH]; intros acc Hc l.
  { cbn in Hc. inversion Hc; subst. split; [by left|].
    intros [Hl|(ref & r & Hin & _)]; [done|by apply elem_of_nil in Hin]. }
  rewrite collectRefs_step in Hc.
  destruct (IsRemote (RefName ref)) eqn:Hrem.
  { rewrite (IH acc Hc l). split.
    - intros [?|(ref' & r & Hin & ?)]; [by left|].
      right. exists ref', r. split; [by apply list_elem_of_further|done].
    - intros [?|(ref' & r & Hin & Hrem' & ?)]; [by left|].
      apply elem_of_cons in Hin as [->|Hin]; [congruence|].
      right. by exists ref', r. }
  assert (Hgo : forall acc',
            collectRefs s it acc' = inr refs ->
            (forall x, x ∈ acc' <-> x ∈ acc
                                    \/ exists r, resolvedFor s ref = Some r
                                                 /\ x = refLine r (RefName ref)) ->
            l ∈ refs <-> l ∈ acc \/ advertises s (ref :: it) l).
  { intros acc' Hc' Hacc'. rewrite (IH acc' Hc' l), Hacc'. split.
    - intros [[?|(r & Hres & ->)]|(ref' & r & Hin & ?)]; [by left| |].
      + right. exists ref, r. split; [apply list_elem_of_here|done].
      + right. exists ref', r. split; [by apply list_elem_of_further|done].
    - intros [?|(ref' & r & Hin & Hrem' & Hres & ->)]; [left; by left|].
      apply elem_of_cons in Hin as [->|Hin].
      + left. right. by exists r.
      + right. by exists ref', r. }
  destruct ref as [n|n h|n t]; [done| |].
  - cbn [resolvedFor] in Hc |- *. case_decide.
    + apply (Hgo _ Hc). intros x. rewrite elem_of_cons. split.
      * intros [-> | ?]; [right; by eexists|by left].
      * intros [?|(r & [= <-] & ->)]; [by right|by left].
    + apply (Hgo _ Hc). intros x. rewrite elem_of_app, list_elem_of_singleton. split.
      * intros [? | ->]; [by left|right; by eexists].
      * intros [?|(r & [= <-] & ->)]; [by left|by right].
  - destruct (resolvedFor s (SymbolicReference n t)) as [r|] eqn:Hres.
    + case_decide.
      * apply (Hgo _ Hc). intros x. rewrite elem_of_cons. split.
        -- intros [-> | ?]; [right; by eexists|by left].
        -- intros [?|(r' & [= <-] & ->)]; [by right|by left].
      * apply (Hgo _ Hc). intros x. rewrite elem_of_app, list_elem_of_singleton. split.
        -- intros [? | ->]; [by left|right; by eexists].
        -- intros [?|(r' & [= <-] & ->)]; [by left|by right].
    + apply (Hgo _ Hc). intros x. split; [by left|].
      intros [?|(r & ? & _)]; done.
Qed.

Lemma collectRefs_length (s : Storer) (it : list Reference) (acc refs : list string) :
  collectRefs s it acc = inr refs -> length refs <= length acc + length it.
Proof.
  revert acc. induction it as [|ref it IH]; intros acc Hc.
  { cbn in Hc. inversion Hc; subst. lia. }
  rewrite collectRefs_step in Hc. cbn [length].
  destruct (IsRemote (RefName ref)); [apply IH in Hc; lia|].
  destruct ref as [n|n h|n t]; [done| |].
  - cbn [resolvedFor] in Hc. case_decide; apply IH in Hc;
      rewrite ?length_app in Hc; cbn in Hc; lia.
  - destruct (resolvedFor s (SymbolicReference n t)) as [r|];
      [case_decide|]; apply IH in Hc; rewrite ?length_app in Hc; cbn in Hc; lia.
Qed.

Lemma headFirst_cons (r : Reference) (acc : list string) :
  headFirst (refLine r HEAD :: acc).
Proof. by exists r, acc. Qed.

Lemma headFirst_snoc (acc : list string) (l : string) :
  headFirst acc -> headFirst (acc ++ [l]).
Proof. intros (r & rest & ->). by exists r, (rest ++ [l]). Qed.

Lemma collectRefs_headFirst (s : Storer) (it : list Reference) (acc refs : list string) :
  collectRefs s it acc = inr refs ->
  headFirst acc
  \/ (exists ref r, ref ∈ it /\ RefName ref = HEAD /\ resolvedFor s ref = Some r) ->
  headFirst refs.
Proof.
  revert acc. induction it as [|ref it IH]; intros acc Hc Hhead.
  { cbn in Hc. inversion Hc; subst.
    destruct Hhead as [?|(ref & r & Hin & _)]; [done|by apply elem_of_nil in Hin]. }
  rewrite collectRefs_step in Hc.
  destruct (decide (RefName ref = HEAD)) as [Hname|Hname].
  - rewrite Hname in Hc. change (IsRemote HEAD) with false in Hc. cbn iota in Hc.
    destruct ref as [n|n h|n t]; [done| |].
    + cbn [resolvedFor] in Hc. try rewrite decide_True in Hc by done.
      eapply IH; [exact Hc|]. left. apply headFirst_cons.
    + destruct (resolvedFor s (SymbolicReference n t)) as [r|] eqn:Hres.
      * try rewrite decide_True in Hc by done.
        eapply IH; [exact Hc|]. left. apply headFirst_cons.
      * eapply IH; [exact Hc|].
        destruct Hhead as [?|(ref & r & Hin & Hn & Hr)]; [by left|].
        apply elem_of_cons in Hin as [->|Hin]; [congruence|].
        right. by exists ref, r.
  - assert (Hrest : headFirst acc
                    \/ (exists ref' r, ref' ∈ it /\ RefName ref' = HEAD
                                       /\ resolvedFor s ref' = Some r)).
    { destruct Hhead as [?|(ref' & r & Hin & Hn & Hr)]; [by left|].
      apply elem_of_cons in Hin as [->|Hin]; [done|].
      right. by exists ref', r. }
    destruct (IsRemote (RefName ref)); [by eapply IH|].
    destruct ref as [n|n h|n t]; [done| |].
    + cbn [resolvedFor] in Hc. try rewrite decide_False in Hc by done.
      eapply IH; [exact Hc|].
      destruct Hrest as [?|?]; [left; by apply headFirst_snoc|by right].
    + destruct (resolvedFor s (SymbolicReference n t)) as [r|];
        [|by eapply IH].
      try rewrite decide_False in Hc by done.
      eapply IH; [exact Hc|].
      destruct Hrest as [?|?]; [left; by apply headFirst_snoc|by right].
Qed.

Lemma collectRefs_fails_iff (s : Storer) (it : list Reference) (acc : list string) :
  (exists e, collectRefs s it acc = inl e)
  <-> exists n, InvalidReference n ∈ it /\ IsRemote n = false.
Proof.
  revert acc. induction it as [|ref it IH]; intros acc.
  { cbn. split; [by intros [e ?]|]. intros (n & Hin & _). by apply elem_of_nil in Hin. }
  rewrite collectRefs_step.
  assert (Hother : forall acc', (forall n, ref <> InvalidReference n)
                                \/ IsRemote (RefName ref) = true ->
            (exists e, collectRefs s it acc' = inl e)
            <-> exists n, InvalidReference n ∈ ref :: it /\ IsRemote n = false).
  { intros acc' Hnot. rewrite (IH acc'). split.
    - intros (n & Hin & Hrem). exists n. split; [by apply list_elem_of_further|done].
    - intros (n & Hin & Hrem). exists n. split; [|done].
      apply elem_of_cons in Hin as [<-|Hin]; [|done].
      destruct Hnot as [Hnot|Hnot]; [by destruct (Hnot n)|]. cbn [RefName] in Hnot. congruence. }
  destruct (IsRemote (RefName ref)) eqn:Hrem; [apply Hother; by right|].
  destruct ref as [n|n h|n t].
  - split; [|by eexists]. intros _. exists n. split; [apply list_elem_of_here|done].
  - cbn [resolvedFor]. case_decide; apply Hother; by left.
  - destruct (resolvedFor s (SymbolicReference n t)); [case_decide|];
      apply Hother; by left.
Qed.

(** X7.  Whenever [HEAD] is among the references and gives a line (it is
    a hash reference, or a symbolic reference that resolves), its line is
    the first of the advertised list, wherever the iteration of the store
    puts it; so the capabilities are attached to the line of [HEAD]. *)
Theorem advertisement_puts_HEAD_first
    (s : Storer) (refs capabilities : list string) (ref r : Reference) :
  advertisedRefs s = inr refs ->
  ref ∈ References s ->
  RefName ref = HEAD ->
  resolvedFor s ref = Some r ->
  exists r' rest,
    refs = refLine r' HEAD :: rest
    /\ advertisementLines 0 capabilities refs
       = (refLine r' HEAD +:+ String nul (Join capabilities " ")) :: rest.
Proof.
  intros Hadv Hin Hname Hres.
  unfold advertisedRefs, IterReferences in Hadv.
  destruct (IterFailure s) as [e|]; [done|].
  destruct (collectRefs s (References s) []) as [e|refs'] eqn:Hc; [done|].
  inversion Hadv; subst refs'.
  destruct (collectRefs_headFirst s _ _ _ Hc) as (r' & rest & ->).
  { right. by exists ref, r. }
  exists r', rest. split; [done|]. apply advertisementLines_first.
Qed.

Lemma advertisement_puts_HEAD_first_witness :
  exists r' rest,
    [refLine (HashReference Main Sample.c0) HEAD;
     refLine (HashReference Main Sample.c0) Main]
    = refLine r' HEAD :: rest
    /\ advertisementLines 0 ["symref=HEAD:refs/heads/main"]
         [refLine (HashReference Main Sample.c0) HEAD;
          refLine (HashReference Main Sample.c0) Main]
       = (refLine r' HEAD +:+ String nul (Join ["symref=HEAD:refs/heads/main"] " "))
           :: rest.
Proof.
  apply (advertisement_puts_HEAD_first SampleRequest.store _ _
           (SymbolicReference HEAD Main) (HashReference Main Sample.c0)).
  - vm_compute. reflexivity.
  - apply list_elem_of_further, list_elem_of_here.
  - reflexivity.
  - vm_compute. reflexivity.
Defined.

(** X8.  The advertised lines are exactly the lines [<hash> <name>] of
    the references that are not remote-tracking and that resolve to a
    reference: remote references, unresolvable symbolic references and
    nothing else are left out, and there is at most one line per
    reference. *)
Theorem advertisement_lists_local_resolvable_refs (s : Storer) (refs : list string) :
  advertisedRefs s = inr refs ->
  (forall l, l ∈ refs <-> advertises s (References s) l)
  /\ length refs <= length (References s).
Proof.
  intros Hadv. unfold advertisedRefs, IterReferences in Hadv.
  destruct (IterFailure s) as [e|]; [done|].
  destruct (collectRefs s (References s) []) as [e|refs'] eqn:Hc; [done|].
  inversion Hadv; subst refs'. split.
  - intros l. rewrite (collectRefs_elem s _ _ _ Hc l). split; [|by right].
    intros [Hl|?]; [by apply elem_of_nil in Hl|done].
  - apply collectRefs_length in Hc. cbn in Hc. lia.
Qed.

Lemma advertisement_lists_local_resolvable_refs_witness :
  refLine (HashReference Main Sample.c0) Main
  ∈ [refLine (HashReference Main Sample.c0) HEAD;
     refLine (HashReference Main Sample.c0) Main]
  <-> advertises SampleRequest.store (References SampleRequest.store)
        (refLine (HashReference Main Sample.c0) Main).
Proof.
  destruct (advertisement_lists_local_resolvable_refs SampleRequest.store
              [refLine (HashReference Main Sample.c0) HEAD;
               refLine (HashReference Main Sample.c0) Main]) as [Hlines _].
  - vm_compute. reflexivity.
  - apply Hlines.
Defined.

(** X9.  Discovery fails exactly when the service name is neither
    [git-upload-pack] nor [git-receive-pack], or the store refuses to
    iterate, or a reference that is not remote has neither the hash nor
    the symbolic type; and whenever it fails nothing has been written to
    the response.  A response writer that fails never makes it fail. *)
Theorem serveGitInfoRefs_fails_before_writing
    {W : Type} `{Writer W} (s : Storer) (serviceName : string) (bw : W) :
  let res := serveGitInfoRefs s serviceName bw in
  (forall e, res.1 = Some e -> res.2 = bw)
  /\ (res.1 = None
      <-> (serviceName = "git-upload-pack" \/ serviceName = "git-receive-pack")
          /\ IterFailure s = None
          /\ forall n, InvalidReference n ∈ References s -> IsRemote n = true).
Proof.
  intros res. subst res. unfold serveGitInfoRefs, serviceCapabilities.
  assert (Hadv : (exists refs, advertisedRefs s = inr refs)
                 <-> IterFailure s = None
                     /\ forall n, InvalidReference n ∈ References s -> IsRemote n = true).
  { unfold advertisedRefs, IterReferences.
    destruct (IterFailure s) as [e|].
    { split; [by intros [? ?]|by intros [? _]]. }
    pose proof (collectRefs_fails_iff s (References s) []) as Hf.
    destruct (collectRefs s (References s) []) as [e|refs].
    - split; [by intros [? ?]|]. intros [_ Hall].
      destruct (proj1 Hf ltac:(by eexists)) as (n & Hin & Hrem).
      rewrite (Hall n Hin) in Hrem. done.
    - split; [|by eexists]. intros _. split; [done|]. intros n Hin.
      destruct (IsRemote n) eqn:Hrem; [done|].
      destruct (proj2 Hf ltac:(by exists n)) as [e ?]. done. }
  assert (Hcase : forall caps,
            let res := match advertisedRefs s with
                       | inl e => (Some e, bw)
                       | inr refs =>
                           let gw := NewPacketLineWriter bw in
                           let gw := WriteLine ("# service=" +:+ serviceName) gw in
                           let gw := WriteZeroPacketLine gw in
                           let gw := foldl (fun gw l => WriteLine l gw) gw
                                       (advertisementLines 0 caps refs) in
                           let gw := WriteZeroPacketLine gw in
                           let '(gw, _) := Flush gw in (None, w gw)
                       end in
            (forall e, res.1 = Some e -> res.2 = bw)
            /\ (res.1 = None <-> exists refs, advertisedRefs s = inr refs)).
  { intros caps. destruct (advertisedRefs s) as [e|refs]; cbn zeta.
    - split; [done|]. split; [done|by intros [? ?]].
    - destruct (Flush _) as [gw r]. split; [done|]. split; [by eexists|done]. }
  case_decide as Hup; [|case_decide as Hrp].
  - destruct (Hcase ["symref=HEAD:refs/heads/main"]) as [Hw Hn]. split; [exact Hw|].
    rewrite Hn, Hadv. split; [intros [? ?]; split; [by left|done]|by intros [_ ?]].
  - destruct (Hcase []) as [Hw Hn]. split; [exact Hw|].
    rewrite Hn, Hadv. split; [intros [? ?]; split; [by right|done]|by intros [_ ?]].
  - split; [done|]. split; [done|]. intros [[?|?] _]; done.
Qed.

Lemma serveGitInfoRefs_fails_before_writing_witness :
  (serveGitInfoRefs SampleRequest.store "git-upload-archive" (mkConn "" 0)).2
  = mkConn "" 0.
Proof.
  destruct (serveGitInfoRefs_fails_before_writing
              SampleRequest.store "git-upload-archive" (mkConn "" 0)) as [Hw _].
  apply (Hw (ErrUnknownServiceName "git-upload-archive")). reflexivity.
Defined.

(** ** Runs of write calls, read back *)

Lemma runOps_Buffer (ops : list writeOp) (b : Buffer) :
  runOps ops (mkPLW None b) = mkPLW None (b +:+ wire ops).
Proof.
  revert b. induction ops as [|op ops IH]; intros b.
  { cbn. by rewrite app_empty_r. }
  unfold runOps in *. cbn [foldl wire foldr].
  assert (Hop : runOp (mkPLW None b) op = mkPLW None (b +:+ opBytes op)).
  { destruct op as [s|]; cbn [runOp opBytes]; [|done].
    rewrite pktLine_eq. unfold WriteLine, writeOrRecord. cbn.
    by rewrite !app_assoc_s. }
  rewrite Hop, IH. by rewrite app_assoc_s.
Qed.

Lemma pktScan_zero (rest : string) : pktScan ("0000" +:+ rest) = ScanFlush rest.
Proof.
  change ("0000" +:+ rest)
    with (String "0" (String "0" (String "0" (String "0" rest)))).
  unfold pktScan.
  rewrite decide_False by (unfold len; cbn; lia).
  rewrite decide_False by (unfold len; cbn; lia).
  reflexivity.
Qed.

Lemma len_opBytes (op : writeOp) : 1 <= len (opBytes op).
Proof.
  destruct op as [s|]; cbn [opBytes]; [|unfold len; cbn; lia].
  rewrite pktLine_eq, !len_app. unfold len at 3. cbn. lia.
Qed.

Lemma scanAllF_wire (fuel : nat) (ops : list writeOp) :
  Forall opFits ops -> len (wire ops) < fuel ->
  scanAllF fuel (wire ops) = ScannedAll (map opPacket ops).
Proof.
  revert fuel. induction ops as [|op ops IH]; intros fuel Hfit Hlen.
  { destruct fuel; [lia|]. reflexivity. }
  destruct fuel as [|fuel]; [lia|].
  apply Forall_cons in Hfit as [Hop Hfit].
  cbn [wire foldr] in *. cbn [scanAllF map].
  assert (Hrest : len (wire ops) < fuel).
  { rewrite len_app in Hlen. pose proof (len_opBytes op). unfold wire in *. lia. }
  destruct op as [s|]; cbn [opBytes opPacket].
  - rewrite pktScan_pktLine by exact Hop. fold (wire ops). by rewrite IH.
  - rewrite pktScan_zero. fold (wire ops). by rewrite IH.
Qed.

Lemma scanAllF_total (fuel : nat) (input : string) :
  len input < fuel -> scanAllF fuel input <> ScanOutOfFuel.
Proof.
  revert input. induction fuel as [|fuel IH]; intros input Hlen; [lia|].
  cbn [scanAllF].
  destruct (pktScan input) as [line rest|rest| |] eqn:Hscan; [| |done..].
  - apply pktScan_consumes in Hscan.
    specialize (IH rest ltac:(lia)). by destruct (scanAllF fuel rest).
  - apply pktScan_flush_consumes in Hscan.
    specialize (IH rest ltac:(lia)). by destruct (scanAllF fuel rest).
Qed.

(** X10.  What a run of [WriteLine] and [WriteZeroPacketLine] calls
    leaves on a writer that takes every byte reads back, packet by packet,
    as the run itself: each line of at most 65530 bytes as its text with
    the newline, each zero marker as an end-of-section, and nothing more
    or less. *)
Theorem written_packets_read_back (ops : list writeOp) :
  Forall opFits ops ->
  w (runOps ops (NewPacketLineWriter ("" : Buffer))) = wire ops
  /\ scanAll (wire ops) = ScannedAll (map opPacket ops).
Proof.
  intros Hfit. split.
  - unfold NewPacketLineWriter. by rewrite runOps_Buffer.
  - apply scanAllF_wire; [done|]. unfold scanAll. lia.
Qed.

Lemma written_packets_read_back_witness :
  scanAll (wire [OpWriteLine "# service=git-upload-pack"; OpWriteZeroPacketLine;
                 OpWriteLine "NAK"])
  = ScannedAll [PktLine ("# service=git-upload-pack" +:+ String newline "");
                PktFlush; PktLine ("NAK" +:+ String newline "")].
Proof.
  apply (written_packets_read_back
           [OpWriteLine "# service=git-upload-pack"; OpWriteZeroPacketLine;
            OpWriteLine "NAK"]).
  repeat constructor; by vm_compute.
Defined.

(** ** Receive-pack: reading the request *)

Lemma readRefUpdatesF_reads (fuel : nat) (input : string) (firstLine : bool)
    (caps : list string) (acc : list RefUpdate)
    (good : list string) (tail rest : string) :
  len input < fuel ->
  scansTo input good tail ->
  allAccepted firstLine good ->
  pktScan tail = ScanFlush rest \/ pktScan tail = ScanLine "" rest ->
  readRefUpdatesF fuel input firstLine caps acc
  = ReadOk {| refUpdates := acc ++ updatesOf firstLine good;
              clientCapabilites := capsOf firstLine caps good;
              packData := rest |}.
Proof.
  intros Hlen Hscans. revert fuel firstLine caps acc Hlen.
  induction Hscans as [input|input line rest0 lines rest' Hscan Hscans IH];
    intros fuel firstLine caps acc Hlen Hacc Hend.
  - destruct fuel as [|fuel]; [lia|]. cbn [readRefUpdatesF updatesOf capsOf].
    rewrite app_nil_r. by destruct Hend as [-> | ->].
  - destruct fuel as [|fuel]; [lia|]. cbn [readRefUpdatesF updatesOf capsOf].
    destruct Hacc as (Hl & [[u newCaps] Hr] & Hacc).
    rewrite Hscan. rewrite decide_False by done. rewrite Hr.
    rewrite IH; [|apply pktScan_consumes in Hscan; lia|done|done].
    by rewrite <- (assoc_L (++)).
Qed.

Lemma readRefUpdatesF_truncated (fuel : nat) (input : string) (firstLine : bool)
    (caps : list string) (acc : list RefUpdate) (good : list string) (tail : string) :
  len input < fuel ->
  scansTo input good tail ->
  allAccepted firstLine good ->
  pktScan tail = ScanEOF \/ pktScan tail = ScanError ->
  readRefUpdatesF fuel input firstLine caps acc = ReadFailed ErrReadingRequestLine.
Proof.
  intros Hlen Hscans. revert fuel firstLine caps acc Hlen.
  induction Hscans as [input|input line rest0 lines rest' Hscan Hscans IH];
    intros fuel firstLine caps acc Hlen Hacc Hend.
  - destruct fuel as [|fuel]; [lia|]. cbn [readRefUpdatesF].
    by destruct Hend as [-> | ->].
  - destruct fuel as [|fuel]; [lia|]. cbn [readRefUpdatesF].
    destruct Hacc as (Hl & [[u newCaps] Hr] & Hacc).
    rewrite Hscan. rewrite decide_False by done. rewrite Hr.
    apply IH; [apply pktScan_consumes in Hscan; lia|done|done].
Qed.

Lemma updatesOf_length (firstLine : bool) (good : list string) :
  allAccepted firstLine good -> length (updatesOf firstLine good) = length good.
Proof.
  revert firstLine. induction good as [|l good IH]; intros firstLine Hacc; [done|].
  destruct Hacc as (_ & [[u c] Hr] & Hacc). cbn [updatesOf length].
  rewrite Hr. cbn. by rewrite IH.
Qed.

Lemma readRefUpdatesF_names (fuel : nat) (input : string) (firstLine : bool)
    (caps : list string) (acc : list RefUpdate) (lines : RequestLines) :
  readRefUpdatesF fuel input firstLine caps acc = ReadOk lines ->
  (forall u, u ∈ acc -> contains nul (Ref u) = false) ->
  forall u, u ∈ refUpdates lines -> contains nul (Ref u) = false.
Proof.
  revert input firstLine caps acc.
  induction fuel as [|fuel IH]; intros input firstLine caps acc Hread Hacc; [done|].
  cbn [readRefUpdatesF] in Hread.
  assert (Hline : forall line rest,
            (if decide (line = "")
             then ReadOk {| refUpdates := acc; clientCapabilites := caps;
                            packData := rest |}
             else match parseRefUpdateLine firstLine line with
                  | inl e => ReadFailed e
                  | inr (u, newCaps) =>
                      readRefUpdatesF fuel rest false (default caps newCaps) (acc ++ [u])
                  end) = ReadOk lines ->
            forall u, u ∈ refUpdates lines -> contains nul (Ref u) = false).
  { intros line rest Hl. case_decide.
    - inversion Hl; subst. exact Hacc.
    - destruct (parseRefUpdateLine firstLine line) as [e|[u newCaps]] eqn:Hp; [done|].
      eapply IH; [exact Hl|]. intros u' [Hu'|Hu']%elem_of_app; [by apply Hacc|].
      apply list_elem_of_singleton in Hu' as ->.
      by eapply parseRefUpdateLine_ref_no_nul. }
  destruct (pktScan input) as [line rest|rest| |]; [by eapply Hline..|done|done].
Qed.

Lemma setRef_elem (ref r : Reference) (refs : list Reference) :
  r ∈ setRef ref refs -> r = ref \/ r ∈ refs.
Proof.
  induction refs as [|r0 refs IH]; cbn.
  - intros Hr%list_elem_of_singleton. by left.
  - case_decide.
    + intros [->|Hr]%elem_of_cons; [by left|]. right. by apply list_elem_of_further.
    + intros [->|Hr]%elem_of_cons; [right; apply list_elem_of_here|].
      destruct (IH Hr) as [?|?]; [by left|]. right. by apply list_elem_of_further.
Qed.

Lemma applyRefUpdates_names (refNameOk : ReferenceName -> bool)
    (updates : list RefUpdate) (s : Storer) :
  (forall u, u ∈ updates -> contains nul (Ref u) = false) ->
  namesNulFree s -> namesNulFree (applyRefUpdates refNameOk updates s).
Proof.
  revert s. induction updates as [|u updates IH]; intros s Hups Hs; [done|].
  unfold applyRefUpdates in *. cbn [foldl]. apply IH.
  - intros u' Hu'. by apply Hups, list_elem_of_further.
  - unfold SetReference. cbn [RefName]. destruct (refNameOk (Ref u)); [|done].
    intros r Hr. cbn in Hr. apply setRef_elem in Hr as [->|Hr]; [|by apply Hs].
    cbn. apply Hups, list_elem_of_here.
Qed.

(** ** Receive-pack: further properties *)

(** X11.  Receive-pack always returns, and when it returns an error it
    has touched nothing: the store is the one it was given, nothing was
    written to the response, and neither the pack decoder nor the store's
    set-reference was called (the result is the same for any of them).  A
    content encoding other than the empty one and [gzip] is such an
    error, whatever the body. *)
Theorem serveGitReceivePack_fails_before_decoding
    {W : Type} `{Writer W} (gunzip : string -> option string)
    (UpdateObjectStorage : gmap Hash Object -> string -> gmap Hash Object * option error)
    (refNameOk : ReferenceName -> bool)
    (s : Storer) (r : Request) (bw : W) :
  let res := serveGitReceivePack gunzip UpdateObjectStorage refNameOk s r bw in
  res.1.1 <> OutOfFuel
  /\ (forall e, res.1.1 = Failed e ->
        res = (Failed e, s, bw)
        /\ forall UpdateObjectStorage' refNameOk',
             serveGitReceivePack gunzip UpdateObjectStorage' refNameOk' s r bw = res)
  /\ (ContentEncoding r <> "" -> ContentEncoding r <> "gzip" ->
        res = (Failed (ErrUnknownContentEncoding (ContentEncoding r)), s, bw)).
Proof.
  intros res. split; [apply serveGitReceivePack_total|]. subst res.
  unfold serveGitReceivePack, requestBody. split.
  - intros e.
    destruct (if decide (ContentEncoding r = "") then _ else _) as [e0|body];
      [intros [= <-]; done|].
    destruct (readRefUpdates body) as [lines|e0|]; [|intros [= <-]; done|done].
    destruct (UpdateObjectStorage _ _) as [objs [e0|]].
    + by destruct (Flush _).
    + by destruct (Flush _) as [gw [e1|]].
  - intros Hne Hgz. by rewrite !decide_False.
Qed.

Lemma serveGitReceivePack_fails_before_decoding_witness :
  serveGitReceivePack SampleRequest.noGzip SampleRequest.decodeOk SampleRequest.anyName
    SampleRequest.store (mkRequest "br" (Body SampleRequest.push)) ("" : Buffer)
  = (Failed (ErrUnknownContentEncoding "br"), SampleRequest.store, "").
Proof.
  by apply (serveGitReceivePack_fails_before_decoding
              SampleRequest.noGzip SampleRequest.decodeOk SampleRequest.anyName
              SampleRequest.store (mkRequest "br" (Body SampleRequest.push))
              ("" : Buffer)).
Defined.

(** X12.  A request whose update lines are all well formed but which
    ends, or turns into bytes that are no packet, before the empty line
    that closes the list fails with the request-line error: the updates
    read so far are dropped and the handler returns the error with store
    and response untouched.  The empty body is the simplest case. *)
Theorem receive_pack_needs_closing_line
    {W : Type} `{Writer W} (gunzip : string -> option string)
    (UpdateObjectStorage : gmap Hash Object -> string -> gmap Hash Object * option error)
    (refNameOk : ReferenceName -> bool)
    (s : Storer) (r : Request) (bw : W)
    (body : string) (good : list string) (tail : string) :
  requestBody gunzip r = inr body ->
  scansTo body good tail ->
  allAccepted true good ->
  pktScan tail = ScanEOF \/ pktScan tail = ScanError ->
  readRefUpdates body = ReadFailed ErrReadingRequestLine
  /\ serveGitReceivePack gunzip UpdateObjectStorage refNameOk s r bw
     = (Failed ErrReadingRequestLine, s, bw).
Proof.
  intros Hbody Hscans Hacc Hend.
  assert (Hread : readRefUpdates body = ReadFailed ErrReadingRequestLine).
  { unfold readRefUpdates. eapply readRefUpdatesF_truncated; [lia|done..]. }
  split; [done|]. unfold serveGitReceivePack. by rewrite Hbody, Hread.
Qed.

Lemma receive_pack_needs_closing_line_witness :
  let line := SampleRequest.hex Sample.c0 +:+ " " +:+ SampleRequest.hex Sample.c1
              +:+ " refs/heads/main" in
  serveGitReceivePack SampleRequest.noGzip SampleRequest.decodeOk SampleRequest.anyName
    SampleRequest.store (mkRequest "" (SampleRequest.frame line)) ("" : Buffer)
  = (Failed ErrReadingRequestLine, SampleRequest.store, "").
Proof.
  intros line.
  apply (receive_pack_needs_closing_line
           SampleRequest.noGzip SampleRequest.decodeOk SampleRequest.anyName
           SampleRequest.store (mkRequest "" (SampleRequest.frame line)) ("" : Buffer)
           (SampleRequest.frame line) [line] "").
  - reflexivity.
  - eapply scans_cons; [|apply scans_nil]. vm_compute. reflexivity.
  - split; [discriminate|]. split; [|exact I]. eexists. vm_compute. reflexivity.
  - left. reflexivity.
Defined.

(** X13.  A request body made of well-formed update lines followed by an
    empty line is read completely: the updates come out in the order of
    the lines, one per line; the client capabilities are those of the
    first line; and the pack handed to the decoder is exactly what
    follows the empty line. *)
Theorem readRefUpdates_reads_lines_in_order
    (body : string) (good : list string) (tail rest : string) :
  scansTo body good tail ->
  allAccepted true good ->
  pktScan tail = ScanFlush rest \/ pktScan tail = ScanLine "" rest ->
  readRefUpdates body
  = ReadOk {| refUpdates := updatesOf true good;
              clientCapabilites := capsOf true [] good;
              packData := rest |}
  /\ length (updatesOf true good) = length good.
Proof.
  intros Hscans Hacc Hend. split; [|by apply updatesOf_length].
  unfold readRefUpdates.
  rewrite (readRefUpdatesF_reads (S (len body)) body true [] [] good tail rest);
    [done|lia|done..].
Qed.

Lemma readRefUpdates_reads_lines_in_order_witness :
  readRefUpdates (Body SampleRequest.pushTwo)
  = ReadOk {| refUpdates := [mkRefUpdate Sample.c0 Sample.c1 "refs/heads/main";
                             mkRefUpdate Sample.c0 Sample.c2 "refs/heads/.."];
              clientCapabilites := [];
              packData := "PACK" |}.
Proof.
  set (l1 := SampleRequest.hex Sample.c0 +:+ " " +:+ SampleRequest.hex Sample.c1
             +:+ " refs/heads/main").
  set (l2 := SampleRequest.hex Sample.c0 +:+ " " +:+ SampleRequest.hex Sample.c2
             +:+ " refs/heads/..").
  destruct (readRefUpdates_reads_lines_in_order (Body SampleRequest.pushTwo)
              [l1; l2] ("0000" +:+ "PACK") "PACK") as [Hread _].
  - eapply scans_cons; [vm_compute; reflexivity|].
    eapply scans_cons; [vm_compute; reflexivity|]. apply scans_nil.
  - split; [discriminate|]. split; [eexists; vm_compute; reflexivity|].
    split; [discriminate|]. split; [eexists; vm_compute; reflexivity|exact I].
  - left. vm_compute. reflexivity.
  - rewrite Hread. vm_compute. reflexivity.
Defined.

(** X14.  Receive-pack never stores a reference name with a NUL byte:
    the name of an update is cut at the first NUL of its field, so a
    store whose names are free of NUL bytes stays so, whatever the request
    and however the call ends. *)
Theorem receive_pack_keeps_names_nul_free
    {W : Type} `{Writer W} (gunzip : string -> option string)
    (UpdateObjectStorage : gmap Hash Object -> string -> gmap Hash Object * option error)
    (refNameOk : ReferenceName -> bool)
    (s : Storer) (r : Request) (bw : W) :
  namesNulFree s ->
  namesNulFree (serveGitReceivePack gunzip UpdateObjectStorage refNameOk s r bw).1.2.
Proof.
  intros Hs. unfold serveGitReceivePack.
  destruct (requestBody gunzip r) as [e|body]; [done|].
  destruct (readRefUpdates body) as [lines|e|] eqn:Hread; [|done..].
  destruct (UpdateObjectStorage _ _) as [objs [e|]].
  - by destruct (Flush _).
  - destruct (Flush _) as [gw [e|]]; [done|]. cbn [fst snd].
    apply applyRefUpdates_names; [|done].
    eapply readRefUpdatesF_names; [exact Hread|].
    intros u Hu. by apply elem_of_nil in Hu.
Qed.

Lemma receive_pack_keeps_names_nul_free_witness :
  namesNulFree
    (serveGitReceivePack SampleRequest.noGzip SampleRequest.decodeOk
       SampleRequest.anyName SampleRequest.store SampleRequest.push ("" : Buffer)).1.2.
Proof.
  apply (receive_pack_keeps_names_nul_free
           SampleRequest.noGzip SampleRequest.decodeOk SampleRequest.anyName
           SampleRequest.store SampleRequest.push ("" : Buffer)).
  intros r Hr. cbn in Hr.
  apply elem_of_cons in Hr as [->|Hr]; [reflexivity|].
  apply list_elem_of_singleton in Hr as ->. reflexivity.
Defined.

(** ** Upload-pack *)

Lemma scanAll_total (input : string) : scanAll input <> ScanOutOfFuel.
Proof. apply scanAllF_total. lia. Qed.

Section UploadPackFacts.
Context {W : Type} `{Writer W}.
Variable mapOrder : gset Hash -> list Hash.
Variable Encode : gmap Hash Object -> list Hash -> W -> W * option error.

Local Abbreviation upload := (serveGitUploadPack mapOrder Encode).

Lemma serveGitUploadPack_total (s : Storer) (body : string) (bw : W) :
  (upload s body bw).1 <> HandlerOutOfFuel.
Proof.
  unfold serveGitUploadPack.
  pose proof (scanAll_total body) as Hscan.
  destruct (scanAll body) as [pkts| |]; [|done..].
  pose proof (walkAllRefs_total s newObjectWalker) as Hwalk.
  destruct (walkAllRefs s newObjectWalker) as [[|e|] p']; [|done..].
  destruct (Flush _) as [gw [e|]]; [done|]. by destruct (Encode _ _ _).
Qed.

Lemma serveGitUploadPack_error (s : Storer) (body : string) (bw : W)
    (e : requestError) :
  (upload s body bw).1 = Returned (Some e) ->
  (upload s body bw).2 = bw
  /\ ((e = ErrParsingRequest /\ scanAll body = ScanFailed)
      \/ exists e' p', e = ErrWalkingRefs e'
                       /\ walkAllRefs s newObjectWalker = (Failed e', p')).
Proof.
  unfold serveGitUploadPack.
  destruct (scanAll body) as [pkts| |]; [| |done].
  - destruct (walkAllRefs s newObjectWalker) as [[|e'|] p'] eqn:Hwalk; [| |done].
    + destruct (Flush _) as [gw [e0|]]; [done|]. by destruct (Encode _ _ _).
    + intros [= <-]. split; [done|]. right. by exists e', p'.
  - intros [= <-]. split; [done|]. by left.
Qed.

End UploadPackFacts.

(** X15.  Upload-pack does not look at what the client asks for:
    whatever lines and end-of-section markers a client frames into the
    request body (its wants, haves and [done]), the answer is the answer
    to the empty body; only a body with a framing error is told apart,
    with the request-parsing error and nothing written. *)
Theorem upload_pack_ignores_negotiation
    {W : Type} `{Writer W} (mapOrder : gset Hash -> list Hash)
    (Encode : gmap Hash Object -> list Hash -> W -> W * option error)
    (s : Storer) (ops : list writeOp) (bw : W) :
  Forall opFits ops ->
  serveGitUploadPack mapOrder Encode s (wire ops) bw
  = serveGitUploadPack mapOrder Encode s "" bw
  /\ forall junk, scanAll (wire ops +:+ junk) = ScanFailed ->
       serveGitUploadPack mapOrder Encode s (wire ops +:+ junk) bw
       = (Returned (Some ErrParsingRequest), bw).
Proof.
  intros Hfit. unfold serveGitUploadPack. split.
  - assert (scanAll (wire ops) = ScannedAll (map opPacket ops)) as ->.
    { apply scanAllF_wire; [done|]. unfold scanAll. lia. }
    done.
  - by intros junk ->.
Qed.

Lemma upload_pack_ignores_negotiation_witness :
  serveGitUploadPack elements (fun _ _ (b : Buffer) => (b +:+ "PACK", None))
    Sample.sharedTree
    (wire [OpWriteLine ("want " +:+ HashString Sample.c2); OpWriteZeroPacketLine;
           OpWriteLine "done"]) ""
  = serveGitUploadPack elements (fun _ _ (b : Buffer) => (b +:+ "PACK", None))
      Sample.sharedTree "" "".
Proof.
  apply (upload_pack_ignores_negotiation elements
           (fun _ _ (b : Buffer) => (b +:+ "PACK", None)) Sample.sharedTree
           [OpWriteLine ("want " +:+ HashString Sample.c2); OpWriteZeroPacketLine;
            OpWriteLine "done"]).
  repeat constructor; by vm_compute.
Defined.

(** X16.  When the request is well framed, the walk over all references
    returns [nil] and the [NAK] line could be flushed, upload-pack hands
    the pack encoder each hash of the walker's seen-set exactly once, in
    whatever order the map yields them, and the response is the [NAK] line
    followed by what the encoder writes; if file entries name blobs only,
    the hashes handed over are exactly the reachable ones. *)
Theorem upload_pack_sends_the_seen_set
    {W : Type} `{Writer W} (mapOrder : gset Hash -> list Hash)
    (Encode : gmap Hash Object -> list Hash -> W -> W * option error)
    (s : Storer) (body : string) (bw : W)
    (pkts : list packet) (walker : objectWalker) (gw : PacketLineWriter W) :
  (forall X, mapOrder X ≡ₚ elements X) ->
  scanAll body = ScannedAll pkts ->
  walkAllRefs s newObjectWalker = (Done, walker) ->
  Flush (WriteLine "NAK" (NewPacketLineWriter bw)) = (gw, None) ->
  let objects := mapOrder (seen walker) in
  serveGitUploadPack mapOrder Encode s body bw
  = (Returned None, (Encode (Objects s) objects (w gw)).1)
  /\ NoDup objects
  /\ (forall h, h ∈ objects <-> h ∈ seen walker)
  /\ (fileEntriesAreLeaves (Objects s) ->
      forall h, h ∈ objects <-> Reach (Objects s) (hashRefTargets (References s)) h).
Proof.
  intros Hperm Hscan Hwalk Hflush objects.
  assert (Hmem : forall h, h ∈ objects <-> h ∈ seen walker).
  { intros h. subst objects. rewrite (Hperm (seen walker)). apply elem_of_elements. }
  split.
  { unfold serveGitUploadPack. rewrite Hscan, Hwalk, Hflush.
    by destruct (Encode _ _ _). }
  split.
  { subst objects. rewrite (Hperm (seen walker)). apply NoDup_elements. }
  split; [done|].
  intros Hleaves h. rewrite Hmem.
  assert (Hrefs : walkRefs (Objects s) (References s) newObjectWalker = (Done, walker)).
  { unfold walkAllRefs, IterReferences in Hwalk. by destruct (IterFailure s). }
  split.
  - intros Hh. pose proof (walkAllRefs_seen_reach s h) as Hr.
    rewrite Hwalk in Hr. by apply Hr.
  - intros Hr. induction Hr as [h Hh|g h Hg IH Hc].
    + rewrite walkRefs_hashes in Hrefs. by eapply walkHashes_Done_seen.
    + pose proof (walkRefs_marked (Objects s) (References s)) as Hm.
      rewrite Hrefs in Hm.
      destruct (Hm g IH) as [Hf|(t & Ht & Hfe)]; [|by destruct (Hleaves t g Hfe h)].
      eapply (walkRefs_closed _ _ _ _ Hrefs); [exact Hf| |exact Hc].
      intros Hn. by apply elem_of_nil in Hn.
Qed.

Lemma upload_pack_sends_the_seen_set_witness :
  serveGitUploadPack elements (fun _ _ (b : Buffer) => (b +:+ "PACK", None))
    Sample.sharedTree "" ""
  = (Returned None, pktLine "NAK" +:+ "PACK").
Proof.
  destruct (upload_pack_sends_the_seen_set elements
              (fun _ _ (b : Buffer) => (b +:+ "PACK", None))
              Sample.sharedTree "" ("" : Buffer) []
              (walkAllRefs Sample.sharedTree newObjectWalker).2
              (mkPLW None (pktLine "NAK"))) as [Hres _].
  - done.
  - reflexivity.
  - vm_compute. reflexivity.
  - reflexivity.
  - rewrite Hres. reflexivity.
Defined.



(** ** The dispatcher *)

Section DispatcherFacts.
Context {W : Type} `{Writer W}.
Variable gunzip : string -> option string.
Variable UpdateObjectStorage :
  gmap Hash Object -> string -> gmap Hash Object * option error.
Variable refNameOk : ReferenceName -> bool.
Variable mapOrder : gset Hash -> list Hash.
Variable Encode : gmap Hash Object -> list Hash -> W -> W * option error.

Lemma serveGitInfoRefs_error_unchanged (s : Storer) (serviceName : string)
    (bw : W) (e : error) :
  (serveGitInfoRefs s serviceName bw).1 = Some e ->
  (serveGitInfoRefs s serviceName bw).2 = bw.
Proof.
  unfold serveGitInfoRefs.
  destruct (serviceCapabilities serviceName) as [e0|caps]; [done|].
  destruct (advertisedRefs s) as [e0|refs]; [done|]. by destruct (Flush _).
Qed.

Lemma serveGitReceivePack_failed_unchanged (s : Storer) (r : Request) (bw : W)
    (e : error) (s' : Storer) (bw' : W) :
  serveGitReceivePack gunzip UpdateObjectStorage refNameOk s r bw = (Failed e, s', bw') ->
  s' = s /\ bw' = bw.
Proof.
  unfold serveGitReceivePack.
  destruct (requestBody gunzip r) as [e0|body]; [by intros [= _ <- <-]|].
  destruct (readRefUpdates body) as [lines|e0|]; [|by intros [= _ <- <-]|done].
  destruct (UpdateObjectStorage _ _) as [objs [e0|]].
  - by destruct (Flush _).
  - by destruct (Flush _) as [gw [e1|]].
Qed.

Local Abbreviation serve :=
  (ServeHTTP gunzip UpdateObjectStorage refNameOk mapOrder Encode).

Lemma ServeHTTP_cases (s : Storer) (r : HttpRequest) (bw : W) :
  (exists s' bw', serve s r bw = (Returned None, NoHttpError, s', bw')
                  /\ (URLPath r = "/info/refs" \/ URLPath r = "/git-upload-pack"
                      \/ URLPath r = "/git-receive-pack"))
  \/ (exists e, serve s r bw
                = (Returned (Some e),
                   HttpError "Internal Server Error" 500, s, bw)
                /\ (URLPath r = "/info/refs" \/ URLPath r = "/git-upload-pack"
                    \/ URLPath r = "/git-receive-pack"))
  \/ (serve s r bw = (Returned None, HttpError "Not Found" 404, s, bw)
      /\ URLPath r <> "/info/refs" /\ URLPath r <> "/git-upload-pack"
      /\ URLPath r <> "/git-receive-pack").
Proof.
  unfold ServeHTTP, serveRequest.
  case_decide as Hinfo; [|case_decide as Hup; [|case_decide as Hrp]].
  - pose proof (serveGitInfoRefs_error_unchanged s (Service r) bw) as Hun.
    destruct (serveGitInfoRefs s (Service r) bw) as [[e|] bw']; cbn.
    + right. left. exists (RequestError e).
      pose proof (Hun e eq_refl) as Hbw. cbn in Hbw. subst bw'.
      split; [done|by left].
    + left. exists s, bw'. split; [done|by left].
  - pose proof (serveGitUploadPack_total mapOrder Encode s (Body (Req r)) bw) as Ht.
    pose proof (serveGitUploadPack_error mapOrder Encode s (Body (Req r)) bw) as He.
    destruct (serveGitUploadPack mapOrder Encode s (Body (Req r)) bw)
      as [[[e|]|] bw']; [| |done].
    + right. left. exists e. destruct (He e eq_refl) as [Hbw _]. cbn in Hbw.
      subst bw'. split; [done|]. right. by left.
    + left. exists s, bw'. split; [done|]. right. by left.
  - pose proof (serveGitReceivePack_total gunzip UpdateObjectStorage refNameOk
                  s (Req r) bw) as Ht.
    pose proof (serveGitReceivePack_failed_unchanged s (Req r) bw) as Hun.
    destruct (serveGitReceivePack gunzip UpdateObjectStorage refNameOk s (Req r) bw)
      as [[[|e|] s'] bw']; [| |done].
    + left. exists s', bw'. split; [done|]. right. by right.
    + right. left. exists (RequestError e).
      destruct (Hun e s' bw' eq_refl) as [-> ->]. split; [done|]. right. by right.
  - right. right. done.
Qed.

End DispatcherFacts.

(** X18.  Every request is answered.  A path other than [/info/refs],
    [/git-upload-pack] and [/git-receive-pack] gets 404 Not Found; a
    request whose handler returns an error gets 500 Internal Server Error,
    also when the error is the client's (unknown service, malformed line);
    and in both cases the request had no effect: the store is as it was
    and no packet was written to the response. *)
Theorem ServeHTTP_error_means_no_effect
    {W : Type} `{Writer W} (gunzip : string -> option string)
    (UpdateObjectStorage : gmap Hash Object -> string -> gmap Hash Object * option error)
    (refNameOk : ReferenceName -> bool)
    (mapOrder : gset Hash -> list Hash)
    (Encode : gmap Hash Object -> list Hash -> W -> W * option error)
    (s : Storer) (r : HttpRequest) (bw : W) :
  let res := ServeHTTP gunzip UpdateObjectStorage refNameOk mapOrder Encode s r bw in
  res.1.1.1 <> HandlerOutOfFuel
  /\ (forall text code, res.1.1.2 = HttpError text code ->
        res.1.2 = s /\ res.2 = bw
        /\ ((code = 404 /\ text = "Not Found" /\ res.1.1.1 = Returned None)
            \/ (code = 500 /\ text = "Internal Server Error"
                /\ exists e, res.1.1.1 = Returned (Some e))))
  /\ (res.1.1.2 = HttpError "Not Found" 404
      <-> URLPath r <> "/info/refs" /\ URLPath r <> "/git-upload-pack"
          /\ URLPath r <> "/git-receive-pack")
  /\ (res.1.1.2 = HttpError "Internal Server Error" 500
      <-> exists e, res.1.1.1 = Returned (Some e)).
Proof.
  intros res. subst res.
  destruct (ServeHTTP_cases gunzip UpdateObjectStorage refNameOk mapOrder Encode s r bw)
    as [(s' & bw' & -> & Hpath)|[(e & -> & Hpath)|(-> & Hp1 & Hp2 & Hp3)]];
    cbn [fst snd].
  - split; [done|]. split; [done|].
    split; [split; [done|]; intros (? & ? & ?); by destruct Hpath as [?|[?|?]]|].
    split; [done|by intros [? ?]].
  - split; [done|].
    split; [intros text code [= <- <-]; split; [done|]; split; [done|];
            right; split; [done|]; split; [done|by exists e]|].
    split; [split; [done|]; intros (? & ? & ?); by destruct Hpath as [?|[?|?]]|].
    split; [by exists e|done].
  - split; [done|].
    split; [intros text code [= <- <-]; split; [done|]; split; [done|]; by left|].
    split; [done|]. split; [done|by intros [? ?]].
Qed.

Lemma ServeHTTP_error_means_no_effect_witness :
  (ServeHTTP SampleRequest.noGzip SampleRequest.decodeOk SampleRequest.anyName
     elements (fun _ _ (b : Buffer) => (b +:+ "PACK", None))
     SampleRequest.store
     (mkHttpRequest "/info/refs/" "git-upload-pack" SampleRequest.push)
     ("" : Buffer)).1.1.2
  = HttpError "Not Found" 404.
Proof.
  pose proof (ServeHTTP_error_means_no_effect
                SampleRequest.noGzip SampleRequest.decodeOk SampleRequest.anyName
                elements (fun _ _ (b : Buffer) => (b +:+ "PACK", None))
                SampleRequest.store
                (mkHttpRequest "/info/refs/" "git-upload-pack" SampleRequest.push)
                ("" : Buffer)) as (_ & _ & [_ H404] & _).
  apply H404. repeat split; discriminate.
Defined.

(** ** A push, then a discovery or a fetch *)

Section AfterPush.
Context {W : Type} `{Writer W}.
Variable gunzip : string -> option string.
Variable UpdateObjectStorage :
  gmap Hash Object -> string -> gmap Hash Object * option error.
Variable refNameOk : ReferenceName -> bool.

Local Abbreviation apply := (applyRefUpdates refNameOk).

Lemma applyRefUpdates_IterFailure (updates : list RefUpdate) (s : Storer) :
  IterFailure (apply updates s) = IterFailure s.
Proof.
  revert s. induction updates as [|u updates IH]; intros s; [done|].
  unfold applyRefUpdates in *. cbn [foldl]. rewrite IH.
  unfold SetReference. by destruct (refNameOk _).
Qed.

Lemma applyRefUpdates_elem (updates : list RefUpdate) (s : Storer) (r : Reference) :
  r ∈ References (apply updates s) ->
  r ∈ References s \/ exists u, u ∈ updates /\ r = HashReference (Ref u) (To u).
Proof.
  revert s. induction updates as [|u updates IH]; intros s Hr; [by left|].
  unfold applyRefUpdates in *. cbn [foldl] in Hr.
  destruct (IH _ Hr) as [Hin|(u' & Hu' & ->)].
  - unfold SetReference in Hin. destruct (refNameOk _); [|by left].
    cbn in Hin. apply setRef_elem in Hin as [->|Hin]; [|by left].
    right. exists u. split; [apply list_elem_of_here|done].
  - right. exists u'. split; [by apply list_elem_of_further|done].
Qed.

Lemma serveGitReceivePack_applied (s : Storer) (r : Request) (bw : W)
    (body : string) (lines : RequestLines) (objs : gmap Hash Object)
    (gw : PacketLineWriter W) :
  requestBody gunzip r = inr body ->
  readRefUpdates body = ReadOk lines ->
  UpdateObjectStorage (Objects s) (packData lines) = (objs, None) ->
  Flush (WriteZeroPacketLine (WriteLine "unpack ok" (NewPacketLineWriter bw)))
  = (gw, None) ->
  (serveGitReceivePack gunzip UpdateObjectStorage refNameOk s r bw).1.2
  = apply (refUpdates lines) (withObjects objs s).
Proof.
  intros Hbody Hread Hdec Hflush. unfold serveGitReceivePack.
  by rewrite Hbody, Hread, Hdec, Hflush.
Qed.

Lemma applied_update_stored (s : Storer) (before after : list RefUpdate)
    (u : RefUpdate) :
  refNameOk (Ref u) = true ->
  (forall u', u' ∈ after -> refNameOk (Ref u') = true -> Ref u' <> Ref u) ->
  HashReference (Ref u) (To u) ∈ References (apply (before ++ u :: after) s).
Proof.
  intros Hok Hafter. eapply lookupRef_elem.
  by apply applyRefUpdates_observable.
Qed.

End AfterPush.

(** X19.  A push shows in the next discovery.  After a request whose
    pack was decoded and whose response was flushed, a discovery that
    worked on the store before works on the store after; and for every
    update that the store took under a name that is not remote-tracking
    and that no later taken update carries, the advertised lines hold
    [<to-hash> <name>]. *)
Theorem pushed_reference_is_advertised
    {W : Type} `{Writer W} (gunzip : string -> option string)
    (UpdateObjectStorage : gmap Hash Object -> string -> gmap Hash Object * option error)
    (refNameOk : ReferenceName -> bool)
    (s : Storer) (r : Request) (bw : W)
    (body : string) (lines : RequestLines) (objs : gmap Hash Object)
    (gw : PacketLineWriter W) :
  requestBody gunzip r = inr body ->
  readRefUpdates body = ReadOk lines ->
  UpdateObjectStorage (Objects s) (packData lines) = (objs, None) ->
  Flush (WriteZeroPacketLine (WriteLine "unpack ok" (NewPacketLineWriter bw)))
  = (gw, None) ->
  let s' := (serveGitReceivePack gunzip UpdateObjectStorage refNameOk s r bw).1.2 in
  ((exists refs0, advertisedRefs s = inr refs0) -> exists refs, advertisedRefs s' = inr refs)
  /\ (forall refs before u after,
        advertisedRefs s' = inr refs ->
        refUpdates lines = before ++ u :: after ->
        refNameOk (Ref u) = true ->
        (forall u', u' ∈ after -> refNameOk (Ref u') = true -> Ref u' <> Ref u) ->
        IsRemote (Ref u) = false ->
        HashString (To u) +:+ " " +:+ Ref u ∈ refs).
Proof.
  intros Hbody Hread Hdec Hflush s'.
  assert (Hs' : s' = applyRefUpdates refNameOk (refUpdates lines) (withObjects objs s))
    by (by eapply serveGitReceivePack_applied).
  split.
  - intros [refs0 H0]. unfold advertisedRefs, IterReferences in *.
    rewrite Hs', applyRefUpdates_IterFailure. cbn [IterFailure withObjects].
    destruct (IterFailure s) as [e|]; [done|]. rewrite <- Hs'.
    destruct (collectRefs s' (References s') []) as [e|refs] eqn:Hc; [|by exists refs].
    exfalso.
    destruct (proj1 (collectRefs_fails_iff s' (References s') []) (ex_intro _ e Hc))
      as (n & Hin & Hrem).
    rewrite Hs' in Hin. apply applyRefUpdates_elem in Hin as [Hin|(u & _ & Hu)]; [|done].
    cbn [References withObjects] in Hin.
    destruct (proj2 (collectRefs_fails_iff s (References s) [])) as [e0 He0].
    { by exists n. }
    by rewrite He0 in H0.
  - intros refs before u after Hadv Hsplit Hok Hafter Hrem.
    unfold advertisedRefs, IterReferences in Hadv.
    destruct (IterFailure s') as [e|]; [done|].
    destruct (collectRefs s' (References s') []) as [e|refs'] eqn:Hc; [done|].
    inversion Hadv; subst refs'.
    apply (collectRefs_elem s' _ _ _ Hc). right.
    exists (HashReference (Ref u) (To u)), (HashReference (Ref u) (To u)).
    split; [|done].
    rewrite Hs', Hsplit. by apply applied_update_stored.
Qed.

Lemma pushed_reference_is_advertised_witness :
  exists refs,
    advertisedRefs (serveGitReceivePack SampleRequest.noGzip SampleRequest.decodeOk
                      SampleRequest.anyName SampleRequest.store SampleRequest.push
                      ("" : Buffer)).1.2 = inr refs
    /\ HashString Sample.c1 +:+ " refs/heads/main" ∈ refs.
Proof.
  destruct (pushed_reference_is_advertised
              SampleRequest.noGzip SampleRequest.decodeOk SampleRequest.anyName
              SampleRequest.store SampleRequest.push ("" : Buffer)
              (Body SampleRequest.push)
              (mkRequestLines [mkRefUpdate Sample.c0 Sample.c1 "refs/heads/main"]
                 ["report-status"] "PACK")
              (Objects SampleRequest.store)
              (mkPLW None (pktLine "unpack ok" +:+ "0000")))
    as [_ Hline].
  - reflexivity.
  - vm_compute. reflexivity.
  - reflexivity.
  - vm_compute. reflexivity.
  - eexists. split; [vm_compute; reflexivity|].
    apply (Hline _ [] (mkRefUpdate Sample.c0 Sample.c1 "refs/heads/main") []).
    + vm_compute. reflexivity.
    + reflexivity.
    + reflexivity.
    + intros u' Hu'. by apply elem_of_nil in Hu'.
    + reflexivity.
Defined.

(** X20.  The handler never checks that a pushed hash names an object.
    After a request whose pack was decoded and whose response was flushed,
    take an update that the store took and whose name no later taken
    update carries.  A walk over all references of the new store that
    returns [nil] has the update's [To] hash in its seen-set, so the hash
    is part of every pack sent from then on.  And when, after the decode,
    the hash has no object or a blob, and no tree lists it as a file,
    every walk fails: each later upload-pack request returns the
    walking error and writes nothing. *)
Theorem pushed_hash_is_sent_or_breaks_fetch
    {W : Type} `{Writer W} (gunzip : string -> option string)
    (UpdateObjectStorage : gmap Hash Object -> string -> gmap Hash Object * option error)
    (refNameOk : ReferenceName -> bool)
    (mapOrder : gset Hash -> list Hash)
    (Encode : gmap Hash Object -> list Hash -> W -> W * option error)
    (s : Storer) (r : Request) (bw : W)
    (body : string) (lines : RequestLines) (objs : gmap Hash Object)
    (gw : PacketLineWriter W) (before after : list RefUpdate) (u : RefUpdate) :
  requestBody gunzip r = inr body ->
  readRefUpdates body = ReadOk lines ->
  UpdateObjectStorage (Objects s) (packData lines) = (objs, None) ->
  Flush (WriteZeroPacketLine (WriteLine "unpack ok" (NewPacketLineWriter bw)))
  = (gw, None) ->
  refUpdates lines = before ++ u :: after ->
  refNameOk (Ref u) = true ->
  (forall u', u' ∈ after -> refNameOk (Ref u') = true -> Ref u' <> Ref u) ->
  let s' := (serveGitReceivePack gunzip UpdateObjectStorage refNameOk s r bw).1.2 in
  (forall walker, walkAllRefs s' newObjectWalker = (Done, walker) ->
                  To u ∈ seen walker)
  /\ ((forall o, objs !! To u = Some o -> exists c, o = Blob c) ->
      (forall g, ~ fileEntryOf objs g (To u)) ->
      forall body' pkts bw',
        scanAll body' = ScannedAll pkts ->
        exists e, serveGitUploadPack mapOrder Encode s' body' bw'
                  = (Returned (Some (ErrWalkingRefs e)), bw')).
Proof.
  intros Hbody Hread Hdec Hflush Hsplit Hok Hafter s'.
  assert (Hs' : s' = applyRefUpdates refNameOk (refUpdates lines) (withObjects objs s))
    by (by eapply serveGitReceivePack_applied).
  assert (Hobjs : Objects s' = objs).
  { rewrite Hs'. by rewrite (proj1 (applyRefUpdates_spec refNameOk _ _)). }
  assert (Href : To u ∈ hashRefTargets (References s')).
  { apply (hashRefTargets_elem _ (Ref u)). rewrite Hs', Hsplit.
    by apply applied_update_stored. }
  assert (Hseen : forall walker, walkAllRefs s' newObjectWalker = (Done, walker) ->
                                 To u ∈ seen walker).
  { intros walker Hwalk. unfold walkAllRefs, IterReferences in Hwalk.
    destruct (IterFailure s'); [done|].
    rewrite walkRefs_hashes in Hwalk. by eapply walkHashes_Done_seen. }
  split; [exact Hseen|].
  intros Hnone Hnofile body' pkts bw' Hscan.
  pose proof (walkAllRefs_total s' newObjectWalker) as Htot.
  unfold serveGitUploadPack. rewrite Hscan.
  destruct (walkAllRefs s' newObjectWalker) as [[|e|] walker] eqn:Hwalk;
    [|by exists e|done].
  exfalso. pose proof (Hseen walker eq_refl) as Hin.
  unfold walkAllRefs, IterReferences in Hwalk.
  destruct (IterFailure s'); [done|]. rewrite Hobjs in Hwalk.
  pose proof (walkRefs_marked objs (References s')) as Hm.
  pose proof (walkRefs_walkable objs (References s') walker Hwalk) as Hw.
  rewrite Hwalk in Hm. destruct (Hm _ Hin) as [Hf|(g & _ & Hfe)].
  - destruct (Hw _ Hf) as (o & Ho & Hnb). destruct (Hnone o Ho) as [c ->].
    by apply (Hnb c).
  - by apply (Hnofile g).
Qed.

Lemma pushed_hash_is_sent_or_breaks_fetch_witness :
  Sample.c1
  ∈ seen (walkAllRefs
            (serveGitReceivePack SampleRequest.noGzip SampleRequest.decodeOk
               SampleRequest.anyName SampleRequest.store SampleRequest.push
               ("" : Buffer)).1.2
            newObjectWalker).2.
Proof.
  destruct (pushed_hash_is_sent_or_breaks_fetch
              SampleRequest.noGzip SampleRequest.decodeOk SampleRequest.anyName
              elements (fun _ _ (b : Buffer) => (b +:+ "PACK", None))
              SampleRequest.store SampleRequest.push ("" : Buffer)
              (Body SampleRequest.push)
              (mkRequestLines [mkRefUpdate Sample.c0 Sample.c1 "refs/heads/main"]
                 ["report-status"] "PACK")
              (Objects SampleRequest.store)
              (mkPLW None (pktLine "unpack ok" +:+ "0000"))
              [] [] (mkRefUpdate Sample.c0 Sample.c1 "refs/heads/main"))
    as [Hseen _].
  - reflexivity.
  - vm_compute. reflexivity.
  - reflexivity.
  - vm_compute. reflexivity.
  - reflexivity.
  - reflexivity.
  - intros u' Hu'. by apply elem_of_nil in Hu'.
  - apply Hseen. vm_compute. reflexivity.
Defined.
